(** * Shader program manager of the OpenGL renderer

    A shallow embedding of
    [src/video_core/renderer_opengl/gl_shader_manager.cpp]: the two-level
    shader cache ([shaders_ref] / [shaders]), the linked-program cache
    ([program_cache]), the table of persisted program binaries
    ([binary_cache]) with its on-disk format, and the binding step
    [ApplyTo].

    Integers of the source ([u64], [u32], [s32], [GLuint], [GLenum]) are
    modelled as [Z]; where the source converts between widths the
    wrap-around is written out.  The [std::unordered_map]s are finite maps
    over [Z] ([Zmap]).  Pointers into [shaders] are modelled by the key of
    the node they point to: nodes of an [unordered_map] never move and the
    manager never erases one.  The collaborators of the manager (hash,
    shader generators, GL driver, file) are parameters or small models;
    what they are asked is recorded as a list of calls. *)

From Stdlib Require Import ZArith List String Lia.
From coqutil Require Import Byte Word.LittleEndianList.
From stdpp Require Import base fin_maps zmap list strings.

Open Scope Z_scope.

(** ** Machine integers *)

Abbreviation u64 := Z (only parsing).
Abbreviation u32 := Z (only parsing).
Abbreviation s32 := Z (only parsing).
Abbreviation GLuint := Z (only parsing).
Abbreviation GLenum := Z (only parsing).
Abbreviation GLint := Z (only parsing).

(** [static_cast<u32>(x)] *)
Definition cast_u32 (x : Z) : u32 := x mod 2 ^ 32.

(** [static_cast<s32>(x)] (two's complement) *)
Definition cast_s32 (x : Z) : s32 :=
  let r := x mod 2 ^ 32 in if r <? 2 ^ 31 then r else r - 2 ^ 32.

(** A [GLint] converted to [std::size_t] for the comparison of line 21. *)
Definition cast_size_t (x : Z) : Z := x mod 2 ^ 64.

(** ** The persisted-binary table and its file *)

(** [struct ProgramCacheEntity] *)
Record ProgramCacheEntity := {
  format : GLenum;
  binary : list byte;
}.

(** [std::unordered_map::emplace]: the first value of a key is kept. *)
Definition emplace {V} (k : Z) (v : V) (m : Zmap V) : Zmap V :=
  match m !! k with
  | Some _ => m
  | None => <[k := v]> m
  end.

(** Modelled from the spec: [FileUtil::IOFile], [FileUtil::Delete] and
    [GetCacheFile] are declared outside this file; the spec only speaks of
    "read failure" and "write failure".  A file open for reading is the
    list of bytes not yet consumed, a file open for writing the bytes
    written so far together with the room left on the device; [m_good]
    is cleared when a transfer moves fewer bytes than asked and is never
    set again.  Writes are not buffered: a write that lacks room is
    reported by that write.  With a buffered file the report can come as
    late as the close, after the last [IsGood] test of
    [SaveProgramCache]; nothing below is stated about a save that lacks
    room for an entry. *)
Record IOFile := {
  m_file : list byte;
  m_room : nat;
  m_good : bool;
}.

(** The part of the file system the manager touches: the cache file of
    the running application (if it exists), the room left for writing,
    and whether the file can be opened for writing. *)
Record Disk := {
  cache_file : option (list byte);
  free_space : nat;
  writable : bool;
}.

(** [FileUtil::Delete(GetCacheFile())] *)
Definition Delete (d : Disk) : Disk :=
  {| cache_file := None; free_space := free_space d; writable := writable d |}.

Definition store (d : Disk) (content : list byte) : Disk :=
  {| cache_file := Some content; free_space := free_space d;
     writable := writable d |}.

(** [file.ReadBytes(dst, length)]: the bytes that are available overwrite
    the front of the destination, the rest of the destination keeps its
    old content. *)
Definition ReadBytes (f : IOFile) (dst : list byte) (length : nat)
  : IOFile * list byte :=
  let got := take length (m_file f) in
  ({| m_file := drop length (m_file f); m_room := m_room f;
      m_good := m_good f && (List.length got =? length)%nat |},
   got ++ drop (List.length got) dst).

(** [file.WriteBytes(src, length)] *)
Definition WriteBytes (f : IOFile) (src : list byte) (length : nat) : IOFile :=
  let put := take (m_room f) (take length src) in
  {| m_file := m_file f ++ put; m_room := m_room f - List.length put;
     m_good := m_good f && (List.length put =? length)%nat |}.

(** Reading into an integer variable of [n] bytes that currently holds
    [old]; the host is little-endian. *)
Definition ReadInt (n : nat) (f : IOFile) (old : Z) : IOFile * Z :=
  let '(f', bs) := ReadBytes f (le_split n old) n in (f', le_combine bs).

Definition WriteInt (n : nat) (f : IOFile) (v : Z) : IOFile :=
  WriteBytes f (le_split n v) n.

(** [PROGRAM_CACHE_VERSION] *)
Definition PROGRAM_CACHE_VERSION : u32 := 2.

(** The locals [hash], [format], [length] of [LoadProgramCache] are
    declared without initialiser; whatever they hold is an input. *)
Record Indeterminate := {
  hash_0 : u64;
  format_0 : GLenum;
  length_0 : u32;
}.

(** The loop of [LoadProgramCache], [count] iterations unless a read fails.
    The local [binary] keeps its content between iterations: the
    constructor of [ProgramCacheEntity] copies from its parameter. *)
Fixpoint LoadProgramCache_loop (count : nat) (file : IOFile)
    (hash : u64) (fmt : GLenum) (length : u32) (bin : list byte)
    (binary_cache : Zmap ProgramCacheEntity) (d : Disk)
  : Zmap ProgramCacheEntity * Disk :=
  match count with
  | O => (binary_cache, d)
  | S count' =>
      let '(file, hash) := ReadInt 8 file hash in
      let '(file, fmt) := ReadInt 4 file fmt in
      let '(file, length) := ReadInt 4 file length in
      let bin := resize (Z.to_nat length) Byte.x00 bin in
      let '(file, bin) := ReadBytes file bin (Z.to_nat length) in
      let binary_cache :=
        emplace hash {| format := fmt; binary := bin |} binary_cache in
      if negb (m_good file) then (binary_cache, Delete d)
      else LoadProgramCache_loop count' file hash fmt length bin binary_cache d
  end.

(** [ShaderProgramManager::Impl::LoadProgramCache] *)
Definition LoadProgramCache (u : Indeterminate)
    (binary_cache : Zmap ProgramCacheEntity) (d : Disk)
  : Zmap ProgramCacheEntity * Disk :=
  match cache_file d with
  | None => (binary_cache, d)
  | Some content =>
      let file := {| m_file := content; m_room := 0; m_good := true |} in
      let '(file, verion) := ReadInt 4 file 0 in
      if negb (verion =? PROGRAM_CACHE_VERSION) then (binary_cache, Delete d)
      else
        let '(file, count) := ReadInt 4 file 0 in
        LoadProgramCache_loop (Z.to_nat (cast_s32 count)) file
          (hash_0 u) (format_0 u) (length_0 u) [] binary_cache d
  end.

(** The loop of [SaveProgramCache] over the entries in iteration order;
    [None] when the file was deleted after a failed write. *)
Fixpoint SaveProgramCache_loop (entries : list (Z * ProgramCacheEntity))
    (file : IOFile) : option IOFile :=
  match entries with
  | [] => Some file
  | (hash, e) :: rest =>
      let length := cast_u32 (Z.of_nat (List.length (binary e))) in
      let file := WriteInt 8 file hash in
      let file := WriteInt 4 file (format e) in
      let file := WriteInt 4 file length in
      let file := WriteBytes file (binary e) (Z.to_nat length) in
      if negb (m_good file) then None
      else SaveProgramCache_loop rest file
  end.

(** [ShaderProgramManager::Impl::SaveProgramCache]; [order] is the order
    in which the [unordered_map] is iterated. *)
Definition SaveProgramCache
    (order : Zmap ProgramCacheEntity → list (Z * ProgramCacheEntity))
    (binary_cache : Zmap ProgramCacheEntity) (d : Disk) : Disk :=
  if negb (writable d) then d
  else
    let file := {| m_file := []; m_room := free_space d; m_good := true |} in
    let file := WriteInt 4 file PROGRAM_CACHE_VERSION in
    let count := cast_s32 (Z.of_nat (size binary_cache)) in
    let file := WriteInt 4 file count in
    match SaveProgramCache_loop (order binary_cache) file with
    | Some file => store d (m_file file)
    | None => Delete d
    end.

(** The bytes of one entry of the store file: 64-bit key, 32-bit format
    tag, 32-bit byte length, raw bytes. *)
Definition entry_bytes (p : Z * ProgramCacheEntity) : list byte :=
  le_split 8 p.1 ++ le_split 4 (format p.2)
  ++ le_split 4 (Z.of_nat (List.length (binary p.2))) ++ binary p.2.

(** The bytes of a whole store file. *)
Definition store_bytes (entries : list (Z * ProgramCacheEntity)) : list byte :=
  le_split 4 PROGRAM_CACHE_VERSION
  ++ le_split 4 (Z.of_nat (List.length entries))
  ++ concat (map entry_bytes entries).

(** The values an entry can hold in the source's types. *)
Definition entity_fits (k : Z) (e : ProgramCacheEntity) : Prop :=
  0 <= k < 2 ^ 64 ∧ 0 <= format e < 2 ^ 32
  ∧ Z.of_nat (List.length (binary e)) < 2 ^ 32.

(** ** The name of the cache file *)

(** The sixteen digits of [{:X}]. *)
Definition hex_digit (n : Z) : Ascii.ascii :=
  match String.get (Z.to_nat n) "0123456789ABCDEF" with
  | Some c => c
  | None => Ascii.Ascii false false false false true true false false
  end.

(** The [width] low hexadecimal digits of [z], most significant first. *)
Fixpoint hex_fixed (width : nat) (z : Z) : string :=
  match width with
  | O => ""
  | S w => hex_fixed w (z / 16) +:+ String (hex_digit (z mod 16)) ""
  end.

(** [Impl::GetCacheFile] (lines 277 to 282).  [dir] is what
    [FileUtil::GetUserPath(CacheDir)] returns and [program_id] what the
    local holds after [ReadProgramId] (0 when that call sets nothing).
    The format [{:016X}] of a [u64] is its sixteen upper-case hexadecimal
    digits, padded with zeros. *)
Definition GetCacheFile (dir : string) (program_id : u64) : string :=
  dir +:+ hex_fixed 16 program_id +:+ ".cache".

(** The value of a hexadecimal digit, and of a string of digits read
    after the value [acc]. *)
Definition hex_value (c : Ascii.ascii) : Z :=
  let n := Z.of_N (Ascii.N_of_ascii c) in
  if n <? 58 then n - 48 else n - 55.

Fixpoint unhex (acc : Z) (s : string) : Z :=
  match s with
  | EmptyString => acc
  | String c s => unhex (16 * acc + hex_value c) s
  end.

#[global] Instance entity_fits_dec k e : Decision (entity_fits k e).
Proof. unfold entity_fits. apply _. Defined.

Definition demo_table : Zmap ProgramCacheEntity :=
  <[7 := {| format := 1; binary := [Byte.x0a; Byte.x0b] |}]>
    (<[9 := {| format := 3; binary := [] |}]> ∅).

(** A store file that announces two entries and ends after the first. *)
Definition truncated_store : list byte :=
  le_split 4 PROGRAM_CACHE_VERSION ++ le_split 4 2
  ++ entry_bytes (7, {| format := 1; binary := [Byte.x0a; Byte.x0b] |}).

(** A store file that ends after the version tag. *)
Definition version_only_store : list byte := le_split 4 PROGRAM_CACHE_VERSION.

(** A store file that ends inside the entry count. *)
Definition cut_count_store : list byte :=
  le_split 4 PROGRAM_CACHE_VERSION ++ [Byte.x01].

(** A store file of another version. *)
Definition old_version_store : list byte :=
  le_split 4 1 ++ le_split 4 1
  ++ entry_bytes (7, {| format := 1; binary := [Byte.x0a; Byte.x0b] |}).

Definition disk_with (content : list byte) : Disk :=
  {| cache_file := Some content; free_space := 64; writable := true |}.

Definition demo_disk : Disk :=
  {| cache_file := None; free_space := 64; writable := true |}.

Definition demo_garbage : Indeterminate :=
  {| hash_0 := 12345; format_0 := 77; length_0 := 3 |}.

(** ** The world outside the manager *)

(** The emulated GPU, the configuration keys derived from it, the hash and
    the shader generators: all declared outside this file and taken as
    parameters.  [Common::ComputeHash64] is applied to the byte image of a
    key, to the text of a shader and to an array of three stage hashes;
    each use has its own field. *)
Class Pica := {
  Regs : Type;
  ShaderSetup : Type;
  PicaVSConfig : Type;
  PicaFixedGSConfig : Type;
  PicaFSConfig : Type;
  PicaVSConfig_new : Regs → ShaderSetup → PicaVSConfig;
  PicaFixedGSConfig_new : Regs → PicaFixedGSConfig;
  PicaFSConfig_BuildFromRegs : Regs → PicaFSConfig;
  ComputeHash64_vs : PicaVSConfig → u64;
  ComputeHash64_gs : PicaFixedGSConfig → u64;
  ComputeHash64_fs : PicaFSConfig → u64;
  ComputeHash64_code : string → u64;
  ComputeHash64_stages : u64 → u64 → u64 → u64;
  GenerateTrivialVertexShader : bool → string;
  GenerateVertexShader : ShaderSetup → PicaVSConfig → bool → string;
  GenerateFixedGeometryShader : PicaFixedGSConfig → bool → string;
  GenerateFragmentShader : PicaFSConfig → bool → string;
}.

(** OpenGL constants used by the file. *)
Definition GL_FRAGMENT_SHADER : GLenum := 0x8B30.
Definition GL_VERTEX_SHADER : GLenum := 0x8B31.
Definition GL_GEOMETRY_SHADER : GLenum := 0x8DD9.
Definition GL_VERTEX_SHADER_BIT : Z := 0x1.
Definition GL_FRAGMENT_SHADER_BIT : Z := 0x2.
Definition GL_GEOMETRY_SHADER_BIT : Z := 0x4.
Definition GL_INVALID_INDEX : GLuint := 0xFFFFFFFF.

(** What the manager asks of its collaborators, in the order it asks:
    calls of the shader generators and calls that change the GL context.
    Each call is recorded with its arguments and, where it has one, its
    result. *)
Inductive Call {VSConfig GSConfig FSConfig : Type} :=
  | CallGenerateTrivialVertexShader (separable : bool)
  | CallGenerateVertexShader (key : VSConfig)
  | CallGenerateFixedGeometryShader (key : GSConfig)
  | CallGenerateFragmentShader (key : FSConfig)
  | CallShaderCreate (code : string) (type : GLenum) (handle : GLuint)
  | CallProgramCreate (separable : bool) (shaders : list GLuint) (handle : GLuint)
  | CallProgramCreateBinary (fmt : GLenum) (bin : list byte) (handle : GLuint)
  | CallGetProgramBinary (program : GLuint) (fmt : GLenum) (bin : list byte)
  | CallPipelineCreate (handle : GLuint)
  | CallUniformBlockBinding (shader : GLuint) (ub_index : GLuint) (binding : GLuint)
  | CallUniform1i (location : GLint) (value : GLint)
  | CallBindShaderProgram (program : GLuint) (old_program : GLuint)
  | CallUseProgramStages (pipeline : GLuint) (stages : Z) (program : GLuint).
Arguments Call : clear implicits.

(** The calls over the configuration keys of the emulated GPU. *)
Abbreviation PicaCall := (Call PicaVSConfig PicaFixedGSConfig PicaFSConfig).

(** The GL driver and the renderer's binding constants.  The object
    wrappers [OGLShader], [OGLProgram], [OGLPipeline], the state tracker
    [OpenGLState] and the constants of [UniformBindings], [TextureUnits]
    and [ImageUnits] are declared outside this file.  What the driver
    answers may depend on every call made before. *)
Class Driver `{Pica} := {
  LoadShader : list PicaCall → string → GLenum → GLuint;
  LoadProgram : list PicaCall → bool → list GLuint → GLuint;
  LoadProgramBinary : list PicaCall → GLenum → list byte → GLuint;
  QueryProgramBinary : list PicaCall → GLuint → GLenum * list byte;
  GenProgramPipeline : list PicaCall → GLuint;
  CurrentShaderProgram : list PicaCall → GLuint;
  glGetUniformBlockIndex : list PicaCall → GLuint → string → GLuint;
  glGetActiveUniformBlockiv_DATA_SIZE : list PicaCall → GLuint → GLuint → GLint;
  glGetUniformLocation : list PicaCall → GLuint → string → GLint;
  UniformBindings_Common : GLuint;
  UniformBindings_VS : GLuint;
  sizeof_UniformData : Z;
  sizeof_VSUniformData : Z;
  TextureUnits_PicaTexture : Z → GLint;
  TextureUnits_TextureCube : GLint;
  TextureUnits_TextureBufferLUT_LF : GLint;
  TextureUnits_TextureBufferLUT_RG : GLint;
  TextureUnits_TextureBufferLUT_RGBA : GLint;
  ImageUnits_ShadowBuffer : GLuint;
  ImageUnits_ShadowTexturePX : GLuint;
  ImageUnits_ShadowTextureNX : GLuint;
  ImageUnits_ShadowTexturePY : GLuint;
  ImageUnits_ShadowTextureNY : GLuint;
  ImageUnits_ShadowTexturePZ : GLuint;
  ImageUnits_ShadowTextureNZ : GLuint;
}.

(** ** Computations that talk to the driver *)

(** Where a run of the model ends without a result: at [ASSERT_MSG]
    (line 21), which stops the process, or at a read through a pointer
    that is null or was never set.  Such a read is undefined behaviour
    in the source, which makes it with no test (lines 219 to 221): the
    model follows the run no further, and [WildDereference] in
    particular is no promise that the process stops. *)
Inductive Fault :=
  | AssertionFailure (msg : string)
  | NullDereference
  | WildDereference.

Inductive Outcome (C A : Type) :=
  | Ok (a : A) (calls : list C)
  | Halt (f : Fault).
Arguments Ok {C A} a calls.
Arguments Halt {C A} f.

(** A computation reads the calls made so far and returns a value with the
    extended list of calls, or stops the process. *)
Definition GLM `{Pica} (A : Type) : Type := list PicaCall → Outcome PicaCall A.

Definition ret `{Pica} {A} (a : A) : GLM A := λ t, Ok a t.

Definition bind `{Pica} {A B} (m : GLM A) (k : A → GLM B) : GLM B :=
  λ t, match m t with
       | Ok a t' => k a t'
       | Halt f => Halt f
       end.

Notation "'let*' x ':=' m 'in' k" := (bind m (λ x, k))
  (at level 10, x pattern, m at level 100, k at level 200).
Notation "m ;; k" := (bind m (λ _, k))
  (at level 100, k at level 200, right associativity).

Definition call `{Pica} (c : PicaCall) : GLM unit := λ t, Ok tt (t ++ [c]).
Definition ask `{Pica} {A} (q : list PicaCall → A) : GLM A := λ t, Ok (q t) t.
Definition halt `{Pica} {A} (f : Fault) : GLM A := λ _, Halt f.
Definition when `{Pica} (b : bool) (m : GLM unit) : GLM unit :=
  if b then m else ret tt.

(** ** GL object wrappers *)

(** Modelled from the spec: the wrappers [OGLShader], [OGLProgram] and
    [OGLPipeline] are declared outside this file.  A default-constructed
    wrapper holds handle 0 (line 245 tests a freshly inserted
    [program_cache[hash]] against it), and [Create] stores the handle the
    driver returns.  Every [Create] of this file is made on a wrapper that
    holds 0.  A [Create] of the model always returns: what the wrappers
    do when a compilation or a link fails is not in this file (the
    specification calls a failed compilation fatal), so the runs of the
    model are the runs in which the wrappers returned. *)
Record OGLShader := { shader_handle : GLuint }.
Record OGLProgram := { handle : GLuint }.
Record OGLPipeline := { pipeline_handle : GLuint }.

Definition OGLShader_new : OGLShader := {| shader_handle := 0 |}.
Definition OGLProgram_new : OGLProgram := {| handle := 0 |}.
Definition OGLPipeline_new : OGLPipeline := {| pipeline_handle := 0 |}.

(** [struct OpenGLState], the two fields [ApplyTo] writes. *)
Record DrawState := {
  shader_program : GLuint;
  program_pipeline : GLuint;
}.
Record OpenGLState := { draw : DrawState }.

Section Wrappers.
Context {PICA : Pica} {DRIVER : Driver}.

(** [OGLShader::Create(source, type)] *)
Definition OGLShader_Create (code : string) (type : GLenum) : GLM OGLShader :=
  let* h := ask (λ t, LoadShader t code type) in
  call (CallShaderCreate code type h);;
  ret {| shader_handle := h |}.

(** [OGLProgram::Create(separable, shaders)] *)
Definition OGLProgram_Create (separable : bool) (shaders : list GLuint)
  : GLM OGLProgram :=
  let* h := ask (λ t, LoadProgram t separable shaders) in
  call (CallProgramCreate separable shaders h);;
  ret {| handle := h |}.

(** [OGLProgram::Create(format, binary)]: installs a stored binary; the
    handle is 0 when the driver rejects it. *)
Definition OGLProgram_Create_binary (fmt : GLenum) (bin : list byte)
  : GLM OGLProgram :=
  let* h := ask (λ t, LoadProgramBinary t fmt bin) in
  call (CallProgramCreateBinary fmt bin h);;
  ret {| handle := h |}.

(** [OGLProgram::GetProgramBinary(format, binary)] *)
Definition OGLProgram_GetProgramBinary (program : OGLProgram)
  : GLM (GLenum * list byte) :=
  let* r := ask (λ t, QueryProgramBinary t (handle program)) in
  call (CallGetProgramBinary (handle program) r.1 r.2);;
  ret r.

(** [OGLPipeline::Create()] *)
Definition OGLPipeline_Create : GLM OGLPipeline :=
  let* h := ask GenProgramPipeline in
  call (CallPipelineCreate h);;
  ret {| pipeline_handle := h |}.

(** [OpenGLState::BindShaderProgram(shader)], returns the program bound
    before. *)
Definition OpenGLState_BindShaderProgram (shader : GLuint) : GLM GLuint :=
  let* old := ask CurrentShaderProgram in
  call (CallBindShaderProgram shader old);;
  ret old.

(** ** The static helpers (lines 13 to 70) *)

Definition SetShaderUniformBlockBinding (shader : GLuint) (name : string)
    (binding : GLuint) (expected_size : Z) : GLM unit :=
  let* ub_index := ask (λ t, glGetUniformBlockIndex t shader name) in
  if ub_index =? GL_INVALID_INDEX then ret tt
  else
    let* ub_size := ask (λ t, glGetActiveUniformBlockiv_DATA_SIZE t shader ub_index) in
    if cast_size_t ub_size =? expected_size
    then call (CallUniformBlockBinding shader ub_index binding)
    else halt (AssertionFailure "Uniform block size did not match!").

Definition SetShaderUniformBlockBindings (shader : GLuint) : GLM unit :=
  SetShaderUniformBlockBinding shader "shader_data" UniformBindings_Common
    sizeof_UniformData;;
  SetShaderUniformBlockBinding shader "vs_config" UniformBindings_VS
    sizeof_VSUniformData.

Definition SetShaderSamplerBinding (shader : GLuint) (name : string)
    (binding : GLint) : GLM unit :=
  let* uniform_tex := ask (λ t, glGetUniformLocation t shader name) in
  when (negb (uniform_tex =? -1)) (call (CallUniform1i uniform_tex binding)).

(** [static_cast<GLint>(binding)] of a [GLuint] *)
Definition SetShaderImageBinding (shader : GLuint) (name : string)
    (binding : GLuint) : GLM unit :=
  let* uniform_tex := ask (λ t, glGetUniformLocation t shader name) in
  when (negb (uniform_tex =? -1))
    (call (CallUniform1i uniform_tex (cast_s32 binding))).

Definition SetShaderSamplerBindings (shader : GLuint) : GLM unit :=
  let* old_program := OpenGLState_BindShaderProgram shader in
  SetShaderSamplerBinding shader "tex0" (TextureUnits_PicaTexture 0);;
  SetShaderSamplerBinding shader "tex1" (TextureUnits_PicaTexture 1);;
  SetShaderSamplerBinding shader "tex2" (TextureUnits_PicaTexture 2);;
  SetShaderSamplerBinding shader "tex_cube" TextureUnits_TextureCube;;
  SetShaderSamplerBinding shader "texture_buffer_lut_lf"
    TextureUnits_TextureBufferLUT_LF;;
  SetShaderSamplerBinding shader "texture_buffer_lut_rg"
    TextureUnits_TextureBufferLUT_RG;;
  SetShaderSamplerBinding shader "texture_buffer_lut_rgba"
    TextureUnits_TextureBufferLUT_RGBA;;
  SetShaderImageBinding shader "shadow_buffer" ImageUnits_ShadowBuffer;;
  SetShaderImageBinding shader "shadow_texture_px" ImageUnits_ShadowTexturePX;;
  SetShaderImageBinding shader "shadow_texture_nx" ImageUnits_ShadowTextureNX;;
  SetShaderImageBinding shader "shadow_texture_py" ImageUnits_ShadowTexturePY;;
  SetShaderImageBinding shader "shadow_texture_ny" ImageUnits_ShadowTextureNY;;
  SetShaderImageBinding shader "shadow_texture_pz" ImageUnits_ShadowTexturePZ;;
  SetShaderImageBinding shader "shadow_texture_nz" ImageUnits_ShadowTextureNZ;;
  let* _ := OpenGLState_BindShaderProgram old_program in
  ret tt.

End Wrappers.

(** ** [class OGLShaderStage] *)

(** [boost::variant<OGLShader, OGLProgram>]; [which()] is 0 for the first
    alternative. *)
Inductive ShaderOrProgram :=
  | which_0 (shader : OGLShader)
  | which_1 (program : OGLProgram).

Record OGLShaderStage := {
  shader_or_program : ShaderOrProgram;
  hash : u64;
}.

(** [OGLShaderStage::OGLShaderStage(bool separable)] *)
Definition OGLShaderStage_new (separable : bool) : OGLShaderStage :=
  {| shader_or_program :=
       if separable then which_1 OGLProgram_new else which_0 OGLShader_new;
     hash := 0 |}.

(** [OGLShaderStage::GetHandle] *)
Definition GetHandle (s : OGLShaderStage) : GLuint :=
  match shader_or_program s with
  | which_0 shader => shader_handle shader
  | which_1 program => handle program
  end.

(** [OGLShaderStage::GetHash] *)
Definition GetHash (s : OGLShaderStage) : u64 := hash s.

(** [OGLShaderStage*]: null, never assigned, the address of one of the two
    members, or the address of the node of [shaders] with the given key. *)
Inductive StagePtr :=
  | nullptr
  | indeterminate
  | trivial_vertex
  | trivial_geometry
  | cached (key : u64).

#[global] Instance StagePtr_eq_dec : EqDecision StagePtr.
Proof. solve_decision. Defined.

Record CurrentShaders := {
  vs : StagePtr;
  gs : StagePtr;
  fs : StagePtr;
}.

(** ** [class ShaderProgramManager::Impl] *)

Record Impl := {
  separable : bool;
  is_amd : bool;
  current_shaders : CurrentShaders;
  binary_cache : Zmap ProgramCacheEntity;
  trivial_vertex_shader : OGLShaderStage;
  trivial_geometry_shader : OGLShaderStage;
  shaders_ref : Zmap StagePtr;
  shaders : Zmap OGLShaderStage;
  pipeline : OGLPipeline;
  program_cache : Zmap OGLProgram;
}.

Definition set_current_shaders (c : CurrentShaders) (m : Impl) : Impl :=
  {| separable := separable m; is_amd := is_amd m; current_shaders := c;
     binary_cache := binary_cache m;
     trivial_vertex_shader := trivial_vertex_shader m;
     trivial_geometry_shader := trivial_geometry_shader m;
     shaders_ref := shaders_ref m; shaders := shaders m;
     pipeline := pipeline m; program_cache := program_cache m |}.

Definition set_vs (p : StagePtr) (m : Impl) : Impl :=
  set_current_shaders
    {| vs := p; gs := gs (current_shaders m); fs := fs (current_shaders m) |} m.

Definition set_gs (p : StagePtr) (m : Impl) : Impl :=
  set_current_shaders
    {| vs := vs (current_shaders m); gs := p; fs := fs (current_shaders m) |} m.

Definition set_fs (p : StagePtr) (m : Impl) : Impl :=
  set_current_shaders
    {| vs := vs (current_shaders m); gs := gs (current_shaders m); fs := p |} m.

Definition set_shaders_ref (r : Zmap StagePtr) (m : Impl) : Impl :=
  {| separable := separable m; is_amd := is_amd m;
     current_shaders := current_shaders m; binary_cache := binary_cache m;
     trivial_vertex_shader := trivial_vertex_shader m;
     trivial_geometry_shader := trivial_geometry_shader m;
     shaders_ref := r; shaders := shaders m;
     pipeline := pipeline m; program_cache := program_cache m |}.

Definition set_shaders (s : Zmap OGLShaderStage) (m : Impl) : Impl :=
  {| separable := separable m; is_amd := is_amd m;
     current_shaders := current_shaders m; binary_cache := binary_cache m;
     trivial_vertex_shader := trivial_vertex_shader m;
     trivial_geometry_shader := trivial_geometry_shader m;
     shaders_ref := shaders_ref m; shaders := s;
     pipeline := pipeline m; program_cache := program_cache m |}.

Definition set_programs (p : Zmap OGLProgram)
    (b : Zmap ProgramCacheEntity) (m : Impl) : Impl :=
  {| separable := separable m; is_amd := is_amd m;
     current_shaders := current_shaders m; binary_cache := b;
     trivial_vertex_shader := trivial_vertex_shader m;
     trivial_geometry_shader := trivial_geometry_shader m;
     shaders_ref := shaders_ref m; shaders := shaders m;
     pipeline := pipeline m; program_cache := p |}.

Section Manager.
Context {PICA : Pica} {DRIVER : Driver}.

(** [OGLShaderStage::Create]; the destructor of the local [shader] of the
    second branch is not modelled. *)
Definition OGLShaderStage_Create (stage : OGLShaderStage) (shader_code : string)
    (type : GLenum) (hash : u64) : GLM OGLShaderStage :=
  match shader_or_program stage with
  | which_0 _ =>
      let* shader := OGLShader_Create shader_code type in
      ret {| shader_or_program := which_0 shader; hash := hash |}
  | which_1 _ =>
      let* shader := OGLShader_Create shader_code type in
      let* program := OGLProgram_Create true [shader_handle shader] in
      SetShaderUniformBlockBindings (handle program);;
      when (type =? GL_FRAGMENT_SHADER)
        (SetShaderSamplerBindings (handle program));;
      ret {| shader_or_program := which_1 program; hash := hash |}
  end.

(** [p->...]: the stage object a pointer refers to.  The run of the model
    ends at a read through a null, a never-assigned or a dangling
    pointer (see [Fault]). *)
Definition deref (m : Impl) (p : StagePtr) : GLM OGLShaderStage :=
  match p with
  | nullptr => halt NullDereference
  | indeterminate => halt WildDereference
  | trivial_vertex => ret (trivial_vertex_shader m)
  | trivial_geometry => ret (trivial_geometry_shader m)
  | cached key =>
      match shaders m !! key with
      | Some s => ret s
      | None => halt WildDereference
      end
  end.

(** [shaders.emplace(key, OGLShaderStage{separable})] followed by
    [if (new_shader) cached_shader.Create(code, type, key)]; the pointer
    to the node is [cached key] in both cases. *)
Definition emplace_and_create (key : u64) (code : GLM string) (type : GLenum)
    (m : Impl) : GLM Impl :=
  match shaders m !! key with
  | Some _ => ret m
  | None =>
      let* shader_code := code in
      let* cached_shader :=
        OGLShaderStage_Create (OGLShaderStage_new (separable m)) shader_code
          type key in
      ret (set_shaders (<[key := cached_shader]> (shaders m)) m)
  end.

(** [Impl::UseProgrammableVertexShader] *)
Definition UseProgrammableVertexShader (regs : Regs) (setup : ShaderSetup)
    (m : Impl) : GLM (bool * Impl) :=
  let key := PicaVSConfig_new regs setup in
  let key_hash := ComputeHash64_vs key in
  let* m :=
    match shaders_ref m !! key_hash with
    | None =>
        call (CallGenerateVertexShader key);;
        let vs_code := GenerateVertexShader setup key (separable m) in
        if String.eqb vs_code "" then
          ret (set_vs nullptr
                 (set_shaders_ref (<[key_hash := nullptr]> (shaders_ref m)) m))
        else
          let code_hash := ComputeHash64_code vs_code in
          let* m := emplace_and_create code_hash (ret vs_code)
                      GL_VERTEX_SHADER m in
          ret (set_vs (cached code_hash)
                 (set_shaders_ref
                    (<[key_hash := cached code_hash]> (shaders_ref m)) m))
    | Some p => ret (set_vs p m)
    end in
  ret (bool_decide (vs (current_shaders m) ≠ nullptr), m).

(** [Impl::UseFixedGeometryShader] *)
Definition UseFixedGeometryShader (regs : Regs) (m : Impl) : GLM Impl :=
  let key := PicaFixedGSConfig_new regs in
  let key_hash := ComputeHash64_gs key in
  let* m :=
    emplace_and_create key_hash
      (call (CallGenerateFixedGeometryShader key);;
       ret (GenerateFixedGeometryShader key (separable m)))
      GL_GEOMETRY_SHADER m in
  ret (set_gs (cached key_hash) m).

(** [Impl::UseFragmentShader] *)
Definition UseFragmentShader (regs : Regs) (m : Impl) : GLM Impl :=
  let key := PicaFSConfig_BuildFromRegs regs in
  let key_hash := ComputeHash64_fs key in
  match shaders_ref m !! key_hash with
  | None =>
      call (CallGenerateFragmentShader key);;
      let fs_code := GenerateFragmentShader key (separable m) in
      let code_hash := ComputeHash64_code fs_code in
      let* m := emplace_and_create code_hash (ret fs_code)
                  GL_FRAGMENT_SHADER m in
      ret (set_fs (cached code_hash)
             (set_shaders_ref
                (<[key_hash := cached code_hash]> (shaders_ref m)) m))
  | Some p => ret (set_fs p m)
  end.

(** [Impl::UseTrivialVertexShader] *)
Definition UseTrivialVertexShader (m : Impl) : Impl := set_vs trivial_vertex m.

(** [Impl::UseTrivialGeometryShader] *)
Definition UseTrivialGeometryShader (m : Impl) : Impl :=
  set_gs trivial_geometry m.

(** [Impl::CreateProgram]; [program] is the node of [program_cache]. *)
Definition CreateProgram (program : OGLProgram) (hash : u64)
    (vs gs fs : GLuint) (binary_cache : Zmap ProgramCacheEntity)
  : GLM (OGLProgram * Zmap ProgramCacheEntity) :=
  let* (program, binary_cache) :=
    match binary_cache !! hash with
    | Some e =>
        let* program := OGLProgram_Create_binary (format e) (binary e) in
        if handle program =? 0 then ret (program, ∅)
        else ret (program, binary_cache)
    | None => ret (program, binary_cache)
    end in
  if handle program =? 0 then
    let* program := OGLProgram_Create false [vs; gs; fs] in
    let* (fmt, bin) := OGLProgram_GetProgramBinary program in
    match bin with
    | [] => ret (program, binary_cache)
    | _ :: _ =>
        ret (program,
             emplace hash {| format := fmt; binary := bin |} binary_cache)
    end
  else ret (program, binary_cache).

(** [Impl::ApplyTo] *)
Definition ApplyTo (state : OpenGLState) (m : Impl)
  : GLM (OpenGLState * Impl) :=
  let* vs_stage := deref m (vs (current_shaders m)) in
  let vs := GetHandle vs_stage in
  let* gs_stage := deref m (gs (current_shaders m)) in
  let gs := GetHandle gs_stage in
  let* fs_stage := deref m (fs (current_shaders m)) in
  let fs := GetHandle fs_stage in
  if separable m then
    when (is_amd m)
      (call (CallUseProgramStages (pipeline_handle (pipeline m))
               (Z.lor (Z.lor GL_VERTEX_SHADER_BIT GL_GEOMETRY_SHADER_BIT)
                  GL_FRAGMENT_SHADER_BIT) 0));;
    call (CallUseProgramStages (pipeline_handle (pipeline m))
            GL_VERTEX_SHADER_BIT vs);;
    call (CallUseProgramStages (pipeline_handle (pipeline m))
            GL_GEOMETRY_SHADER_BIT gs);;
    call (CallUseProgramStages (pipeline_handle (pipeline m))
            GL_FRAGMENT_SHADER_BIT fs);;
    ret ({| draw := {| shader_program := 0;
                       program_pipeline := pipeline_handle (pipeline m) |} |},
         m)
  else
    let hash :=
      ComputeHash64_stages (GetHash vs_stage) (GetHash gs_stage)
        (GetHash fs_stage) in
    let cached_program := default OGLProgram_new (program_cache m !! hash) in
    let* (cached_program, binary_cache) :=
      if handle cached_program =? 0 then
        let* (cached_program, binary_cache) :=
          CreateProgram cached_program hash vs gs fs (binary_cache m) in
        SetShaderUniformBlockBindings (handle cached_program);;
        SetShaderSamplerBindings (handle cached_program);;
        ret (cached_program, binary_cache)
      else ret (cached_program, binary_cache m) in
    ret ({| draw := {| shader_program := handle cached_program;
                       program_pipeline := 0 |} |},
         set_programs (<[hash := cached_program]> (program_cache m))
           binary_cache m).

(** [Impl::Impl]; [use_shader_cache] is [Settings::values.use_shader_cache].
    The member [current_shaders] has no initialiser. *)
Definition Impl_new (separable is_amd use_shader_cache : bool)
    (u : Indeterminate) (d : Disk) : GLM (Impl * Disk) :=
  let trivial_vertex_shader := OGLShaderStage_new separable in
  let trivial_geometry_shader := OGLShaderStage_new separable in
  let* (pipeline, binary_cache, d) :=
    if separable then
      let* pipeline := OGLPipeline_Create in ret (pipeline, ∅, d)
    else if use_shader_cache then
      let '(binary_cache, d) := LoadProgramCache u ∅ d in
      ret (OGLPipeline_new, binary_cache, d)
    else ret (OGLPipeline_new, ∅, d) in
  call (CallGenerateTrivialVertexShader separable);;
  let* trivial_vertex_shader :=
    OGLShaderStage_Create trivial_vertex_shader
      (GenerateTrivialVertexShader separable) GL_VERTEX_SHADER 0 in
  ret ({| separable := separable; is_amd := is_amd;
          current_shaders :=
            {| vs := indeterminate; gs := indeterminate; fs := indeterminate |};
          binary_cache := binary_cache;
          trivial_vertex_shader := trivial_vertex_shader;
          trivial_geometry_shader := trivial_geometry_shader;
          shaders_ref := ∅; shaders := ∅;
          pipeline := pipeline; program_cache := ∅ |}, d).

(** [Impl::~Impl]; the release of the GL objects by the destructors of the
    members is not modelled. *)
Definition Impl_delete (use_shader_cache : bool)
    (order : Zmap ProgramCacheEntity → list (Z * ProgramCacheEntity))
    (m : Impl) (d : Disk) : Disk :=
  if negb (separable m) && use_shader_cache
  then SaveProgramCache order (binary_cache m) d
  else d.

(** ** Sequences of calls on the manager *)

(** The public operations of [ShaderProgramManager]. *)
Inductive Op :=
  | OpUseProgrammableVertexShader (regs : Regs) (setup : ShaderSetup)
  | OpUseTrivialVertexShader
  | OpUseFixedGeometryShader (regs : Regs)
  | OpUseTrivialGeometryShader
  | OpUseFragmentShader (regs : Regs)
  | OpApplyTo.

(** One operation; the caller's [OpenGLState] is threaded along. *)
Definition step (op : Op) (w : OpenGLState * Impl) : GLM (OpenGLState * Impl) :=
  let '(state, m) := w in
  match op with
  | OpUseProgrammableVertexShader regs setup =>
      let* r := UseProgrammableVertexShader regs setup m in ret (state, r.2)
  | OpUseTrivialVertexShader => ret (state, UseTrivialVertexShader m)
  | OpUseFixedGeometryShader regs =>
      let* m := UseFixedGeometryShader regs m in ret (state, m)
  | OpUseTrivialGeometryShader => ret (state, UseTrivialGeometryShader m)
  | OpUseFragmentShader regs =>
      let* m := UseFragmentShader regs m in ret (state, m)
  | OpApplyTo => ApplyTo state m
  end.

Fixpoint run (ops : list Op) (w : OpenGLState * Impl)
  : GLM (OpenGLState * Impl) :=
  match ops with
  | [] => ret w
  | op :: ops => let* w := step op w in run ops w
  end.

(** The calls that compile a shader stage. *)
Definition is_compile (c : PicaCall) : bool :=
  match c with CallShaderCreate _ _ _ => true | _ => false end.

(** The calls of a shader generator. *)
Definition is_generate (c : PicaCall) : bool :=
  match c with
  | CallGenerateTrivialVertexShader _ | CallGenerateVertexShader _
  | CallGenerateFixedGeometryShader _ | CallGenerateFragmentShader _ => true
  | _ => false
  end.

(** The calls that create a program object from stage handles or from a
    stored binary. *)
Definition is_program_create (c : PicaCall) : bool :=
  match c with
  | CallProgramCreate _ _ _ | CallProgramCreateBinary _ _ _ => true
  | _ => false
  end.

(** ** Keys resolved through [shaders_ref] *)

(** A configuration of one of the two stages whose resolution is recorded
    in [shaders_ref]. *)
Inductive IndexedKey :=
  | VertexKey (regs : Regs) (setup : ShaderSetup)
  | FragmentKey (regs : Regs).

Definition key_hash (k : IndexedKey) : u64 :=
  match k with
  | VertexKey regs setup => ComputeHash64_vs (PicaVSConfig_new regs setup)
  | FragmentKey regs => ComputeHash64_fs (PicaFSConfig_BuildFromRegs regs)
  end.

(** The text the generator yields for the key. *)
Definition generated_source (separable : bool) (k : IndexedKey) : string :=
  match k with
  | VertexKey regs setup =>
      GenerateVertexShader setup (PicaVSConfig_new regs setup) separable
  | FragmentKey regs =>
      GenerateFragmentShader (PicaFSConfig_BuildFromRegs regs) separable
  end.

Definition is_vertex (k : IndexedKey) : bool :=
  match k with VertexKey _ _ => true | FragmentKey _ => false end.

(** Resolving the key: the stage-selection operation of its stage. *)
Definition resolve (k : IndexedKey) (m : Impl) : GLM Impl :=
  match k with
  | VertexKey regs setup =>
      let* r := UseProgrammableVertexShader regs setup m in ret r.2
  | FragmentKey regs => UseFragmentShader regs m
  end.

(** The stage pointer the operation selected. *)
Definition resolution (k : IndexedKey) (m : Impl) : StagePtr :=
  match k with
  | VertexKey _ _ => vs (current_shaders m)
  | FragmentKey _ => fs (current_shaders m)
  end.

(** The number of compile calls among the given calls. *)
Definition compiles (cs : list PicaCall) : nat :=
  List.length (List.filter is_compile cs).

(** The number of compile calls of the given text among the given
    calls. *)
Definition compiles_of (text : string) (cs : list PicaCall) : nat :=
  List.length
    (List.filter
       (λ c, match c with
             | CallShaderCreate code _ _ => String.eqb code text
             | _ => false
             end) cs).

(** The deduplication claim as the specification words it, for the
    resolution of [k1] followed by that of [k2] in a manager [m] that has
    made the calls [t] since the start of its construction: two distinct
    keys with the same generated text end on one stage object of
    [shaders], the one under the content hash of the text, and the text
    has been compiled exactly once. *)
Definition dedup_as_specified (k1 k2 : IndexedKey) (m : Impl)
    (t : list PicaCall) : Prop :=
  let text := generated_source (separable m) k1 in
  let code_hash := ComputeHash64_code text in
  k1 ≠ k2 →
  generated_source (separable m) k2 = text →
  ∀ m1 t1 m2 t2,
    resolve k1 m t = Ok m1 t1 →
    resolve k2 m1 t1 = Ok m2 t2 →
    resolution k1 m1 = cached code_hash
    ∧ resolution k2 m2 = cached code_hash
    ∧ is_Some (shaders m2 !! code_hash)
    ∧ compiles_of text t2 = 1%nat.

(** ** The binding calls

    The calls [SetShaderUniformBlockBindings] followed by
    [SetShaderSamplerBindings] make on a program when no assertion
    fails, written out as a list: one [glUniformBlockBinding] per uniform
    block the program has (lines 27 to 29), then the program is bound
    (line 48), one [glUniform1i] per sampler and image uniform the
    program has, in the order of lines 51 to 67, and the program bound
    before is bound again (line 69).  [t] are the calls made before. *)
Definition block_call (shader : GLuint) (name : string) (binding : GLuint)
    (t : list PicaCall) : list PicaCall :=
  let ub_index := glGetUniformBlockIndex t shader name in
  if ub_index =? GL_INVALID_INDEX then []
  else [CallUniformBlockBinding shader ub_index binding].

Definition block_binding_calls (shader : GLuint) (t : list PicaCall)
  : list PicaCall :=
  let common := block_call shader "shader_data" UniformBindings_Common t in
  common ++ block_call shader "vs_config" UniformBindings_VS (t ++ common).

Definition uniform_call (shader : GLuint) (name : string) (binding : GLint)
    (t : list PicaCall) : list PicaCall :=
  let uniform_tex := glGetUniformLocation t shader name in
  if uniform_tex =? -1 then [] else [CallUniform1i uniform_tex binding].

Fixpoint uniform_calls (units : list (string * GLint)) (shader : GLuint)
    (t : list PicaCall) : list PicaCall :=
  match units with
  | [] => []
  | (name, binding) :: units =>
      let c := uniform_call shader name binding t in
      c ++ uniform_calls units shader (t ++ c)
  end.

(** The uniform names of lines 51 to 67 with their units. *)
Definition sampler_units : list (string * GLint) :=
  [("tex0", TextureUnits_PicaTexture 0);
   ("tex1", TextureUnits_PicaTexture 1);
   ("tex2", TextureUnits_PicaTexture 2);
   ("tex_cube", TextureUnits_TextureCube);
   ("texture_buffer_lut_lf", TextureUnits_TextureBufferLUT_LF);
   ("texture_buffer_lut_rg", TextureUnits_TextureBufferLUT_RG);
   ("texture_buffer_lut_rgba", TextureUnits_TextureBufferLUT_RGBA);
   ("shadow_buffer", cast_s32 ImageUnits_ShadowBuffer);
   ("shadow_texture_px", cast_s32 ImageUnits_ShadowTexturePX);
   ("shadow_texture_nx", cast_s32 ImageUnits_ShadowTextureNX);
   ("shadow_texture_py", cast_s32 ImageUnits_ShadowTexturePY);
   ("shadow_texture_ny", cast_s32 ImageUnits_ShadowTextureNY);
   ("shadow_texture_pz", cast_s32 ImageUnits_ShadowTexturePZ);
   ("shadow_texture_nz", cast_s32 ImageUnits_ShadowTextureNZ)]%string.

Definition sampler_binding_calls (shader : GLuint) (t : list PicaCall)
  : list PicaCall :=
  let old_program := CurrentShaderProgram t in
  let bound := t ++ [CallBindShaderProgram shader old_program] in
  let uniforms := uniform_calls sampler_units shader bound in
  [CallBindShaderProgram shader old_program] ++ uniforms
  ++ [CallBindShaderProgram old_program
        (CurrentShaderProgram (bound ++ uniforms))].

Definition binding_calls (shader : GLuint) (t : list PicaCall)
  : list PicaCall :=
  let blocks := block_binding_calls shader t in
  blocks ++ sampler_binding_calls shader (t ++ blocks).

(** The at-most-once invariant as the specification words it: once
    [ApplyTo] has returned, an [ApplyTo] for the same active stages
    creates no program. *)
Definition created_at_most_once (state : OpenGLState) (m : Impl)
    (t : list PicaCall) : Prop :=
  ∀ r t' r2 t2,
    ApplyTo state m t = Ok r t' →
    ApplyTo r.1 r.2 t' = Ok r2 t2 →
    ∃ cs, t2 = t' ++ cs ∧ Forall (λ c, is_program_create c = false) cs.

(** The null-stage claim as the specification words it: [ApplyTo] with a
    null active stage stops on a failed assertion. *)
Definition null_stage_asserts (state : OpenGLState) (m : Impl)
    (t : list PicaCall) : Prop :=
  vs (current_shaders m) = nullptr ∨ gs (current_shaders m) = nullptr
  ∨ fs (current_shaders m) = nullptr →
  ∃ msg, ApplyTo state m t = Halt (AssertionFailure msg).

(** ** Predicates used in the proofs *)

(** [emits P c]: when [c] returns, it has only added calls that satisfy
    [P] to the calls made before. *)
Definition emits {A} (P : PicaCall → Prop) (c : GLM A) : Prop :=
  ∀ t a t', c t = Ok a t' → ∃ cs, t' = t ++ cs ∧ Forall P cs.

(** The calls that only set bindings of an existing program object. *)
Definition is_binding (c : PicaCall) : Prop :=
  match c with
  | CallUniformBlockBinding _ _ _ | CallUniform1i _ _
  | CallBindShaderProgram _ _ => True
  | _ => False
  end.

(** [returns c]: [c] never stops the process. *)
Definition returns {A} (c : GLM A) : Prop := ∀ t, ∃ a t', c t = Ok a t'.

(** A call that is neither a generator call nor a compile call. *)
Definition quiet (c : PicaCall) : Prop :=
  is_compile c = false ∧ is_generate c = false.

(** [frame m m']: [m'] may follow [m] in the life of one manager: the mode
    and the singletons are the same, recorded resolutions and cached stage
    objects are still there, linked programs with a handle are still
    there, and in separable mode the program tables are untouched. *)
Definition frame (m m' : Impl) : Prop :=
  separable m' = separable m
  ∧ is_amd m' = is_amd m
  ∧ pipeline m' = pipeline m
  ∧ trivial_vertex_shader m' = trivial_vertex_shader m
  ∧ trivial_geometry_shader m' = trivial_geometry_shader m
  ∧ shaders_ref m ⊆ shaders_ref m'
  ∧ shaders m ⊆ shaders m'
  ∧ (separable m = true →
     program_cache m' = program_cache m ∧ binary_cache m' = binary_cache m)
  ∧ (∀ h pr, program_cache m !! h = Some pr → handle pr ≠ 0 →
             program_cache m' !! h = Some pr).

(** ** Further predicates used in the proofs *)

(** [stops_with P c]: when [c] stops the process, the fault satisfies [P]. *)
Definition stops_with {A} (P : Fault → Prop) (c : GLM A) : Prop :=
  ∀ t f, c t = Halt f → P f.

Definition is_assertion (f : Fault) : Prop :=
  match f with AssertionFailure _ => True | _ => False end.

Definition is_uniform (c : PicaCall) : Prop :=
  match c with CallUniform1i _ _ => True | _ => False end.

(** [sets_uniforms n c]: [c] always returns and adds at most [n] calls,
    all of them [glUniform1i]. *)
Definition sets_uniforms (n : nat) (c : GLM unit) : Prop :=
  ∀ t, ∃ l, c t = Ok tt (t ++ l) ∧ Forall is_uniform l
            ∧ (List.length l ≤ n)%nat.

(** The generator calls of the two stages resolved through
    [shaders_ref], and their number. *)
Definition is_index_generate (c : PicaCall) : bool :=
  match c with
  | CallGenerateVertexShader _ | CallGenerateFragmentShader _ => true
  | _ => false
  end.

Definition index_generations (cs : list PicaCall) : nat :=
  List.length (List.filter is_index_generate cs).

(** A pointer into [shaders] is live when its node exists. *)
Definition live (m : Impl) (p : StagePtr) : Prop :=
  match p with
  | cached key => is_Some (shaders m !! key)
  | _ => True
  end.

(** The alternative of the variant a stage object of the mode holds. *)
Definition matches_mode (separable : bool) (o : OGLShaderStage) : Prop :=
  match shader_or_program o with
  | which_0 _ => separable = false
  | which_1 _ => separable = true
  end.

(** What construction establishes and every operation keeps: a cached
    stage object carries the key it is stored under as its hash and is of
    the mode's kind; a recorded resolution is null or a live pointer into
    [shaders]; the active pointers into [shaders] are live. *)
Definition well_formed (m : Impl) : Prop :=
  (∀ key o, shaders m !! key = Some o →
            hash o = key ∧ matches_mode (separable m) o)
  ∧ (∀ key_hash p, shaders_ref m !! key_hash = Some p →
       (p = nullptr ∨ ∃ key, p = cached key) ∧ live m p)
  ∧ live m (vs (current_shaders m))
  ∧ live m (gs (current_shaders m))
  ∧ live m (fs (current_shaders m))
  ∧ hash (trivial_vertex_shader m) = 0
  ∧ matches_mode (separable m) (trivial_vertex_shader m).

(** [binaries_from loaded m]: every entry of the table of binaries is one
    of the [loaded] entries, or a non-empty binary stored under the key of
    an entry of the linked-program cache. *)
Definition binaries_from (loaded : Zmap ProgramCacheEntity) (m : Impl) : Prop :=
  ∀ key e, binary_cache m !! key = Some e →
           loaded !! key = Some e
           ∨ (binary e ≠ [] ∧ is_Some (program_cache m !! key)).

(** [accounted m t m' t']: between the two states the calls only grew,
    by as many compile calls as [shaders] gained stage objects and by as
    many vertex and fragment generator calls as [shaders_ref] gained
    resolutions. *)
Definition accounted (m : Impl) (t : list PicaCall) (m' : Impl)
    (t' : list PicaCall) : Prop :=
  ∃ cs, t' = t ++ cs
        ∧ size (shaders m') = (compiles cs + size (shaders m))%nat
        ∧ size (shaders_ref m')
          = (index_generations cs + size (shaders_ref m))%nat.

(** The three members of [current_shaders], and the stage an operation
    selects. *)
Inductive Stage := Vertex | Geometry | Fragment.

#[global] Instance Stage_eq_dec : EqDecision Stage.
Proof. solve_decision. Defined.

Definition selects (op : Op) : option Stage :=
  match op with
  | OpUseProgrammableVertexShader _ _ | OpUseTrivialVertexShader => Some Vertex
  | OpUseFixedGeometryShader _ | OpUseTrivialGeometryShader => Some Geometry
  | OpUseFragmentShader _ => Some Fragment
  | OpApplyTo => None
  end.

Definition active (k : Stage) (m : Impl) : StagePtr :=
  match k with
  | Vertex => vs (current_shaders m)
  | Geometry => gs (current_shaders m)
  | Fragment => fs (current_shaders m)
  end.

End Manager.

(** ** A small concrete platform

    Used to run the model: keys are numbers, the hash of a key is the key
    (shifted per stage), the hash of a text is derived from its length, the
    vertex generator yields no source for keys below 10, and the driver
    hands out fresh non-zero handles and rejects every stored binary whose
    format tag is not 1. *)

#[local] Instance demo_pica : Pica := {|
  Regs := Z; ShaderSetup := Z;
  PicaVSConfig := Z; PicaFixedGSConfig := Z; PicaFSConfig := Z;
  PicaVSConfig_new := λ regs setup, regs + setup;
  PicaFixedGSConfig_new := λ regs, regs;
  PicaFSConfig_BuildFromRegs := λ regs, regs;
  ComputeHash64_vs := λ k, k;
  ComputeHash64_gs := λ k, 100 + k;
  ComputeHash64_fs := λ k, 200 + k;
  ComputeHash64_code := λ s, 1000 + Z.of_nat (String.length s);
  ComputeHash64_stages := λ a b c, 5000 + a + 2 * b + 3 * c;
  GenerateTrivialVertexShader := λ _, "tv"%string;
  GenerateVertexShader := λ _ k _,
    if k <? 10 then ""%string else if k <? 20 then "vs"%string else "vs20"%string;
  GenerateFixedGeometryShader := λ _ _, "gs"%string;
  GenerateFragmentShader := λ k _,
    if k <? 10 then "fs0"%string else "fs10"%string;
|}.

#[local] Instance demo_driver : Driver := {|
  LoadShader := λ t _ _, Z.of_nat (List.length t) + 1;
  LoadProgram := λ t _ _, Z.of_nat (List.length t) + 1;
  LoadProgramBinary := λ t fmt _,
    if fmt =? 1 then Z.of_nat (List.length t) + 1 else 0;
  QueryProgramBinary := λ _ _, (1, [Byte.x0a]);
  GenProgramPipeline := λ _, 77;
  CurrentShaderProgram := λ _, 0;
  glGetUniformBlockIndex := λ _ _ name,
    if String.eqb name "shader_data" then 0 else GL_INVALID_INDEX;
  glGetActiveUniformBlockiv_DATA_SIZE := λ _ _ _, 16;
  glGetUniformLocation := λ _ _ name,
    if String.eqb name "tex0" then 3 else -1;
  UniformBindings_Common := 0;
  UniformBindings_VS := 1;
  sizeof_UniformData := 16;
  sizeof_VSUniformData := 32;
  TextureUnits_PicaTexture := λ i, i;
  TextureUnits_TextureCube := 6;
  TextureUnits_TextureBufferLUT_LF := 3;
  TextureUnits_TextureBufferLUT_RG := 4;
  TextureUnits_TextureBufferLUT_RGBA := 5;
  ImageUnits_ShadowBuffer := 0;
  ImageUnits_ShadowTexturePX := 1;
  ImageUnits_ShadowTextureNX := 2;
  ImageUnits_ShadowTexturePY := 3;
  ImageUnits_ShadowTextureNY := 4;
  ImageUnits_ShadowTexturePZ := 5;
  ImageUnits_ShadowTextureNZ := 6;
|}.

Definition demo_state : OpenGLState :=
  {| draw := {| shader_program := 0; program_pipeline := 0 |} |}.

(** The manager right after construction on the demo platform, with the
    calls made by the constructor. *)
Definition demo_boot (separable : bool) : Impl * list PicaCall :=
  match Impl_new separable false false demo_garbage demo_disk [] with
  | Ok (m, _) t => (m, t)
  | Halt _ =>
      ({| separable := separable; is_amd := false;
          current_shaders :=
            {| vs := indeterminate; gs := indeterminate; fs := indeterminate |};
          binary_cache := ∅;
          trivial_vertex_shader := OGLShaderStage_new separable;
          trivial_geometry_shader := OGLShaderStage_new separable;
          shaders_ref := ∅; shaders := ∅; pipeline := OGLPipeline_new;
          program_cache := ∅ |}, [])
  end.

(** The demo manager, the caller's state and the calls made after the
    given operations. *)
Definition demo_run (separable : bool) (ops : list Op)
  : (OpenGLState * Impl) * list PicaCall :=
  match run ops (demo_state, (demo_boot separable).1) (demo_boot separable).2 with
  | Ok w t => (w, t)
  | Halt _ => ((demo_state, (demo_boot separable).1), (demo_boot separable).2)
  end.

Definition demo_after (separable : bool) (ops : list Op) : Impl * list PicaCall :=
  ((demo_run separable ops).1.2, (demo_run separable ops).2).

(** Sequences of operations and keys used to run the claims. *)
Definition demo_ops : list Op :=
  [OpUseProgrammableVertexShader 20 0; OpUseFixedGeometryShader 6;
   OpUseFragmentShader 11; OpApplyTo; OpUseTrivialGeometryShader].

Definition demo_selected : list Op :=
  [OpUseProgrammableVertexShader 10 0; OpUseFragmentShader 1;
   OpUseTrivialGeometryShader].

Definition demo_reselect : list Op :=
  [OpUseFragmentShader 11; OpUseFragmentShader 1].

Definition demo_separable_ops : list Op :=
  [OpUseProgrammableVertexShader 10 0; OpUseFixedGeometryShader 6;
   OpUseFragmentShader 11; OpApplyTo; OpUseTrivialGeometryShader; OpApplyTo].

(** Two of the three stages selected. *)
Definition demo_two_stages : list Op :=
  [OpUseTrivialVertexShader; OpUseFragmentShader 11].

(** The demo driver, except that it creates no program object when asked
    to link (handle 0) and has no binary to give. *)
Definition linkless_driver : Driver := {|
  LoadShader := LoadShader (Driver:=demo_driver);
  LoadProgram := λ _ _ _, 0;
  LoadProgramBinary := LoadProgramBinary (Driver:=demo_driver);
  QueryProgramBinary := λ _ _, (0, []);
  GenProgramPipeline := GenProgramPipeline (Driver:=demo_driver);
  CurrentShaderProgram := CurrentShaderProgram (Driver:=demo_driver);
  glGetUniformBlockIndex := glGetUniformBlockIndex (Driver:=demo_driver);
  glGetActiveUniformBlockiv_DATA_SIZE :=
    glGetActiveUniformBlockiv_DATA_SIZE (Driver:=demo_driver);
  glGetUniformLocation := glGetUniformLocation (Driver:=demo_driver);
  UniformBindings_Common := 0;
  UniformBindings_VS := 1;
  sizeof_UniformData := 16;
  sizeof_VSUniformData := 32;
  TextureUnits_PicaTexture := λ i, i;
  TextureUnits_TextureCube := 6;
  TextureUnits_TextureBufferLUT_LF := 3;
  TextureUnits_TextureBufferLUT_RG := 4;
  TextureUnits_TextureBufferLUT_RGBA := 5;
  ImageUnits_ShadowBuffer := 0;
  ImageUnits_ShadowTexturePX := 1;
  ImageUnits_ShadowTextureNX := 2;
  ImageUnits_ShadowTexturePY := 3;
  ImageUnits_ShadowTextureNY := 4;
  ImageUnits_ShadowTexturePZ := 5;
  ImageUnits_ShadowTextureNZ := 6;
|}.

(** [ApplyTo] on the linkless driver, with what it leaves; the input
    when it does not return. *)
Definition linkless_apply (w : (OpenGLState * Impl) * list PicaCall)
  : (OpenGLState * Impl) * list PicaCall :=
  match ApplyTo (DRIVER:=linkless_driver) w.1.1 w.1.2 w.2 with
  | Ok r t => (r, t)
  | Halt _ => w
  end.

(** A fragment key whose hash is the hash of vertex key 201, and a
    geometry key whose hash is the content hash of the text of vertex
    keys 10 and 11. *)
Definition demo_fragment_first : list Op := [OpUseFragmentShader 1].
Definition demo_geometry_first : list Op := [OpUseFixedGeometryShader 902].

(** The demo manager constructed again, with the shader cache enabled, on
    the disk its destructor leaves after [demo_selected] and one
    [ApplyTo]. *)
Definition demo_left_disk : Disk :=
  Impl_delete true map_to_list
    (demo_run false (demo_selected ++ [OpApplyTo])).1.2 demo_disk.

Definition demo_restart : (Impl * Disk) * list PicaCall :=
  match Impl_new false false true demo_garbage demo_left_disk [] with
  | Ok r t => (r, t)
  | Halt _ => (((demo_boot false).1, demo_left_disk), [])
  end.

(** A device with room for [room] bytes and no cache file. *)
Definition small_disk (room : nat) : Disk :=
  {| cache_file := None; free_space := room; writable := true |}.

Local Abbreviation VKey := (VertexKey (PICA:=demo_pica)).


(** * Properties of the store file *)

Section Persistence.

Implicit Types (f : IOFile) (d : Disk) (bs rest : list byte).

Lemma ReadBytes_exact bs rest room g dst :
  List.length dst = List.length bs →
  ReadBytes {| m_file := bs ++ rest; m_room := room; m_good := g |} dst
    (List.length bs)
  = ({| m_file := rest; m_room := room; m_good := g |}, bs).
Proof.
  intros Hlen. unfold ReadBytes; cbn [m_file m_room m_good].
  rewrite take_app_length, drop_app_length, Nat.eqb_refl, andb_true_r.
  rewrite <- Hlen, drop_all, app_nil_r. reflexivity.
Qed.

Lemma ReadInt_exact n v rest room g old :
  0 <= v < 2 ^ (Z.of_nat n * 8) →
  ReadInt n {| m_file := le_split n v ++ rest; m_room := room; m_good := g |} old
  = ({| m_file := rest; m_room := room; m_good := g |}, v).
Proof.
  intros Hv. unfold ReadInt.
  pose proof (ReadBytes_exact (le_split n v) rest room g (le_split n old)) as H.
  rewrite !length_le_split in H. rewrite H by reflexivity.
  rewrite le_combine_split, Z.mod_small by exact Hv. reflexivity.
Qed.

Lemma WriteBytes_fits f src :
  (List.length src <= m_room f)%nat →
  WriteBytes f src (List.length src)
  = {| m_file := m_file f ++ src; m_room := m_room f - List.length src;
       m_good := m_good f |}.
Proof.
  intros Hroom. unfold WriteBytes.
  rewrite firstn_all, take_ge by lia.
  rewrite Nat.eqb_refl, andb_true_r. reflexivity.
Qed.

Lemma WriteInt_fits n f v :
  (n <= m_room f)%nat →
  WriteInt n f v
  = {| m_file := m_file f ++ le_split n v; m_room := m_room f - n;
       m_good := m_good f |}.
Proof.
  intros Hroom. unfold WriteInt.
  pose proof (WriteBytes_fits f (le_split n v)) as H.
  rewrite length_le_split in H. apply H, Hroom.
Qed.

Lemma cast_u32_small x : 0 <= x < 2 ^ 32 → cast_u32 x = x.
Proof. intros H. unfold cast_u32. apply Z.mod_small, H. Qed.

Lemma cast_s32_small x : 0 <= x < 2 ^ 31 → cast_s32 x = x.
Proof.
  intros H. unfold cast_s32. rewrite Z.mod_small by lia.
  destruct (Z.ltb_spec x (2 ^ 31)); lia.
Qed.

Lemma length_entry_bytes p :
  List.length (entry_bytes p) = (16 + List.length (binary p.2))%nat.
Proof.
  unfold entry_bytes. rewrite !length_app, !length_le_split. lia.
Qed.

(** Writing the entries one after the other, when the device has room. *)
Lemma SaveProgramCache_loop_fits entries : ∀ f,
  Forall (λ p, entity_fits p.1 p.2) entries →
  (List.length (concat (map entry_bytes entries)) <= m_room f)%nat →
  m_good f = true →
  ∃ f', SaveProgramCache_loop entries f = Some f'
        ∧ m_file f' = m_file f ++ concat (map entry_bytes entries)
        ∧ m_good f' = true.
Proof.
  induction entries as [|[k e] entries IH]; intros f Hfit Hroom Hgood.
  - exists f. cbn. rewrite app_nil_r. auto.
  - apply Forall_cons in Hfit as [(Hk & Hf & Hl) Hfit]. cbn [fst snd] in *.
    cbn [map concat] in Hroom. rewrite length_app, length_entry_bytes in Hroom.
    cbn [fst snd] in Hroom.
    cbn [SaveProgramCache_loop].
    rewrite cast_u32_small by lia. rewrite Nat2Z.id.
    rewrite (WriteInt_fits 8) by lia.
    rewrite (WriteInt_fits 4 _ (format e)) by (cbn [m_room]; lia).
    rewrite (WriteInt_fits 4) by (cbn [m_room]; lia).
    rewrite WriteBytes_fits by (cbn [m_room]; lia).
    cbn [m_good m_file m_room]. rewrite Hgood. cbn [negb].
    edestruct IH as (f' & Hsave & Hfile & Hg); [exact Hfit | | | ].
    3: { exists f'. split; [exact Hsave|]. split; [|exact Hg].
         rewrite Hfile. cbn [m_file map concat]. unfold entry_bytes at 2.
         cbn [fst snd]. rewrite <- !app_assoc. reflexivity. }
    + cbn [m_room]. lia.
    + reflexivity.
Qed.

(** Reading back what [SaveProgramCache_loop] wrote: every entry is
    emplaced, the file stays good and is not deleted. *)
Lemma LoadProgramCache_loop_exact entries : ∀ rest room hash fmt len bin bc d,
  Forall (λ p, entity_fits p.1 p.2) entries →
  LoadProgramCache_loop (List.length entries)
    {| m_file := concat (map entry_bytes entries) ++ rest; m_room := room;
       m_good := true |} hash fmt len bin bc d
  = (foldl (λ m p, emplace p.1 p.2 m) bc entries, d).
Proof.
  induction entries as [|[k e] entries IH]; intros rest room hash fmt len bin bc d Hfit.
  - reflexivity.
  - apply Forall_cons in Hfit as [(Hk & Hf & Hl) Hfit]. cbn [fst snd] in *.
    cbn [List.length LoadProgramCache_loop map concat foldl fst snd].
    unfold entry_bytes at 1. cbn [fst snd]. rewrite <- !app_assoc.
    rewrite (ReadInt_exact 8) by (change (Z.of_nat 8 * 8) with 64; lia).
    rewrite (ReadInt_exact 4) by (change (Z.of_nat 4 * 8) with 32; lia).
    rewrite (ReadInt_exact 4) by (change (Z.of_nat 4 * 8) with 32; lia).
    rewrite Nat2Z.id.
    rewrite ReadBytes_exact by apply length_resize.
    cbn [m_good negb]. destruct e as [fm bi]. cbn [format binary].
    apply IH, Hfit.
Qed.

Lemma foldl_emplace_union {V} (l : list (Z * V)) : ∀ (m : Zmap V),
  foldl (λ m p, emplace p.1 p.2 m) m l = m ∪ list_to_map l.
Proof.
  induction l as [|[k v] l IH]; intros m; cbn [foldl list_to_map fst snd].
  - symmetry. apply (right_id_L ∅ (∪)).
  - rewrite IH, list_to_map_cons. apply map_eq; intros i. unfold emplace.
    destruct (m !! k) eqn:Hk.
    + destruct (decide (k = i)) as [->|Hne].
      * by rewrite !(lookup_union_Some_l _ _ _ _ Hk).
      * by rewrite !lookup_union, lookup_insert_ne.
    + destruct (decide (k = i)) as [->|Hne].
      * rewrite (lookup_union_r m) by exact Hk.
        rewrite (lookup_union_Some_l _ _ _ v) by apply lookup_insert_eq.
        by rewrite lookup_insert_eq.
      * by rewrite !lookup_union, !lookup_insert_ne.
Qed.

End Persistence.

(** C7.  Saving a table and loading the written file gives the table
    back.  The written file is the version tag 2, the entry count, and per
    entry the 64-bit key, the 32-bit format tag, the 32-bit byte length and
    the raw bytes, in the order [order] in which the table is iterated.
    The table holds values of the source's types (64-bit keys, 32-bit
    format tags, binaries shorter than 2^32 bytes, fewer than 2^31
    entries), the file can be opened for writing and the device has room
    for it; the loader starts from an empty table, as the constructor
    does, whatever its uninitialised locals hold. *)
Theorem persistence_round_trip order table d u :
  order table ≡ₚ map_to_list table →
  map_Forall entity_fits table →
  Z.of_nat (size table) < 2 ^ 31 →
  writable d = true →
  (List.length (store_bytes (order table)) <= free_space d)%nat →
  let d' := SaveProgramCache order table d in
  cache_file d' = Some (store_bytes (order table))
  ∧ LoadProgramCache u ∅ d' = (table, d').
Proof.
  intros Hperm Hfit Hsize Hw Hroom d'.
  assert (Hlen : size table = List.length (order table)).
  { rewrite <- length_map_to_list. symmetry. apply Permutation_length, Hperm. }
  assert (Hfits : Forall (λ p, entity_fits p.1 p.2) (order table)).
  { rewrite Hperm. apply Forall_forall. intros [k e] Hin.
    apply elem_of_map_to_list in Hin. exact (Hfit k e Hin). }
  unfold store_bytes in Hroom. rewrite !length_app, !length_le_split in Hroom.
  assert (Hd' : d' = store d (store_bytes (order table))).
  { subst d'. unfold SaveProgramCache. rewrite Hw. cbn [negb].
    rewrite cast_s32_small by lia.
    rewrite (WriteInt_fits 4 _ PROGRAM_CACHE_VERSION) by (cbn [m_room]; lia).
    rewrite (WriteInt_fits 4) by (cbn [m_room]; lia).
    edestruct (SaveProgramCache_loop_fits (order table)) as (f' & -> & Hfile & _);
      [exact Hfits | | reflexivity | ].
    - cbn [m_room]. lia.
    - rewrite Hfile. cbn [m_file]. unfold store_bytes.
      rewrite Hlen, <- app_assoc. reflexivity. }
  rewrite Hd'. split; [reflexivity|].
  unfold LoadProgramCache, store at 1. cbn [cache_file]. unfold store_bytes.
  rewrite (ReadInt_exact 4) by (vm_compute; split; congruence).
  change (negb (PROGRAM_CACHE_VERSION =? PROGRAM_CACHE_VERSION)) with false.
  cbn match.
  rewrite (ReadInt_exact 4) by (change (Z.of_nat 4 * 8) with 32; lia).
  rewrite cast_s32_small, Nat2Z.id by lia.
  rewrite <- (app_nil_r (concat _)).
  rewrite LoadProgramCache_loop_exact by exact Hfits.
  rewrite foldl_emplace_union, (left_id_L ∅ (∪)).
  f_equal. symmetry. apply list_to_map_flip. symmetry. exact Hperm.
Qed.

(** C6, the code at inputs where it departs from the claim.  A version
    tag other than 2 deletes the file and leaves the table as it was.  A
    file that ends after its first entry although it announces two is
    deleted, yet the entry read before the failure stays in the table.  A
    file that ends inside the entry count is deleted after one entry made
    of whatever the uninitialised locals held has been inserted.  A file
    that ends right after the version tag is not deleted at all. *)
Theorem load_of_damaged_store u :
  LoadProgramCache u ∅ (disk_with old_version_store)
  = (∅, Delete (disk_with old_version_store))
  ∧ LoadProgramCache u ∅ (disk_with truncated_store)
    = ({[7 := {| format := 1; binary := [Byte.x0a; Byte.x0b] |}]},
       Delete (disk_with truncated_store))
  ∧ LoadProgramCache demo_garbage ∅ (disk_with cut_count_store)
    = ({[12345 := {| format := 77;
                     binary := [Byte.x00; Byte.x00; Byte.x00] |}]},
       Delete (disk_with cut_count_store))
  ∧ LoadProgramCache u ∅ (disk_with version_only_store)
    = (∅, disk_with version_only_store).
Proof.
  split_and!.
  - reflexivity.
  - destruct u as [h0 f0 l0]. vm_compute. reflexivity.
  - vm_compute. reflexivity.
  - reflexivity.
Qed.

Lemma persistence_round_trip_witness :
  let d' := SaveProgramCache map_to_list demo_table demo_disk in
  cache_file d' = Some (store_bytes (map_to_list demo_table))
  ∧ LoadProgramCache demo_garbage ∅ d' = (demo_table, d').
Proof.
  apply (persistence_round_trip map_to_list demo_table demo_disk demo_garbage).
  - reflexivity.
  - refine (bool_decide_unpack _ _). vm_compute. reflexivity.
  - vm_compute. reflexivity.
  - reflexivity.
  - vm_compute. lia.
Defined.

(** * Properties of the manager *)

Section ManagerFacts.
Context {PICA : Pica} {DRIVER : Driver}.

Implicit Types (m : Impl) (t : list PicaCall) (p : StagePtr).

(** ** Inversion of computations *)

Lemma bind_Ok {A B} (c : GLM A) (k : A → GLM B) t b t' :
  bind c k t = Ok b t' ↔ ∃ a t1, c t = Ok a t1 ∧ k a t1 = Ok b t'.
Proof.
  unfold bind. split.
  - destruct (c t) as [a t1|f]; [eauto | discriminate].
  - intros (a & t1 & -> & Hk). exact Hk.
Qed.

Lemma bind_eq {A B} (c : GLM A) (k : A → GLM B) t a t1 :
  c t = Ok a t1 → bind c k t = k a t1.
Proof. unfold bind. intros ->. reflexivity. Qed.

Lemma emits_ret {A} P (a : A) : emits P (ret a).
Proof.
  intros t a' t' [= <- <-]. exists []. by rewrite app_nil_r.
Qed.

Lemma emits_ask {A} P (q : list PicaCall → A) : emits P (ask q).
Proof.
  intros t a' t' [= <- <-]. exists []. by rewrite app_nil_r.
Qed.

Lemma emits_call (P : PicaCall → Prop) c : P c → emits P (call c).
Proof. intros Hc t a' t' [= <- <-]. exists [c]. auto. Qed.

Lemma emits_halt {A} P f : emits P (halt f : GLM A).
Proof. intros t a t' [=]. Qed.

Lemma emits_bind {A B} P (c : GLM A) (k : A → GLM B) :
  emits P c → (∀ a, emits P (k a)) → emits P (bind c k).
Proof.
  intros Hc Hk t b t' (a & t1 & Ha & Hb)%bind_Ok.
  destruct (Hc _ _ _ Ha) as (cs1 & -> & H1).
  destruct (Hk _ _ _ _ Hb) as (cs2 & -> & H2).
  exists (cs1 ++ cs2). split; [by rewrite app_assoc | by apply Forall_app].
Qed.

Lemma emits_when P b (c : GLM unit) : emits P c → emits P (when b c).
Proof. destruct b; [auto | intros _; apply emits_ret]. Qed.

Lemma emits_weaken {A} (P Q : PicaCall → Prop) (c : GLM A) :
  (∀ x, P x → Q x) → emits P c → emits Q c.
Proof.
  intros HPQ Hc t a t' Ht. destruct (Hc _ _ _ Ht) as (cs & -> & Hcs).
  exists cs. split; [done | by eapply Forall_impl].
Qed.

Local Ltac emits_step :=
  first [ apply emits_ret | apply emits_ask | apply emits_halt
        | apply emits_call; exact I
        | apply emits_when
        | apply emits_bind; [| intros ?] ].

Lemma emits_SetShaderUniformBlockBinding shader name binding size :
  emits is_binding (SetShaderUniformBlockBinding shader name binding size).
Proof.
  unfold SetShaderUniformBlockBinding. emits_step; [emits_step|].
  destruct (_ =? _); [emits_step|]. emits_step; [emits_step|].
  destruct (_ =? _); emits_step.
Qed.

Lemma emits_SetShaderUniformBlockBindings shader :
  emits is_binding (SetShaderUniformBlockBindings shader).
Proof.
  unfold SetShaderUniformBlockBindings.
  emits_step; apply emits_SetShaderUniformBlockBinding.
Qed.

Lemma emits_SetShaderSamplerBinding shader name binding :
  emits is_binding (SetShaderSamplerBinding shader name binding).
Proof. unfold SetShaderSamplerBinding. repeat emits_step. Qed.

Lemma emits_SetShaderImageBinding shader name binding :
  emits is_binding (SetShaderImageBinding shader name binding).
Proof. unfold SetShaderImageBinding. repeat emits_step. Qed.

Lemma emits_BindShaderProgram shader :
  emits is_binding (OpenGLState_BindShaderProgram shader).
Proof. unfold OpenGLState_BindShaderProgram. repeat emits_step. Qed.

Lemma emits_SetShaderSamplerBindings shader :
  emits is_binding (SetShaderSamplerBindings shader).
Proof.
  unfold SetShaderSamplerBindings.
  repeat first [ apply emits_BindShaderProgram
               | apply emits_SetShaderSamplerBinding
               | apply emits_SetShaderImageBinding
               | apply emits_ret
               | apply emits_bind; [| intros ?] ].
Qed.

Lemma returns_ret {A} (a : A) : returns (ret a).
Proof. intros t. by exists a, t. Qed.

Lemma returns_ask {A} (q : list PicaCall → A) : returns (ask q).
Proof. intros t. by exists (q t), t. Qed.

Lemma returns_call c : returns (call c).
Proof. intros t. by exists tt, (t ++ [c]). Qed.

Lemma returns_bind {A B} (c : GLM A) (k : A → GLM B) :
  returns c → (∀ a, returns (k a)) → returns (bind c k).
Proof.
  intros Hc Hk t. destruct (Hc t) as (a & t1 & Ha).
  destruct (Hk a t1) as (b & t2 & Hb). exists b, t2.
  by rewrite (bind_eq _ _ _ _ _ Ha).
Qed.

Lemma returns_when b (c : GLM unit) : returns c → returns (when b c).
Proof. destruct b; [auto | intros _; apply returns_ret]. Qed.

Local Ltac returns_step :=
  first [ apply returns_ret | apply returns_ask | apply returns_call
        | apply returns_when
        | apply returns_bind; [| intros ?] ].

(** The sampler bindings never stop the process. *)
Lemma returns_SetShaderSamplerBindings shader :
  returns (SetShaderSamplerBindings shader).
Proof.
  unfold SetShaderSamplerBindings, SetShaderSamplerBinding,
    SetShaderImageBinding, OpenGLState_BindShaderProgram.
  repeat returns_step.
Qed.

(** ** Compiling a stage *)

Lemma is_binding_quiet c : is_binding c → quiet c.
Proof. by destruct c. Qed.

(** [Create] compiles the code once, records the given hash, and adds no
    other compile or generator call. *)
Lemma OGLShaderStage_Create_Ok stage code type h t o t' :
  OGLShaderStage_Create stage code type h t = Ok o t' →
  hash o = h
  ∧ ∃ cs, t' = t ++ CallShaderCreate code type (LoadShader t code type) :: cs
          ∧ Forall quiet cs.
Proof.
  unfold OGLShaderStage_Create, OGLShader_Create.
  destruct (shader_or_program stage).
  - cbn. intros [= <- <-]. split; [done|]. by exists [].
  - intros (sh & t1 & [= <- <-] & H1)%bind_Ok.
    apply bind_Ok in H1 as (pr & t2 & [= <- <-] & H2).
    apply bind_Ok in H2 as ([] & t3 & Hub & H3).
    apply bind_Ok in H3 as ([] & t4 & Hsb & [= <- <-]).
    apply emits_SetShaderUniformBlockBindings in Hub as (cs1 & -> & Hcs1).
    assert (emits is_binding
              (when (type =? GL_FRAGMENT_SHADER)
                 (SetShaderSamplerBindings
                    (LoadProgram (t ++ [CallShaderCreate code type (LoadShader t code type)])
                       true [LoadShader t code type])))) as Hem
      by apply emits_when, emits_SetShaderSamplerBindings.
    apply Hem in Hsb as (cs2 & -> & Hcs2).
    split; [done|]. eexists (_ :: cs1 ++ cs2). split.
    + rewrite <- !app_assoc. cbn. reflexivity.
    + constructor; [done|].
      apply Forall_app; split; eapply Forall_impl; eauto using is_binding_quiet.
Qed.

(** In monolithic mode [Create] cannot stop the process. *)
Lemma OGLShaderStage_Create_monolithic code type h t :
  OGLShaderStage_Create (OGLShaderStage_new false) code type h t
  = Ok {| shader_or_program :=
            which_0 {| shader_handle := LoadShader t code type |};
          hash := h |}
       (t ++ [CallShaderCreate code type (LoadShader t code type)]).
Proof. reflexivity. Qed.

(** ** The stage-selection operations, case by case *)

Section VertexCases.
Variables (regs : Regs) (setup : ShaderSetup).
Let key := PicaVSConfig_new regs setup.
Let key_hash := ComputeHash64_vs key.

Lemma UseProgrammableVertexShader_hit m t p :
  shaders_ref m !! key_hash = Some p →
  UseProgrammableVertexShader regs setup m t
  = Ok (bool_decide (p ≠ nullptr), set_vs p m) t.
Proof.
  intros Hp. unfold UseProgrammableVertexShader.
  fold key; fold key_hash. rewrite Hp. reflexivity.
Qed.

Lemma UseProgrammableVertexShader_empty m t :
  shaders_ref m !! key_hash = None →
  GenerateVertexShader setup key (separable m) = "" →
  UseProgrammableVertexShader regs setup m t
  = Ok (false,
        set_vs nullptr
          (set_shaders_ref (<[key_hash := nullptr]> (shaders_ref m)) m))
       (t ++ [CallGenerateVertexShader key]).
Proof.
  intros Hp Hs. unfold UseProgrammableVertexShader.
  fold key; fold key_hash. rewrite Hp, Hs. reflexivity.
Qed.

Lemma UseProgrammableVertexShader_fetch m t o :
  shaders_ref m !! key_hash = None →
  let vs_code := GenerateVertexShader setup key (separable m) in
  vs_code ≠ "" →
  shaders m !! ComputeHash64_code vs_code = Some o →
  UseProgrammableVertexShader regs setup m t
  = Ok (true,
        set_vs (cached (ComputeHash64_code vs_code))
          (set_shaders_ref
             (<[key_hash := cached (ComputeHash64_code vs_code)]>
                (shaders_ref m)) m))
       (t ++ [CallGenerateVertexShader key]).
Proof.
  intros Hp vs_code Hs Ho. unfold UseProgrammableVertexShader.
  fold key; fold key_hash; fold vs_code. rewrite Hp.
  apply String.eqb_neq in Hs.
  unfold bind at 1. unfold bind at 1. cbn [call]. rewrite Hs.
  unfold emplace_and_create. rewrite Ho. reflexivity.
Qed.

Lemma UseProgrammableVertexShader_compile m t :
  shaders_ref m !! key_hash = None →
  let vs_code := GenerateVertexShader setup key (separable m) in
  let code_hash := ComputeHash64_code vs_code in
  vs_code ≠ "" →
  shaders m !! code_hash = None →
  UseProgrammableVertexShader regs setup m t
  = match OGLShaderStage_Create (OGLShaderStage_new (separable m)) vs_code
            GL_VERTEX_SHADER code_hash (t ++ [CallGenerateVertexShader key])
    with
    | Ok o t' =>
        Ok (true,
            set_vs (cached code_hash)
              (set_shaders_ref (<[key_hash := cached code_hash]> (shaders_ref m))
                 (set_shaders (<[code_hash := o]> (shaders m)) m))) t'
    | Halt f => Halt f
    end.
Proof.
  intros Hp vs_code code_hash Hs Ho. unfold UseProgrammableVertexShader.
  fold key; fold key_hash; fold vs_code; fold code_hash. rewrite Hp.
  apply String.eqb_neq in Hs.
  unfold bind at 1. unfold bind at 1. cbn [call]. rewrite Hs.
  unfold emplace_and_create. rewrite Ho.
  unfold bind, ret.
  destruct (OGLShaderStage_Create _ _ _ _ _); reflexivity.
Qed.

End VertexCases.

Section FragmentCases.
Variable regs : Regs.
Let key := PicaFSConfig_BuildFromRegs regs.
Let key_hash := ComputeHash64_fs key.

Lemma UseFragmentShader_hit m t p :
  shaders_ref m !! key_hash = Some p →
  UseFragmentShader regs m t = Ok (set_fs p m) t.
Proof.
  intros Hp. unfold UseFragmentShader. fold key; fold key_hash.
  rewrite Hp. reflexivity.
Qed.

Lemma UseFragmentShader_fetch m t o :
  shaders_ref m !! key_hash = None →
  let code_hash :=
    ComputeHash64_code (GenerateFragmentShader key (separable m)) in
  shaders m !! code_hash = Some o →
  UseFragmentShader regs m t
  = Ok (set_fs (cached code_hash)
          (set_shaders_ref (<[key_hash := cached code_hash]> (shaders_ref m)) m))
       (t ++ [CallGenerateFragmentShader key]).
Proof.
  intros Hp code_hash Ho. unfold UseFragmentShader.
  fold key; fold key_hash; fold code_hash. rewrite Hp.
  unfold bind at 1. unfold bind at 1. cbn [call].
  unfold emplace_and_create. rewrite Ho. reflexivity.
Qed.

Lemma UseFragmentShader_compile m t :
  shaders_ref m !! key_hash = None →
  let fs_code := GenerateFragmentShader key (separable m) in
  let code_hash := ComputeHash64_code fs_code in
  shaders m !! code_hash = None →
  UseFragmentShader regs m t
  = match OGLShaderStage_Create (OGLShaderStage_new (separable m)) fs_code
            GL_FRAGMENT_SHADER code_hash
            (t ++ [CallGenerateFragmentShader key])
    with
    | Ok o t' =>
        Ok (set_fs (cached code_hash)
              (set_shaders_ref (<[key_hash := cached code_hash]> (shaders_ref m))
                 (set_shaders (<[code_hash := o]> (shaders m)) m))) t'
    | Halt f => Halt f
    end.
Proof.
  intros Hp fs_code code_hash Ho. unfold UseFragmentShader.
  fold key; fold key_hash; fold fs_code; fold code_hash. rewrite Hp.
  unfold bind at 1. unfold bind at 1. cbn [call].
  unfold emplace_and_create. rewrite Ho.
  unfold bind, ret.
  destruct (OGLShaderStage_Create _ _ _ _ _); reflexivity.
Qed.

End FragmentCases.

Section GeometryCases.
Variable regs : Regs.
Let key := PicaFixedGSConfig_new regs.
Let key_hash := ComputeHash64_gs key.

Lemma UseFixedGeometryShader_hit m t o :
  shaders m !! key_hash = Some o →
  UseFixedGeometryShader regs m t = Ok (set_gs (cached key_hash) m) t.
Proof.
  intros Ho. unfold UseFixedGeometryShader, emplace_and_create.
  fold key; fold key_hash. rewrite Ho. reflexivity.
Qed.

Lemma UseFixedGeometryShader_compile m t :
  shaders m !! key_hash = None →
  UseFixedGeometryShader regs m t
  = match OGLShaderStage_Create (OGLShaderStage_new (separable m))
            (GenerateFixedGeometryShader key (separable m))
            GL_GEOMETRY_SHADER key_hash
            (t ++ [CallGenerateFixedGeometryShader key])
    with
    | Ok o t' =>
        Ok (set_gs (cached key_hash)
              (set_shaders (<[key_hash := o]> (shaders m)) m)) t'
    | Halt f => Halt f
    end.
Proof.
  intros Ho. unfold UseFixedGeometryShader, emplace_and_create.
  fold key; fold key_hash. rewrite Ho.
  unfold bind, ret, call.
  destruct (OGLShaderStage_Create _ _ _ _ _); reflexivity.
Qed.

End GeometryCases.

(** ** What no operation changes *)

Lemma frame_refl m : frame m m.
Proof. unfold frame. split_and!; auto. Qed.

Lemma frame_trans m1 m2 m3 : frame m1 m2 → frame m2 m3 → frame m1 m3.
Proof.
  intros (S1 & A1 & P1 & V1 & G1 & R1 & C1 & M1 & L1)
         (S2 & A2 & P2 & V2 & G2 & R2 & C2 & M2 & L2).
  unfold frame. split_and!; try congruence.
  - by etrans.
  - by etrans.
  - intros Hs. destruct (M1 Hs) as [E1 E2].
    destruct M2 as [E3 E4]; [congruence|]. split; congruence.
  - intros h pr Hh Hne. apply L2; auto.
Qed.

(** Selecting a stage, and recording a resolution or a stage object under
    a key that was free, keeps the frame. *)
Local Ltac frame_by_select m :=
  unfold frame; cbn; split_and!; auto; by apply insert_subseteq.

Lemma frame_UseProgrammableVertexShader regs setup m t r t' :
  UseProgrammableVertexShader regs setup m t = Ok r t' → frame m r.2.
Proof.
  intros Hrun.
  destruct (shaders_ref m !! ComputeHash64_vs (PicaVSConfig_new regs setup))
    as [p|] eqn:Hp.
  { rewrite (UseProgrammableVertexShader_hit _ _ _ _ _ Hp) in Hrun.
    injection Hrun as <- <-. frame_by_select m. }
  destruct (decide (GenerateVertexShader setup (PicaVSConfig_new regs setup)
                      (separable m) = "")) as [Hs|Hs].
  { rewrite (UseProgrammableVertexShader_empty _ _ _ _ Hp Hs) in Hrun.
    injection Hrun as <- <-.
    frame_by_select m. }
  destruct (shaders m !! ComputeHash64_code
              (GenerateVertexShader setup (PicaVSConfig_new regs setup)
                 (separable m))) as [o|] eqn:Ho.
  { rewrite (UseProgrammableVertexShader_fetch _ _ _ _ _ Hp Hs Ho) in Hrun.
    injection Hrun as <- <-.
    frame_by_select m. }
  rewrite (UseProgrammableVertexShader_compile _ _ _ _ Hp Hs Ho) in Hrun.
  destruct (OGLShaderStage_Create _ _ _ _ _) as [o t1|]; [|discriminate].
  injection Hrun as <- <-.
  frame_by_select m.
Qed.

Lemma frame_UseFragmentShader regs m t m' t' :
  UseFragmentShader regs m t = Ok m' t' → frame m m'.
Proof.
  intros Hrun.
  destruct (shaders_ref m !! ComputeHash64_fs (PicaFSConfig_BuildFromRegs regs))
    as [p|] eqn:Hp.
  { rewrite (UseFragmentShader_hit _ _ _ _ Hp) in Hrun.
    injection Hrun as <- <-. frame_by_select m. }
  destruct (shaders m !! ComputeHash64_code
              (GenerateFragmentShader (PicaFSConfig_BuildFromRegs regs)
                 (separable m))) as [o|] eqn:Ho.
  { rewrite (UseFragmentShader_fetch _ _ _ _ Hp Ho) in Hrun.
    injection Hrun as <- <-.
    frame_by_select m. }
  rewrite (UseFragmentShader_compile _ _ _ Hp Ho) in Hrun.
  destruct (OGLShaderStage_Create _ _ _ _ _) as [o t1|]; [|discriminate].
  injection Hrun as <- <-.
  frame_by_select m.
Qed.

Lemma frame_UseFixedGeometryShader regs m t m' t' :
  UseFixedGeometryShader regs m t = Ok m' t' → frame m m'.
Proof.
  intros Hrun.
  destruct (shaders m !! ComputeHash64_gs (PicaFixedGSConfig_new regs))
    as [o|] eqn:Ho.
  { rewrite (UseFixedGeometryShader_hit _ _ _ _ Ho) in Hrun.
    injection Hrun as <- <-. frame_by_select m. }
  rewrite (UseFixedGeometryShader_compile _ _ _ Ho) in Hrun.
  destruct (OGLShaderStage_Create _ _ _ _ _) as [o t1|]; [|discriminate].
  injection Hrun as <- <-.
  frame_by_select m.
Qed.

Lemma frame_UseTrivialVertexShader m : frame m (UseTrivialVertexShader m).
Proof. frame_by_select m. Qed.

Lemma frame_UseTrivialGeometryShader m : frame m (UseTrivialGeometryShader m).
Proof. frame_by_select m. Qed.

(** ** Dereferencing a stage pointer *)

Lemma deref_Ok m p t o t' :
  deref m p t = Ok o t' → t' = t ∧ ∀ t2, deref m p t2 = Ok o t2.
Proof.
  unfold deref. destruct p; try discriminate.
  - intros [= <- <-]. done.
  - intros [= <- <-]. done.
  - destruct (shaders m !! key); [|discriminate]. intros [= <- <-]. done.
Qed.

Lemma deref_Halt m p t f :
  deref m p t = Halt f → f = NullDereference ∨ f = WildDereference.
Proof.
  unfold deref, halt, ret. destruct p; try discriminate.
  - intros [= <-]. by left.
  - intros [= <-]. by right.
  - destruct (shaders m !! key); [discriminate|]. intros [= <-]. by right.
Qed.

Lemma deref_frame m m' p t o :
  frame m m' → deref m p t = Ok o t → deref m' p t = Ok o t.
Proof.
  intros (_ & _ & _ & V & G & _ & C & _) Hd. unfold deref in *.
  destruct p; try discriminate.
  - by rewrite V.
  - by rewrite G.
  - destruct (shaders m !! key) as [o'|] eqn:Ho; [|discriminate].
    by rewrite (lookup_weaken _ _ _ _ Ho C).
Qed.

(** ** [CreateProgram], case by case *)

Section CreateProgramCases.
Variables (pr0 : OGLProgram) (h vs gs fs : Z).
Variable bc : Zmap ProgramCacheEntity.
Variable t : list PicaCall.
Hypothesis pr0_fresh : handle pr0 = 0.

(** What linking from the stage handles adds after the calls [t0], when
    the table of binaries is [bc0]. *)
Let linked (t0 : list PicaCall) := LoadProgram t0 false [vs; gs; fs].
Let link_call (t0 : list PicaCall) : PicaCall :=
  CallProgramCreate false [vs; gs; fs] (linked t0).
Let queried (t0 : list PicaCall) :=
  QueryProgramBinary (t0 ++ [link_call t0]) (linked t0).

Lemma CreateProgram_link_only :
  bc !! h = None →
  CreateProgram pr0 h vs gs fs bc t
  = Ok ({| handle := linked t |},
        match (queried t).2 with
        | [] => bc
        | _ :: _ =>
            <[h := {| format := (queried t).1; binary := (queried t).2 |}]> bc
        end)
       (t ++ [link_call t;
              CallGetProgramBinary (linked t) (queried t).1 (queried t).2]).
Proof.
  intros Hb. unfold CreateProgram. rewrite Hb.
  unfold bind at 1. cbn [ret]. rewrite pr0_fresh. cbn [Z.eqb].
  unfold OGLProgram_Create, OGLProgram_GetProgramBinary, bind, ask, call, ret.
  cbn [handle]. fold (linked t). fold (link_call t). fold (queried t).
  destruct (queried t) as [fmt bin]. cbn [fst snd].
  rewrite <- app_assoc. cbn [app].
  destruct bin; [reflexivity|]. unfold emplace. rewrite Hb. reflexivity.
Qed.

Lemma CreateProgram_installed e :
  bc !! h = Some e →
  LoadProgramBinary t (format e) (binary e) ≠ 0 →
  CreateProgram pr0 h vs gs fs bc t
  = Ok ({| handle := LoadProgramBinary t (format e) (binary e) |}, bc)
       (t ++ [CallProgramCreateBinary (format e) (binary e)
                (LoadProgramBinary t (format e) (binary e))]).
Proof.
  intros Hb Hne. unfold CreateProgram. rewrite Hb.
  unfold OGLProgram_Create_binary, bind, ask, call, ret. cbn [handle].
  apply Z.eqb_neq in Hne. rewrite Hne. cbn [handle]. rewrite Hne. reflexivity.
Qed.

Lemma CreateProgram_rejected e :
  bc !! h = Some e →
  LoadProgramBinary t (format e) (binary e) = 0 →
  let t1 := t ++ [CallProgramCreateBinary (format e) (binary e) 0] in
  CreateProgram pr0 h vs gs fs bc t
  = Ok ({| handle := linked t1 |},
        match (queried t1).2 with
        | [] => ∅
        | _ :: _ =>
            {[h := {| format := (queried t1).1; binary := (queried t1).2 |}]}
        end)
       (t1 ++ [link_call t1;
               CallGetProgramBinary (linked t1) (queried t1).1 (queried t1).2]).
Proof.
  intros Hb Hrej t1. unfold CreateProgram. rewrite Hb.
  unfold OGLProgram_Create_binary, OGLProgram_Create,
    OGLProgram_GetProgramBinary, bind, ask, call, ret.
  cbn [handle]. rewrite Hrej. cbn [Z.eqb handle]. fold t1.
  fold (linked t1). fold (link_call t1). fold (queried t1).
  destruct (queried t1) as [fmt bin]. cbn [fst snd].
  rewrite <- (app_assoc t1). cbn [app].
  destruct bin; [reflexivity|]. unfold emplace. rewrite lookup_empty.
  reflexivity.
Qed.

End CreateProgramCases.

Lemma CreateProgram_returns pr0 h vs gs fs bc t :
  handle pr0 = 0 → ∃ pr bc' t', CreateProgram pr0 h vs gs fs bc t = Ok (pr, bc') t'.
Proof.
  intros Hfresh. destruct (bc !! h) as [e|] eqn:Hb.
  - destruct (decide (LoadProgramBinary t (format e) (binary e) = 0)) as [Hz|Hz].
    + erewrite CreateProgram_rejected by eassumption. eauto.
    + erewrite CreateProgram_installed by eassumption. eauto.
  - erewrite CreateProgram_link_only by eassumption. eauto.
Qed.

(** ** [ApplyTo], case by case *)

Section ApplyToCases.
Variables (state : OpenGLState) (m : Impl) (t : list PicaCall).
Variables vo go fo : OGLShaderStage.
Hypothesis deref_vs : deref m (vs (current_shaders m)) t = Ok vo t.
Hypothesis deref_gs : deref m (gs (current_shaders m)) t = Ok go t.
Hypothesis deref_fs : deref m (fs (current_shaders m)) t = Ok fo t.

Let h := ComputeHash64_stages (GetHash vo) (GetHash go) (GetHash fo).

Lemma ApplyTo_separable :
  separable m = true →
  ApplyTo state m t
  = Ok ({| draw := {| shader_program := 0;
                      program_pipeline := pipeline_handle (pipeline m) |} |}, m)
       (t ++ (if is_amd m
              then [CallUseProgramStages (pipeline_handle (pipeline m))
                      (Z.lor (Z.lor GL_VERTEX_SHADER_BIT GL_GEOMETRY_SHADER_BIT)
                         GL_FRAGMENT_SHADER_BIT) 0]
              else [])
          ++ [CallUseProgramStages (pipeline_handle (pipeline m))
                GL_VERTEX_SHADER_BIT (GetHandle vo);
              CallUseProgramStages (pipeline_handle (pipeline m))
                GL_GEOMETRY_SHADER_BIT (GetHandle go);
              CallUseProgramStages (pipeline_handle (pipeline m))
                GL_FRAGMENT_SHADER_BIT (GetHandle fo)]).
Proof.
  intros Hsep. unfold ApplyTo.
  rewrite (bind_eq _ _ _ _ _ deref_vs), (bind_eq _ _ _ _ _ deref_gs),
    (bind_eq _ _ _ _ _ deref_fs), Hsep.
  unfold when, bind, call, ret.
  destruct (is_amd m); cbn [app]; rewrite <- ?app_assoc; reflexivity.
Qed.

Lemma set_programs_id pr :
  program_cache m !! h = Some pr →
  set_programs (<[h := pr]> (program_cache m)) (binary_cache m) m = m.
Proof.
  intros Hpr. unfold set_programs. rewrite (insert_id _ _ _ Hpr).
  by destruct m.
Qed.

Lemma ApplyTo_cached pr :
  separable m = false →
  program_cache m !! h = Some pr → handle pr ≠ 0 →
  ApplyTo state m t
  = Ok ({| draw := {| shader_program := handle pr; program_pipeline := 0 |} |},
        m) t.
Proof.
  intros Hsep Hpr Hne. unfold ApplyTo.
  rewrite (bind_eq _ _ _ _ _ deref_vs), (bind_eq _ _ _ _ _ deref_gs),
    (bind_eq _ _ _ _ _ deref_fs), Hsep.
  fold h. rewrite Hpr. unfold default. cbn [from_option id].
  apply Z.eqb_neq in Hne. rewrite Hne.
  unfold bind, ret. by rewrite set_programs_id.
Qed.

Lemma ApplyTo_create :
  separable m = false →
  handle (default OGLProgram_new (program_cache m !! h)) = 0 →
  ApplyTo state m t
  = match CreateProgram (default OGLProgram_new (program_cache m !! h)) h
            (GetHandle vo) (GetHandle go) (GetHandle fo) (binary_cache m) t
    with
    | Ok (pr, bc') t1 =>
        match (SetShaderUniformBlockBindings (handle pr);;
               SetShaderSamplerBindings (handle pr)) t1 with
        | Ok _ t2 =>
            Ok ({| draw := {| shader_program := handle pr;
                              program_pipeline := 0 |} |},
                set_programs (<[h := pr]> (program_cache m)) bc' m) t2
        | Halt f => Halt f
        end
    | Halt f => Halt f
    end.
Proof.
  intros Hsep Hz. unfold ApplyTo.
  rewrite (bind_eq _ _ _ _ _ deref_vs), (bind_eq _ _ _ _ _ deref_gs),
    (bind_eq _ _ _ _ _ deref_fs), Hsep.
  fold h. rewrite Hz. cbn [Z.eqb].
  unfold bind at 1. unfold bind at 1.
  destruct (CreateProgram _ _ _ _ _ _ _) as [[pr bc'] t1|]; [|reflexivity].
  unfold bind at 1. unfold bind at 2.
  destruct (SetShaderUniformBlockBindings (handle pr) t1) as [[] t2|];
    [|reflexivity].
  unfold bind.
  destruct (SetShaderSamplerBindings (handle pr) t2) as [[] t3|]; reflexivity.
Qed.

End ApplyToCases.

Lemma ApplyTo_Ok_deref state m t r t' :
  ApplyTo state m t = Ok r t' →
  ∃ vo go fo,
    deref m (vs (current_shaders m)) t = Ok vo t
    ∧ deref m (gs (current_shaders m)) t = Ok go t
    ∧ deref m (fs (current_shaders m)) t = Ok fo t.
Proof.
  unfold ApplyTo.
  intros (vo & t1 & Hv & H1)%bind_Ok.
  destruct (deref_Ok _ _ _ _ _ Hv) as [-> _].
  apply bind_Ok in H1 as (go & t1 & Hg & H1).
  destruct (deref_Ok _ _ _ _ _ Hg) as [-> _].
  apply bind_Ok in H1 as (fo & t1 & Hf & H1).
  destruct (deref_Ok _ _ _ _ _ Hf) as [-> _].
  eauto 10.
Qed.

Lemma frame_ApplyTo state m t r t' :
  ApplyTo state m t = Ok r t' → frame m r.2.
Proof.
  intros Hrun.
  destruct (ApplyTo_Ok_deref _ _ _ _ _ Hrun) as (vo & go & fo & Hv & Hg & Hf).
  destruct (separable m) eqn:Hsep.
  { rewrite (ApplyTo_separable _ _ _ _ _ _ Hv Hg Hf Hsep) in Hrun.
    injection Hrun as <- _. apply frame_refl. }
  set (h := ComputeHash64_stages (GetHash vo) (GetHash go) (GetHash fo)).
  destruct (decide (handle (default OGLProgram_new (program_cache m !! h)) = 0))
    as [Hz|Hz].
  - rewrite (ApplyTo_create _ _ _ _ _ _ Hv Hg Hf Hsep Hz) in Hrun.
    destruct (CreateProgram _ _ _ _ _ _ _) as [[pr bc'] t1|]; [|discriminate].
    destruct (bind _ _ t1) as [[] t2|]; [|discriminate].
    injection Hrun as <- _. unfold frame. cbn. split_and!; auto.
    + congruence.
    + intros k p Hk Hne. destruct (decide (k = h)) as [->|Hkh].
      * fold h in Hz. rewrite Hk in Hz. done.
      * fold h. by rewrite lookup_insert_ne.
  - destruct (program_cache m !! h) as [pr|] eqn:Hpr; [|done].
    rewrite (ApplyTo_cached _ _ _ _ _ _ Hv Hg Hf _ Hsep Hpr Hz) in Hrun.
    injection Hrun as <- _. apply frame_refl.
Qed.

Lemma frame_step op w t w' t' : step op w t = Ok w' t' → frame w.2 w'.2.
Proof.
  destruct w as [state m]. destruct op; cbn [step snd].
  - intros (r & t1 & Hr & [= <- <-])%bind_Ok.
    by eapply frame_UseProgrammableVertexShader.
  - intros [= <- <-]. apply frame_UseTrivialVertexShader.
  - intros (r & t1 & Hr & [= <- <-])%bind_Ok.
    by eapply frame_UseFixedGeometryShader.
  - intros [= <- <-]. apply frame_UseTrivialGeometryShader.
  - intros (r & t1 & Hr & [= <- <-])%bind_Ok.
    by eapply frame_UseFragmentShader.
  - apply frame_ApplyTo.
Qed.

Lemma frame_run ops : ∀ w t w' t',
  run ops w t = Ok w' t' → frame w.2 w'.2.
Proof.
  induction ops as [|op ops IH]; intros w t w' t'; cbn [run].
  - intros [= <- <-]. apply frame_refl.
  - intros (w1 & t1 & Hstep & Hrun)%bind_Ok.
    eapply frame_trans; [by eapply frame_step | by eapply IH].
Qed.

(** ** Resolution of a vertex configuration *)

(** C1.  [UseProgrammableVertexShader], case by case on the two caches.
    (1) The hash of the configuration key has a recorded resolution: that
    resolution (a stage pointer, possibly null) becomes the active vertex
    stage, the call returns whether it is non-null, and no call is made
    (no generator, no compile).  (2) First occurrence and the generator
    yields empty source: null is recorded for the key, the call returns
    false.  (3) First occurrence, non-empty source, and the generated-shader
    cache has an object under the hash of the source: that object is
    fetched, recorded and made active, the call returns true, nothing is
    compiled.  (4) As (3) but the cache has no such object: the source is
    compiled into a new stage object carrying the content hash, which is
    inserted, recorded and made active, and the call returns true.  In
    monolithic mode the compile step cannot stop the process. *)
Theorem vertex_resolution regs setup m t :
  let key := PicaVSConfig_new regs setup in
  let key_hash := ComputeHash64_vs key in
  let vs_code := GenerateVertexShader setup key (separable m) in
  let code_hash := ComputeHash64_code vs_code in
  let generated := t ++ [CallGenerateVertexShader key] in
  (∀ p, shaders_ref m !! key_hash = Some p →
     UseProgrammableVertexShader regs setup m t
     = Ok (bool_decide (p ≠ nullptr), set_vs p m) t)
  ∧ (shaders_ref m !! key_hash = None → vs_code = "" →
     UseProgrammableVertexShader regs setup m t
     = Ok (false,
           set_vs nullptr
             (set_shaders_ref (<[key_hash := nullptr]> (shaders_ref m)) m))
          generated)
  ∧ (∀ o, shaders_ref m !! key_hash = None → vs_code ≠ "" →
     shaders m !! code_hash = Some o →
     UseProgrammableVertexShader regs setup m t
     = Ok (true,
           set_vs (cached code_hash)
             (set_shaders_ref (<[key_hash := cached code_hash]> (shaders_ref m))
                m))
          generated)
  ∧ (shaders_ref m !! key_hash = None → vs_code ≠ "" →
     shaders m !! code_hash = None →
     (∀ o t', OGLShaderStage_Create (OGLShaderStage_new (separable m)) vs_code
                GL_VERTEX_SHADER code_hash generated = Ok o t' →
        hash o = code_hash
        ∧ UseProgrammableVertexShader regs setup m t
          = Ok (true,
                set_vs (cached code_hash)
                  (set_shaders_ref
                     (<[key_hash := cached code_hash]> (shaders_ref m))
                     (set_shaders (<[code_hash := o]> (shaders m)) m))) t')
     ∧ (separable m = false →
        ∃ o t', OGLShaderStage_Create (OGLShaderStage_new (separable m))
                  vs_code GL_VERTEX_SHADER code_hash generated = Ok o t')).
Proof.
  intros key key_hash vs_code code_hash generated. split_and!.
  - intros p Hp. by apply UseProgrammableVertexShader_hit.
  - intros Hp Hs. by apply UseProgrammableVertexShader_empty.
  - intros o Hp Hs Ho. by eapply UseProgrammableVertexShader_fetch.
  - intros Hp Hs Ho. split.
    + intros o t' Hc. split.
      * by destruct (OGLShaderStage_Create_Ok _ _ _ _ _ _ _ Hc).
      * rewrite (UseProgrammableVertexShader_compile _ _ _ _ Hp Hs Ho).
        fold key vs_code code_hash generated. by rewrite Hc.
    + intros ->. rewrite OGLShaderStage_Create_monolithic. eauto.
Qed.

(** ** Recorded resolutions *)

Lemma UseProgrammableVertexShader_records regs setup m t r t' :
  UseProgrammableVertexShader regs setup m t = Ok r t' →
  shaders_ref r.2 !! ComputeHash64_vs (PicaVSConfig_new regs setup)
  = Some (vs (current_shaders r.2))
  ∧ r.1 = bool_decide (vs (current_shaders r.2) ≠ nullptr).
Proof.
  intros Hrun.
  destruct (shaders_ref m !! ComputeHash64_vs (PicaVSConfig_new regs setup))
    as [p|] eqn:Hp.
  { rewrite (UseProgrammableVertexShader_hit _ _ _ _ _ Hp) in Hrun.
    injection Hrun as <- <-. split; reflexivity || assumption. }
  destruct (decide (GenerateVertexShader setup (PicaVSConfig_new regs setup)
                      (separable m) = "")) as [Hs|Hs].
  { rewrite (UseProgrammableVertexShader_empty _ _ _ _ Hp Hs) in Hrun.
    injection Hrun as <- <-. cbn [fst snd].
    split; [apply lookup_insert_eq | reflexivity]. }
  destruct (shaders m !! ComputeHash64_code
              (GenerateVertexShader setup (PicaVSConfig_new regs setup)
                 (separable m))) as [o|] eqn:Ho.
  { rewrite (UseProgrammableVertexShader_fetch _ _ _ _ _ Hp Hs Ho) in Hrun.
    injection Hrun as <- <-. cbn [fst snd].
    split; [apply lookup_insert_eq | reflexivity]. }
  rewrite (UseProgrammableVertexShader_compile _ _ _ _ Hp Hs Ho) in Hrun.
  destruct (OGLShaderStage_Create _ _ _ _ _) as [o t1|]; [|discriminate].
  injection Hrun as <- <-. cbn [fst snd].
  split; [apply lookup_insert_eq | reflexivity].
Qed.

Lemma UseFragmentShader_records regs m t m' t' :
  UseFragmentShader regs m t = Ok m' t' →
  shaders_ref m' !! ComputeHash64_fs (PicaFSConfig_BuildFromRegs regs)
  = Some (fs (current_shaders m')).
Proof.
  intros Hrun.
  destruct (shaders_ref m !! ComputeHash64_fs (PicaFSConfig_BuildFromRegs regs))
    as [p|] eqn:Hp.
  { rewrite (UseFragmentShader_hit _ _ _ _ Hp) in Hrun.
    injection Hrun as <- <-. done. }
  destruct (shaders m !! ComputeHash64_code
              (GenerateFragmentShader (PicaFSConfig_BuildFromRegs regs)
                 (separable m))) as [o|] eqn:Ho.
  { rewrite (UseFragmentShader_fetch _ _ _ _ Hp Ho) in Hrun.
    injection Hrun as <- <-. apply lookup_insert_eq. }
  rewrite (UseFragmentShader_compile _ _ _ Hp Ho) in Hrun.
  destruct (OGLShaderStage_Create _ _ _ _ _) as [o t1|]; [|discriminate].
  injection Hrun as <- <-. apply lookup_insert_eq.
Qed.

Lemma UseFixedGeometryShader_records regs m t m' t' :
  UseFixedGeometryShader regs m t = Ok m' t' →
  gs (current_shaders m')
  = cached (ComputeHash64_gs (PicaFixedGSConfig_new regs))
  ∧ is_Some (shaders m' !! ComputeHash64_gs (PicaFixedGSConfig_new regs)).
Proof.
  intros Hrun.
  destruct (shaders m !! ComputeHash64_gs (PicaFixedGSConfig_new regs))
    as [o|] eqn:Ho.
  { rewrite (UseFixedGeometryShader_hit _ _ _ _ Ho) in Hrun.
    injection Hrun as <- <-. split; [reflexivity | by eexists]. }
  rewrite (UseFixedGeometryShader_compile _ _ _ Ho) in Hrun.
  destruct (OGLShaderStage_Create _ _ _ _ _) as [o t1|]; [|discriminate].
  injection Hrun as <- <-. split; [reflexivity|].
  eexists. apply lookup_insert_eq.
Qed.

(** C4.  Resolving a configuration key again, after any operations of the
    manager, makes no call at all (so no generator and no compile call)
    and selects the resolution recorded the first time, for the vertex,
    the fixed geometry and the fragment stage; and no sequence of
    operations removes or changes a recorded resolution or a cached stage
    object. *)
Theorem resolution_is_stable ops s1 w2 t1 t2 :
  (∀ regs setup m t b m1,
     UseProgrammableVertexShader regs setup m t = Ok (b, m1) t1 →
     run ops (s1, m1) t1 = Ok w2 t2 →
     UseProgrammableVertexShader regs setup w2.2 t2
     = Ok (b, set_vs (vs (current_shaders m1)) w2.2) t2)
  ∧ (∀ regs m t m1,
       UseFixedGeometryShader regs m t = Ok m1 t1 →
       run ops (s1, m1) t1 = Ok w2 t2 →
       UseFixedGeometryShader regs w2.2 t2
       = Ok (set_gs (gs (current_shaders m1)) w2.2) t2)
  ∧ (∀ regs m t m1,
       UseFragmentShader regs m t = Ok m1 t1 →
       run ops (s1, m1) t1 = Ok w2 t2 →
       UseFragmentShader regs w2.2 t2
       = Ok (set_fs (fs (current_shaders m1)) w2.2) t2)
  ∧ (∀ m1, run ops (s1, m1) t1 = Ok w2 t2 →
       (∀ key_hash p, shaders_ref m1 !! key_hash = Some p →
                      shaders_ref w2.2 !! key_hash = Some p)
       ∧ (∀ key o, shaders m1 !! key = Some o → shaders w2.2 !! key = Some o)).
Proof.
  split_and!.
  - intros regs setup m t b m1 Hfirst Hrun.
    apply UseProgrammableVertexShader_records in Hfirst as [Hrec Hb].
    apply frame_run in Hrun as (_ & _ & _ & _ & _ & R & _).
    cbn [fst snd] in *. subst b.
    by rewrite (UseProgrammableVertexShader_hit _ _ _ _ _
                  (lookup_weaken _ _ _ _ Hrec R)).
  - intros regs m t m1 Hfirst Hrun.
    apply UseFixedGeometryShader_records in Hfirst as [-> [o Ho]].
    apply frame_run in Hrun as (_ & _ & _ & _ & _ & _ & C & _). cbn [snd] in *.
    by rewrite (UseFixedGeometryShader_hit _ _ _ _ (lookup_weaken _ _ _ _ Ho C)).
  - intros regs m t m1 Hfirst Hrun.
    apply UseFragmentShader_records in Hfirst as Hrec.
    apply frame_run in Hrun as (_ & _ & _ & _ & _ & R & _). cbn [snd] in *.
    by rewrite (UseFragmentShader_hit _ _ _ _ (lookup_weaken _ _ _ _ Hrec R)).
  - intros m1 Hrun.
    apply frame_run in Hrun as (_ & _ & _ & _ & _ & R & C & _). cbn [snd] in *.
    split; intros k x Hk; by eapply lookup_weaken.
Qed.

(** ** Deduplication by content hash *)

Lemma compiles_app (cs1 cs2 : list PicaCall) :
  compiles (cs1 ++ cs2) = (compiles cs1 + compiles cs2)%nat.
Proof. unfold compiles. by rewrite List.filter_app, length_app. Qed.

Lemma compiles_quiet (cs : list PicaCall) : Forall quiet cs → compiles cs = 0%nat.
Proof.
  unfold compiles. induction 1 as [|c cs [Hc _] _ IH]; [done|].
  cbn [List.filter]. by rewrite Hc.
Qed.

Lemma resolve_hit k m t p :
  shaders_ref m !! key_hash k = Some p →
  ∃ m', resolve k m t = Ok m' t ∧ resolution k m' = p
        ∧ shaders m' = shaders m ∧ separable m' = separable m.
Proof.
  destruct k as [regs setup|regs]; cbn [key_hash resolve resolution]; intros Hp.
  - rewrite (bind_eq _ _ _ _ _ (UseProgrammableVertexShader_hit _ _ _ _ _ Hp)).
    by eexists.
  - rewrite (UseFragmentShader_hit _ _ _ _ Hp). by eexists.
Qed.

Lemma filter_compile_quiet (cs : list PicaCall) :
  Forall quiet cs → List.filter is_compile cs = [].
Proof.
  induction 1 as [|c cs [Hc _] _ IH]; [done|].
  cbn [List.filter]. by rewrite Hc.
Qed.

Lemma resolve_first k m t m1 t1 :
  let text := generated_source (separable m) k in
  let code_hash := ComputeHash64_code text in
  shaders_ref m !! key_hash k = None →
  (is_vertex k = true → text ≠ "") →
  resolve k m t = Ok m1 t1 →
  resolution k m1 = cached code_hash
  ∧ shaders_ref m1 = <[key_hash k := cached code_hash]> (shaders_ref m)
  ∧ separable m1 = separable m
  ∧ shaders m ⊆ shaders m1
  ∧ is_Some (shaders m1 !! code_hash)
  ∧ ∃ cs, t1 = t ++ cs
          ∧ match shaders m !! code_hash with
            | Some _ => List.filter is_compile cs = []
            | None =>
                ∃ type h,
                  List.filter is_compile cs = [CallShaderCreate text type h]
            end.
Proof.
  cbv zeta.
  destruct k as [regs setup|regs];
    cbn [key_hash resolve resolution generated_source is_vertex];
    intros Hp Hs Hrun.
  - specialize (Hs eq_refl).
    apply bind_Ok in Hrun as (r & t' & Hrun & [= <- <-]).
    destruct (shaders m !! ComputeHash64_code _) as [o|] eqn:Ho.
    + rewrite (UseProgrammableVertexShader_fetch _ _ _ _ _ Hp Hs Ho) in Hrun.
      injection Hrun as <- <-. cbn. split_and!; try done.
      by eexists [_].
    + rewrite (UseProgrammableVertexShader_compile _ _ _ _ Hp Hs Ho) in Hrun.
      destruct (OGLShaderStage_Create _ _ _ _ _) as [o t2|] eqn:Hc;
        [|discriminate].
      injection Hrun as <- <-. cbn.
      apply OGLShaderStage_Create_Ok in Hc as (_ & cs & -> & Hq).
      split_and!; try done.
      * by apply insert_subseteq.
      * rewrite lookup_insert_eq. by eexists.
      * eexists (_ :: _ :: cs). split; [by rewrite <- app_assoc|].
        do 2 eexists. cbn [List.filter is_compile].
        by rewrite (filter_compile_quiet _ Hq).
  - destruct (shaders m !! ComputeHash64_code _) as [o|] eqn:Ho.
    + rewrite (UseFragmentShader_fetch _ _ _ _ Hp Ho) in Hrun.
      injection Hrun as <- <-. cbn. split_and!; try done.
      by eexists [_].
    + rewrite (UseFragmentShader_compile _ _ _ Hp Ho) in Hrun.
      destruct (OGLShaderStage_Create _ _ _ _ _) as [o t2|] eqn:Hc;
        [|discriminate].
      injection Hrun as <- <-. cbn.
      apply OGLShaderStage_Create_Ok in Hc as (_ & cs & -> & Hq).
      split_and!; try done.
      * by apply insert_subseteq.
      * rewrite lookup_insert_eq. by eexists.
      * eexists (_ :: _ :: cs). split; [by rewrite <- app_assoc|].
        do 2 eexists. cbn [List.filter is_compile].
        by rewrite (filter_compile_quiet _ Hq).
Qed.


(** ** The linked-program cache *)

(** C5.  When the stored binary for the program hash is rejected by the
    driver (the installed handle is 0), [CreateProgram] returns a program
    linked from the three stage handles, and the table of binaries it
    leaves holds nothing of what it held before: it is empty, or holds
    only the binary queried from the freshly linked program under the
    same hash.  Every other key misses. *)
Theorem rejected_binary_discards_table pr0 h vs gs fs bc t e :
  bc !! h = Some e →
  LoadProgramBinary t (format e) (binary e) = 0 →
  let t1 := t ++ [CallProgramCreateBinary (format e) (binary e) 0] in
  let linked := LoadProgram t1 false [vs; gs; fs] in
  let q := QueryProgramBinary
             (t1 ++ [CallProgramCreate false [vs; gs; fs] linked]) linked in
  ∃ bc',
    CreateProgram pr0 h vs gs fs bc t
    = Ok ({| handle := linked |}, bc')
         (t1 ++ [CallProgramCreate false [vs; gs; fs] linked;
                 CallGetProgramBinary linked q.1 q.2])
    ∧ bc' = match q.2 with
            | [] => ∅
            | _ :: _ => {[h := {| format := q.1; binary := q.2 |}]}
            end
    ∧ ∀ k, k ≠ h → bc' !! k = None.
Proof.
  intros Hb Hrej t1 linked q.
  exists (match q.2 with
          | [] => ∅
          | _ :: _ => {[h := {| format := q.1; binary := q.2 |}]}
          end).
  split_and!.
  - by apply CreateProgram_rejected.
  - reflexivity.
  - intros k Hk. destruct (q.2); [apply lookup_empty|].
    by apply lookup_singleton_ne.
Qed.

(** [ApplyTo] in monolithic mode, case by case, for the active stages
    [vo], [go] and [fo]. *)
Lemma ApplyTo_monolithic_cases state m t vo go fo r t' :
  separable m = false →
  deref m (vs (current_shaders m)) t = Ok vo t →
  deref m (gs (current_shaders m)) t = Ok go t →
  deref m (fs (current_shaders m)) t = Ok fo t →
  ApplyTo state m t = Ok r t' →
  let h := ComputeHash64_stages (GetHash vo) (GetHash go) (GetHash fo) in
  let old := default OGLProgram_new (program_cache m !! h) in
  let handles := [GetHandle vo; GetHandle go; GetHandle fo] in
  ∃ pr,
    program_cache r.2 = <[h := pr]> (program_cache m)
    ∧ draw r.1 = {| shader_program := handle pr; program_pipeline := 0 |}
    ∧ (handle old ≠ 0 →
       pr = old ∧ t' = t ∧ binary_cache r.2 = binary_cache m)
    ∧ (handle old = 0 →
       ∃ created,
         (SetShaderUniformBlockBindings (handle pr);;
          SetShaderSamplerBindings (handle pr)) (t ++ created) = Ok tt t'
         ∧ match binary_cache m !! h with
           | Some e =>
               let installed := LoadProgramBinary t (format e) (binary e) in
               let install := CallProgramCreateBinary (format e) (binary e) installed in
               let link := CallProgramCreate false handles (handle pr) in
               let q := QueryProgramBinary (t ++ [install; link]) (handle pr) in
               if decide (installed = 0) then
                 handle pr = LoadProgram (t ++ [install]) false handles
                 ∧ created = [install; link;
                              CallGetProgramBinary (handle pr) q.1 q.2]
                 ∧ binary_cache r.2
                   = match q.2 with
                     | [] => ∅
                     | _ :: _ => {[h := {| format := q.1; binary := q.2 |}]}
                     end
               else
                 handle pr = installed ∧ created = [install]
                 ∧ binary_cache r.2 = binary_cache m
           | None =>
               let link := CallProgramCreate false handles (handle pr) in
               let q := QueryProgramBinary (t ++ [link]) (handle pr) in
               handle pr = LoadProgram t false handles
               ∧ created = [link; CallGetProgramBinary (handle pr) q.1 q.2]
               ∧ binary_cache r.2
                 = match q.2 with
                   | [] => binary_cache m
                   | _ :: _ =>
                       <[h := {| format := q.1; binary := q.2 |}]>
                         (binary_cache m)
                   end
           end)
    ∧ (handle pr ≠ 0 →
       ∀ ops s1 w2 t2 state2 vo2 go2 fo2,
         run ops (s1, r.2) t' = Ok w2 t2 →
         deref w2.2 (vs (current_shaders w2.2)) t2 = Ok vo2 t2 →
         deref w2.2 (gs (current_shaders w2.2)) t2 = Ok go2 t2 →
         deref w2.2 (fs (current_shaders w2.2)) t2 = Ok fo2 t2 →
         GetHash vo2 = GetHash vo → GetHash go2 = GetHash go →
         GetHash fo2 = GetHash fo →
         ApplyTo state2 w2.2 t2
         = Ok ({| draw := {| shader_program := handle pr;
                             program_pipeline := 0 |} |}, w2.2) t2).
Proof.
  intros Hsep Hv Hg Hf Hrun h old handles.
  assert (∀ pr, program_cache r.2 = <[h := pr]> (program_cache m) →
                separable r.2 = false → handle pr ≠ 0 →
     ∀ ops s1 w2 t2 state2 vo2 go2 fo2,
       run ops (s1, r.2) t' = Ok w2 t2 →
       deref w2.2 (vs (current_shaders w2.2)) t2 = Ok vo2 t2 →
       deref w2.2 (gs (current_shaders w2.2)) t2 = Ok go2 t2 →
       deref w2.2 (fs (current_shaders w2.2)) t2 = Ok fo2 t2 →
       GetHash vo2 = GetHash vo → GetHash go2 = GetHash go →
       GetHash fo2 = GetHash fo →
       ApplyTo state2 w2.2 t2
       = Ok ({| draw := {| shader_program := handle pr;
                           program_pipeline := 0 |} |}, w2.2) t2) as Honce.
  { intros pr Hpc Hsep' Hne ops s1 w2 t2 state2 vo2 go2 fo2 Hops Hv2 Hg2 Hf2
      Ev Eg Ef.
    apply frame_run in Hops as (S & _ & _ & _ & _ & _ & _ & _ & L).
    cbn [snd] in S, L.
    apply (ApplyTo_cached _ _ _ _ _ _ Hv2 Hg2 Hf2); [congruence| |done].
    rewrite Ev, Eg, Ef. apply L; [|done].
    fold h. rewrite Hpc. apply lookup_insert_eq. }
  destruct (decide (handle old = 0)) as [Hz|Hnz].
  - (* no program with a handle is cached under the hash *)
    rewrite (ApplyTo_create _ _ _ _ _ _ Hv Hg Hf Hsep Hz) in Hrun.
    fold h old in Hrun. fold handles.
    destruct (binary_cache m !! h) as [e|] eqn:Hb.
    + destruct (decide (LoadProgramBinary t (format e) (binary e) = 0))
        as [Hrej|Hacc].
      * rewrite (CreateProgram_rejected _ _ _ _ _ _ _ _ Hb Hrej) in Hrun.
        cbv zeta in Hrun. rewrite <- !app_assoc in Hrun. cbn [app] in Hrun.
        destruct (bind _ _ _) as [[] t2|] eqn:Hbind in Hrun; [|discriminate].
        injection Hrun as <- <-. eexists. split_and!; [done | done | done | |].
        -- intros _. eexists. split; [exact Hbind|].
           cbv zeta. rewrite Hrej. rewrite decide_True by done. done.
        -- by apply Honce.
      * rewrite (CreateProgram_installed _ _ _ _ _ _ _ _ Hb Hacc) in Hrun.
        destruct (bind _ _ _) as [[] t2|] eqn:Hbind in Hrun; [|discriminate].
        injection Hrun as <- <-. eexists. split_and!; [done | done | done | |].
        -- intros _. eexists. split; [exact Hbind|].
           cbv zeta. rewrite decide_False by done. done.
        -- by apply Honce.
    + rewrite (CreateProgram_link_only _ _ _ _ _ _ _ Hz Hb) in Hrun.
      cbv zeta in Hrun.
      destruct (bind _ _ _) as [[] t2|] eqn:Hbind in Hrun; [|discriminate].
      injection Hrun as <- <-. eexists. split_and!; [done | done | done | |].
      * intros _. eexists. split; [exact Hbind|]. done.
      * by apply Honce.
  - (* a program with a handle is cached *)
    destruct (program_cache m !! h) as [pr|] eqn:Hpr; [|done].
    cbn in old. subst old.
    rewrite (ApplyTo_cached _ _ _ _ _ _ Hv Hg Hf _ Hsep Hpr Hnz) in Hrun.
    injection Hrun as <- <-. exists pr. cbn [fst snd draw].
    split_and!; [by rewrite insert_id | done | done | done |].
    apply Honce; [by rewrite insert_id | done].
Qed.

(** The programs linked by [ApplyTo] in monolithic mode are linked from
    the handles of the three active stages, and the program published is
    the one cached under the hash of the three stage hashes. *)
Lemma ApplyTo_monolithic_links state m t vo go fo r t' :
  separable m = false →
  deref m (vs (current_shaders m)) t = Ok vo t →
  deref m (gs (current_shaders m)) t = Ok go t →
  deref m (fs (current_shaders m)) t = Ok fo t →
  ApplyTo state m t = Ok r t' →
  program_cache r.2
    !! ComputeHash64_stages (GetHash vo) (GetHash go) (GetHash fo)
  = Some {| handle := shader_program (draw r.1) |}
  ∧ ∃ cs, t' = t ++ cs
          ∧ ∀ sep stages x, CallProgramCreate sep stages x ∈ cs →
              sep = false ∧ stages = [GetHandle vo; GetHandle go; GetHandle fo].
Proof.
  intros Hsep Hv Hg Hf Hrun.
  set (h := ComputeHash64_stages (GetHash vo) (GetHash go) (GetHash fo)).
  destruct (decide (handle (default OGLProgram_new (program_cache m !! h)) = 0))
    as [Hz|Hnz].
  - rewrite (ApplyTo_create _ _ _ _ _ _ Hv Hg Hf Hsep Hz) in Hrun. fold h in Hrun.
    assert (∃ pr bc' created,
              CreateProgram (default OGLProgram_new (program_cache m !! h)) h
                (GetHandle vo) (GetHandle go) (GetHandle fo) (binary_cache m) t
              = Ok (pr, bc') (t ++ created)
              ∧ ∀ sep stages x, CallProgramCreate sep stages x ∈ created →
                  sep = false
                  ∧ stages = [GetHandle vo; GetHandle go; GetHandle fo])
      as (pr & bc' & created & Hcreate & Hlinks).
    { destruct (binary_cache m !! h) as [e|] eqn:Hb.
      - destruct (decide (LoadProgramBinary t (format e) (binary e) = 0))
          as [Hrej|Hacc].
        + rewrite (CreateProgram_rejected _ _ _ _ _ _ _ _ Hb Hrej).
          cbv zeta. rewrite <- !app_assoc. cbn [app].
          do 3 eexists. split; [reflexivity|].
          intros sep stages x Hin.
          repeat (apply elem_of_cons in Hin as [Hin|Hin]; [by inversion Hin|]).
          by apply elem_of_nil in Hin.
        + rewrite (CreateProgram_installed _ _ _ _ _ _ _ _ Hb Hacc).
          do 3 eexists. split; [reflexivity|].
          intros sep stages x Hin.
          repeat (apply elem_of_cons in Hin as [Hin|Hin]; [by inversion Hin|]).
          by apply elem_of_nil in Hin.
      - rewrite (CreateProgram_link_only _ _ _ _ _ _ _ Hz Hb).
        do 3 eexists. split; [reflexivity|].
        intros sep stages x Hin.
        repeat (apply elem_of_cons in Hin as [Hin|Hin]; [by inversion Hin|]).
        by apply elem_of_nil in Hin. }
    rewrite Hcreate in Hrun.
    destruct (bind _ _ _) as [[] t2|] eqn:Hbind in Hrun; [|discriminate].
    injection Hrun as <- <-. cbn [fst snd draw shader_program].
    split; [cbn; rewrite lookup_insert_eq; by destruct pr|].
    assert (emits is_binding
              (SetShaderUniformBlockBindings (handle pr);;
               SetShaderSamplerBindings (handle pr))) as Hem.
    { apply emits_bind; [apply emits_SetShaderUniformBlockBindings|].
      intros _. apply emits_SetShaderSamplerBindings. }
    apply Hem in Hbind as (bs & -> & Hbs).
    exists (created ++ bs). split; [by rewrite app_assoc|].
    intros sep stages x [Hin|Hin]%elem_of_app; [by eapply Hlinks|].
    rewrite Forall_forall in Hbs. by destruct (Hbs _ Hin).
  - destruct (program_cache m !! h) as [pr|] eqn:Hpr; [|done].
    rewrite (ApplyTo_cached _ _ _ _ _ _ Hv Hg Hf _ Hsep Hpr Hnz) in Hrun.
    injection Hrun as <- <-. cbn [fst snd draw shader_program].
    split; [rewrite Hpr; by destruct pr|].
    exists []. split; [by rewrite app_nil_r|].
    intros sep stages x Hin. by apply elem_of_nil in Hin.
Qed.

(** ** Construction *)

Lemma Impl_new_Ok sep amd usc u d t0 m0 d0 t1 :
  Impl_new sep amd usc u d t0 = Ok (m0, d0) t1 →
  separable m0 = sep
  ∧ trivial_geometry_shader m0 = OGLShaderStage_new sep
  ∧ program_cache m0 = ∅
  ∧ (sep = true →
     binary_cache m0 = ∅ ∧ d0 = d
     ∧ pipeline m0 = {| pipeline_handle := GenProgramPipeline t0 |}).
Proof.
  unfold Impl_new. intros (x & t2 & Hpre & Hrest)%bind_Ok.
  destruct x as [[pl bc] d'].
  apply bind_Ok in Hrest as ([] & t3 & _ & Hrest).
  apply bind_Ok in Hrest as (tv & t4 & _ & [= <- <- <-]).
  cbn. split_and!; try done.
  intros ->. cbn in Hpre. by injection Hpre as <- <- <- _.
Qed.

(** C8.  A manager constructed in separable mode, after any operations:
    the construction loaded nothing from the disk, the linked-program
    cache and the table of binaries are empty and stay empty over every
    [ApplyTo], destruction writes nothing, and [ApplyTo] publishes the
    handle of the pipeline object created at construction together with
    program handle 0. *)
Theorem separable_mode_has_no_programs amd usc u d t0 m0 d0 t1 ops s0 w t :
  Impl_new true amd usc u d t0 = Ok (m0, d0) t1 →
  run ops (s0, m0) t1 = Ok w t →
  d0 = d
  ∧ program_cache w.2 = ∅ ∧ binary_cache w.2 = ∅
  ∧ (∀ order, Impl_delete usc order w.2 d0 = d0)
  ∧ ∀ state r t',
      ApplyTo state w.2 t = Ok r t' →
      draw r.1 = {| shader_program := 0;
                    program_pipeline := GenProgramPipeline t0 |}
      ∧ program_cache r.2 = ∅ ∧ binary_cache r.2 = ∅.
Proof.
  intros Hnew Hrun.
  destruct (Impl_new_Ok _ _ _ _ _ _ _ _ _ Hnew) as (Hsep & _ & Hpc & Hs).
  destruct (Hs eq_refl) as (Hbc & -> & Hpl).
  apply frame_run in Hrun as (S & _ & P & _ & _ & _ & _ & M & _).
  cbn [snd] in *. destruct (M Hsep) as [Epc Ebc].
  assert (separable w.2 = true) as Hsepw by congruence.
  split_and!; [done | congruence | congruence | |].
  - intros order. unfold Impl_delete. by rewrite Hsepw.
  - intros state r t' Happly.
    destruct (ApplyTo_Ok_deref _ _ _ _ _ Happly) as (vo & go & fo & Hv & Hg & Hf).
    rewrite (ApplyTo_separable _ _ _ _ _ _ Hv Hg Hf Hsepw) in Happly.
    injection Happly as <- _. cbn [fst snd draw].
    rewrite P, Hpl. split_and!; [done | congruence | congruence].
Qed.

(** C9, amended.  [ApplyTo] with a null active stage never returns and
    makes no call: it stops the process on the dereference of an invalid
    pointer, not on an assertion; when the vertex stage is the null one
    the fault is the null dereference. *)
Theorem apply_with_null_stage state m t :
  vs (current_shaders m) = nullptr ∨ gs (current_shaders m) = nullptr
  ∨ fs (current_shaders m) = nullptr →
  (∃ f, ApplyTo state m t = Halt f
        ∧ (f = NullDereference ∨ f = WildDereference))
  ∧ (vs (current_shaders m) = nullptr →
     ApplyTo state m t = Halt NullDereference).
Proof.
  intros Hnull. split.
  - unfold ApplyTo, bind.
    destruct (deref m (vs (current_shaders m)) t) as [vo t1|f] eqn:Hv.
    + destruct (deref m (gs (current_shaders m)) t1) as [go t2|f] eqn:Hg.
      * destruct (deref m (fs (current_shaders m)) t2) as [fo t3|f] eqn:Hf.
        -- destruct Hnull as [E|[E|E]]; rewrite E in *; discriminate.
        -- exists f. split; [done | by eapply deref_Halt].
      * exists f. split; [done | by eapply deref_Halt].
    + exists f. split; [done | by eapply deref_Halt].
  - intros E. unfold ApplyTo, bind. by rewrite E.
Qed.

(** C10.  The trivial geometry stage is constructed and never compiled:
    after construction and any operations its content hash is 0 and its
    handle is 0.  [UseTrivialGeometryShader] selects it, and every
    [ApplyTo] while it is selected binds handle 0 as the geometry stage
    of the pipeline in separable mode; in monolithic mode the program is
    cached under the hash of (vertex hash, 0, fragment hash) and every
    program linked is linked from (vertex handle, 0, fragment handle). *)
Theorem trivial_geometry_stage sep amd usc u d t0 m0 d0 t1 ops s0 w t :
  Impl_new sep amd usc u d t0 = Ok (m0, d0) t1 →
  run ops (s0, m0) t1 = Ok w t →
  GetHash (trivial_geometry_shader w.2) = 0
  ∧ GetHandle (trivial_geometry_shader w.2) = 0
  ∧ gs (current_shaders (UseTrivialGeometryShader w.2)) = trivial_geometry
  ∧ (gs (current_shaders w.2) = trivial_geometry →
     ∀ state r t',
       ApplyTo state w.2 t = Ok r t' →
       ∃ vo fo cs,
         deref w.2 (vs (current_shaders w.2)) t = Ok vo t
         ∧ deref w.2 (fs (current_shaders w.2)) t = Ok fo t
         ∧ t' = t ++ cs
         ∧ if sep then
             CallUseProgramStages (pipeline_handle (pipeline w.2))
               GL_GEOMETRY_SHADER_BIT 0 ∈ cs
           else
             program_cache r.2 !! ComputeHash64_stages (GetHash vo) 0 (GetHash fo)
             = Some {| handle := shader_program (draw r.1) |}
             ∧ ∀ s stages x, CallProgramCreate s stages x ∈ cs →
                 stages = [GetHandle vo; 0; GetHandle fo]).
Proof.
  intros Hnew Hrun.
  destruct (Impl_new_Ok _ _ _ _ _ _ _ _ _ Hnew) as (Hsep & Htg & _).
  apply frame_run in Hrun as (S & _ & _ & _ & G & _). cbn [snd] in *.
  assert (trivial_geometry_shader w.2 = OGLShaderStage_new sep) as Hgeo
    by congruence.
  assert (GetHash (trivial_geometry_shader w.2) = 0
          ∧ GetHandle (trivial_geometry_shader w.2) = 0) as [Hh0 Hd0]
    by (rewrite Hgeo; by destruct sep).
  split_and!; [done | done | done |].
  intros Hsel state r t' Happly.
  destruct (ApplyTo_Ok_deref _ _ _ _ _ Happly) as (vo & go & fo & Hv & Hg & Hf).
  assert (go = trivial_geometry_shader w.2) as ->
    by (rewrite Hsel in Hg; by injection Hg).
  assert (separable w.2 = sep) as Hmode by congruence.
  exists vo, fo. destruct sep.
  - rewrite (ApplyTo_separable _ _ _ _ _ _ Hv Hg Hf Hmode) in Happly.
    injection Happly as _ <-. eexists. split_and!; [done | done | done |].
    rewrite Hd0. apply elem_of_app. right. set_solver.
  - destruct (ApplyTo_monolithic_links _ _ _ _ _ _ _ _ Hmode
                Hv Hg Hf Happly) as (Hpc & cs & -> & Hlinks).
    rewrite Hh0, Hd0 in *. exists cs. split_and!; [done | done | done | done |].
    intros s stages x Hin. by destruct (Hlinks _ _ _ Hin).
Qed.

End ManagerFacts.


(** ** The claims on the demo platform *)

Local Ltac by_computation := vm_compute; first [reflexivity | discriminate | lia].

Lemma vertex_resolution_witness :
  let hit := demo_after false [OpUseProgrammableVertexShader 10 0] in
  let boot := demo_boot false in
  (* recorded resolution: key 10 resolved before *)
  UseProgrammableVertexShader 10 0 hit.1 hit.2
  = Ok (bool_decide (cached 1002 ≠ nullptr), set_vs (cached 1002) hit.1) hit.2
  (* first occurrence, empty source: key 3 *)
  ∧ UseProgrammableVertexShader 3 0 boot.1 boot.2
    = Ok (false,
          set_vs nullptr
            (set_shaders_ref
               (<[ComputeHash64_vs (PicaVSConfig_new 3 0) := nullptr]>
                  (shaders_ref boot.1)) boot.1))
         (boot.2 ++ [CallGenerateVertexShader (PicaVSConfig_new 3 0)])
  (* first occurrence of key 11, its source is cached already *)
  ∧ UseProgrammableVertexShader 11 0 hit.1 hit.2
    = Ok (true,
          set_vs
            (cached
               (ComputeHash64_code
                  (GenerateVertexShader 0 (PicaVSConfig_new 11 0)
                     (separable hit.1))))
            (set_shaders_ref
               (<[ComputeHash64_vs (PicaVSConfig_new 11 0) :=
                    cached
                      (ComputeHash64_code
                         (GenerateVertexShader 0 (PicaVSConfig_new 11 0)
                            (separable hit.1)))]>
                  (shaders_ref hit.1)) hit.1))
         (hit.2 ++ [CallGenerateVertexShader (PicaVSConfig_new 11 0)])
  (* first occurrence of key 10 and of its source: the compile returns *)
  ∧ ∃ o t',
      OGLShaderStage_Create (OGLShaderStage_new (separable boot.1))
        (GenerateVertexShader 0 (PicaVSConfig_new 10 0) (separable boot.1))
        GL_VERTEX_SHADER
        (ComputeHash64_code
           (GenerateVertexShader 0 (PicaVSConfig_new 10 0) (separable boot.1)))
        (boot.2 ++ [CallGenerateVertexShader (PicaVSConfig_new 10 0)])
      = Ok o t'.
Proof.
  intros hit boot. split_and!.
  - refine (proj1 (vertex_resolution 10 0 hit.1 hit.2) (cached 1002) _).
    by_computation.
  - refine (proj1 (proj2 (vertex_resolution 3 0 boot.1 boot.2)) _ _);
      by_computation.
  - refine (proj1 (proj2 (proj2 (vertex_resolution 11 0 hit.1 hit.2)))
              {| shader_or_program := which_0 {| shader_handle := 4 |};
                 hash := 1002 |} _ _ _); by_computation.
  - refine (proj2 (proj2 (proj2 (proj2
              (vertex_resolution 10 0 boot.1 boot.2))) _ _ _) _);
      by_computation.
Defined.

Lemma resolution_is_stable_witness :
  let v1 := demo_after false [OpUseProgrammableVertexShader 10 0] in
  let v2 := demo_run false (OpUseProgrammableVertexShader 10 0 :: demo_ops) in
  let g1 := demo_after false [OpUseFixedGeometryShader 5] in
  let g2 := demo_run false (OpUseFixedGeometryShader 5 :: demo_ops) in
  let f1 := demo_after false [OpUseFragmentShader 1] in
  let f2 := demo_run false (OpUseFragmentShader 1 :: demo_ops) in
  UseProgrammableVertexShader 10 0 v2.1.2 v2.2
  = Ok (true, set_vs (vs (current_shaders v1.1)) v2.1.2) v2.2
  ∧ UseFixedGeometryShader 5 g2.1.2 g2.2
    = Ok (set_gs (gs (current_shaders g1.1)) g2.1.2) g2.2
  ∧ UseFragmentShader 1 f2.1.2 f2.2
    = Ok (set_fs (fs (current_shaders f1.1)) f2.1.2) f2.2
  ∧ ((∀ key_hash p, shaders_ref f1.1 !! key_hash = Some p →
                    shaders_ref f2.1.2 !! key_hash = Some p)
     ∧ (∀ key o, shaders f1.1 !! key = Some o →
                 shaders f2.1.2 !! key = Some o)).
Proof.
  intros v1 v2 g1 g2 f1 f2. split_and!.
  - refine (proj1 (resolution_is_stable demo_ops demo_state v2.1 v1.2 v2.2)
              10 0 (demo_boot false).1 (demo_boot false).2 true v1.1 _ _);
      by_computation.
  - refine (proj1 (proj2 (resolution_is_stable demo_ops demo_state g2.1 g1.2 g2.2))
              5 (demo_boot false).1 (demo_boot false).2 g1.1 _ _);
      by_computation.
  - refine (proj1 (proj2 (proj2
              (resolution_is_stable demo_ops demo_state f2.1 f1.2 f2.2)))
              1 (demo_boot false).1 (demo_boot false).2 f1.1 _ _);
      by_computation.
  - refine (proj1 (proj2 (proj2 (proj2
              (resolution_is_stable demo_ops demo_state f2.1 f1.2 f2.2)))
              f1.1 _)); by_computation.
  - refine (proj2 (proj2 (proj2 (proj2
              (resolution_is_stable demo_ops demo_state f2.1 f1.2 f2.2)))
              f1.1 _)); by_computation.
Defined.



Lemma rejected_binary_discards_table_witness :
  ∃ pr bc' t',
    CreateProgram OGLProgram_new 9 4 0 6 demo_table (demo_boot false).2
    = Ok (pr, bc') t'
    ∧ bc' !! 7 = None.
Proof.
  destruct (rejected_binary_discards_table OGLProgram_new 9 4 0 6 demo_table
              (demo_boot false).2 {| format := 3; binary := [] |})
    as (bc' & Heq & _ & Hmiss); [by_computation | by_computation |].
  eexists _, bc', _. split; [exact Heq | apply Hmiss; lia].
Defined.

Lemma separable_mode_has_no_programs_witness :
  let w := demo_run true demo_separable_ops in
  let w' := demo_run true (demo_separable_ops ++ [OpApplyTo]) in
  program_cache w.1.2 = ∅ ∧ binary_cache w.1.2 = ∅
  ∧ draw w'.1.1 = {| shader_program := 0;
                     program_pipeline := GenProgramPipeline [] |}.
Proof.
  intros w w'.
  destruct (separable_mode_has_no_programs false false demo_garbage demo_disk
              [] (demo_boot true).1 demo_disk (demo_boot true).2
              demo_separable_ops demo_state w.1 w.2)
    as (_ & Hp & Hb & _ & Happly); [by_computation | by_computation |].
  split_and!; [exact Hp | exact Hb |].
  destruct (Happly demo_state w'.1 w'.2) as (Hdraw & _); [by_computation|].
  exact Hdraw.
Defined.

Lemma apply_with_null_stage_witness :
  let st := demo_after false [OpUseProgrammableVertexShader 3 0] in
  ApplyTo demo_state st.1 st.2 = Halt NullDereference.
Proof.
  intros st.
  destruct (apply_with_null_stage demo_state st.1 st.2) as [_ Hnull].
  - left. by_computation.
  - apply Hnull. by_computation.
Defined.

(** C9 as stated fails: after a vertex configuration resolved to "no
    programmable stage" (key 3 of the demo platform), [ApplyTo] stops on
    the null dereference, and no assertion fails. *)
Lemma null_stage_does_not_assert :
  let st := demo_after false [OpUseProgrammableVertexShader 3 0] in
  ¬ null_stage_asserts demo_state st.1 st.2.
Proof.
  intros st Hclaim. destruct Hclaim as [msg Hmsg].
  - left. by_computation.
  - vm_compute in Hmsg. discriminate.
Qed.

Lemma trivial_geometry_stage_witness :
  let st := demo_run false demo_selected in
  let w := demo_run false (demo_selected ++ [OpApplyTo]) in
  let sst := demo_run true demo_selected in
  let sw := demo_run true (demo_selected ++ [OpApplyTo]) in
  GetHash (trivial_geometry_shader st.1.2) = 0
  ∧ GetHandle (trivial_geometry_shader st.1.2) = 0
  (* monolithic: the program is cached under a hash made with 0 *)
  ∧ (∃ vo fo cs,
       deref st.1.2 (vs (current_shaders st.1.2)) st.2 = Ok vo st.2
       ∧ deref st.1.2 (fs (current_shaders st.1.2)) st.2 = Ok fo st.2
       ∧ w.2 = st.2 ++ cs
       ∧ program_cache w.1.2
           !! ComputeHash64_stages (GetHash vo) 0 (GetHash fo)
         = Some {| handle := shader_program (draw w.1.1) |}
       ∧ ∀ s stages x, CallProgramCreate s stages x ∈ cs →
           stages = [GetHandle vo; 0; GetHandle fo])
  (* separable: handle 0 is bound as the geometry stage *)
  ∧ (∃ vo fo cs,
       deref sst.1.2 (vs (current_shaders sst.1.2)) sst.2 = Ok vo sst.2
       ∧ deref sst.1.2 (fs (current_shaders sst.1.2)) sst.2 = Ok fo sst.2
       ∧ sw.2 = sst.2 ++ cs
       ∧ CallUseProgramStages (pipeline_handle (pipeline sst.1.2))
           GL_GEOMETRY_SHADER_BIT 0 ∈ cs).
Proof.
  intros st w sst sw.
  destruct (trivial_geometry_stage false false false demo_garbage demo_disk
              [] (demo_boot false).1 demo_disk (demo_boot false).2
              demo_selected demo_state st.1 st.2)
    as (Hh & Hd & _ & Happly); [by_computation | by_computation |].
  destruct (trivial_geometry_stage true false false demo_garbage demo_disk
              [] (demo_boot true).1 demo_disk (demo_boot true).2
              demo_selected demo_state sst.1 sst.2)
    as (_ & _ & _ & Hsapply); [by_computation | by_computation |].
  split_and!; [exact Hh | exact Hd | |].
  - apply (Happly ltac:(by_computation) demo_state w.1 w.2). by_computation.
  - apply (Hsapply ltac:(by_computation) demo_state sw.1 sw.2). by_computation.
Defined.

(** * Further properties of the store file *)

Section MorePersistence.

Implicit Types (f : IOFile) (d : Disk) (bs rest : list byte).

(** A read clears the good flag exactly when fewer bytes are left than
    asked for, and always consumes what it can. *)
Lemma ReadBytes_file f dst n :
  m_file (ReadBytes f dst n).1 = drop n (m_file f)
  ∧ m_good (ReadBytes f dst n).1
    = m_good f && bool_decide (n ≤ List.length (m_file f))%nat.
Proof.
  unfold ReadBytes; cbn [fst m_file m_good]. split; [done|]. f_equal.
  rewrite length_take. case_bool_decide.
  - apply Nat.eqb_eq. lia.
  - apply Nat.eqb_neq. lia.
Qed.

Lemma ReadInt_file n f old :
  m_file (ReadInt n f old).1 = drop n (m_file f)
  ∧ m_good (ReadInt n f old).1
    = m_good f && bool_decide (n ≤ List.length (m_file f))%nat.
Proof.
  unfold ReadInt.
  pose proof (ReadBytes_file f (le_split n old) n) as H.
  by destruct (ReadBytes f (le_split n old) n).
Qed.

Lemma WriteBytes_file f src :
  m_room (WriteBytes f src (List.length src)) = (m_room f - List.length src)%nat
  ∧ m_good (WriteBytes f src (List.length src))
    = m_good f && bool_decide (List.length src ≤ m_room f)%nat
  ∧ m_file (WriteBytes f src (List.length src))
    = m_file f ++ take (m_room f) src.
Proof.
  unfold WriteBytes; cbn [m_room m_good m_file]. rewrite firstn_all.
  rewrite length_take. split_and!; [lia | | done]. f_equal.
  case_bool_decide.
  - apply Nat.eqb_eq. lia.
  - apply Nat.eqb_neq. lia.
Qed.

Lemma WriteInt_file n f v :
  m_room (WriteInt n f v) = (m_room f - n)%nat
  ∧ m_good (WriteInt n f v) = m_good f && bool_decide (n ≤ m_room f)%nat
  ∧ m_file (WriteInt n f v) = m_file f ++ take (m_room f) (le_split n v).
Proof.
  unfold WriteInt. pose proof (WriteBytes_file f (le_split n v)) as H.
  by rewrite length_le_split in H.
Qed.

Lemma emplace_subseteq {V} k (v : V) (m : Zmap V) : m ⊆ emplace k v m.
Proof.
  unfold emplace. destruct (m !! k) eqn:Hk; [done|]. by apply insert_subseteq.
Qed.

(** The loop only adds entries and touches the file only to delete it. *)
Lemma LoadProgramCache_loop_grows count : ∀ file hash fmt len bin bc d,
  bc ⊆ (LoadProgramCache_loop count file hash fmt len bin bc d).1
  ∧ ((LoadProgramCache_loop count file hash fmt len bin bc d).2 = d
     ∨ (LoadProgramCache_loop count file hash fmt len bin bc d).2 = Delete d).
Proof.
  induction count as [|count IH]; intros file hash fmt len bin bc d.
  - cbn. auto.
  - cbn [LoadProgramCache_loop].
    destruct (ReadInt 8 file hash) as [f1 h1].
    destruct (ReadInt 4 f1 fmt) as [f2 fm2].
    destruct (ReadInt 4 f2 len) as [f3 l3].
    destruct (ReadBytes f3 _ _) as [f4 b4].
    destruct (negb (m_good f4)).
    + cbn [fst snd]. split; [apply emplace_subseteq | by right].
    + destruct (IH f4 h1 fm2 l3 b4
                  (emplace h1 {| format := fm2; binary := b4 |} bc) d)
        as [Hsub Hd].
      split; [|exact Hd]. etrans; [apply emplace_subseteq | exact Hsub].
Qed.

(** Loading a well-formed store, whatever follows it in the file. *)
Lemma LoadProgramCache_store_bytes u bc d entries junk :
  Forall (λ p, entity_fits p.1 p.2) entries →
  Z.of_nat (List.length entries) < 2 ^ 31 →
  cache_file d = Some (store_bytes entries ++ junk) →
  LoadProgramCache u bc d = (bc ∪ list_to_map entries, d).
Proof.
  intros Hfit Hcount Hfile. unfold LoadProgramCache. rewrite Hfile.
  unfold store_bytes. rewrite <- !app_assoc.
  rewrite (ReadInt_exact 4) by (vm_compute; split; congruence).
  change (negb (PROGRAM_CACHE_VERSION =? PROGRAM_CACHE_VERSION)) with false.
  cbn match.
  rewrite (ReadInt_exact 4) by (change (Z.of_nat 4 * 8) with 32; lia).
  rewrite cast_s32_small, Nat2Z.id by lia.
  rewrite LoadProgramCache_loop_exact by exact Hfit.
  by rewrite foldl_emplace_union.
Qed.

(** Saving to a device with room. *)
Lemma SaveProgramCache_fits order table d :
  Forall (λ p, entity_fits p.1 p.2) (order table) →
  List.length (order table) = size table →
  Z.of_nat (size table) < 2 ^ 31 →
  writable d = true →
  (List.length (store_bytes (order table)) <= free_space d)%nat →
  SaveProgramCache order table d = store d (store_bytes (order table)).
Proof.
  intros Hfits Hlen Hsize Hw Hroom.
  unfold store_bytes in Hroom. rewrite !length_app, !length_le_split in Hroom.
  unfold SaveProgramCache. rewrite Hw. cbn [negb].
  rewrite cast_s32_small by lia.
  rewrite (WriteInt_fits 4 _ PROGRAM_CACHE_VERSION) by (cbn [m_room]; lia).
  rewrite (WriteInt_fits 4) by (cbn [m_room]; lia).
  edestruct (SaveProgramCache_loop_fits (order table)) as (f' & -> & Hfile & _);
    [exact Hfits | | reflexivity | ].
  - cbn [m_room]. lia.
  - rewrite Hfile. cbn [m_file]. unfold store_bytes.
    rewrite Hlen, <- app_assoc. reflexivity.
Qed.

(** A file cut inside its entries: some read of the loop comes up short
    and the file is deleted. *)
Lemma LoadProgramCache_loop_cut entries : ∀ n room hash fmt len bin bc d,
  Forall (λ p, entity_fits p.1 p.2) entries →
  (n < List.length (concat (map entry_bytes entries)))%nat →
  (LoadProgramCache_loop (List.length entries)
     {| m_file := take n (concat (map entry_bytes entries)); m_room := room;
        m_good := true |} hash fmt len bin bc d).2
  = Delete d.
Proof.
  induction entries as [|[k e] entries IH];
    intros n room hash fmt len bin bc d Hfit Hn; [cbn in Hn; lia|].
  apply Forall_cons in Hfit as [(Hk & Hf & Hl) Hfit]. cbn [fst snd] in *.
  cbn [map concat] in *. rewrite length_app, length_entry_bytes in Hn.
  cbn [fst snd] in Hn.
  cbn [List.length LoadProgramCache_loop].
  destruct (decide (16 + List.length (binary e) ≤ n)%nat) as [Hwhole|Hpart].
  - (* the first entry is complete *)
    rewrite take_app_ge by (rewrite length_entry_bytes; cbn [fst snd]; lia).
    rewrite length_entry_bytes. cbn [fst snd].
    unfold entry_bytes at 1. cbn [fst snd]. rewrite <- !app_assoc.
    rewrite (ReadInt_exact 8) by (change (Z.of_nat 8 * 8) with 64; lia).
    rewrite (ReadInt_exact 4) by (change (Z.of_nat 4 * 8) with 32; lia).
    rewrite (ReadInt_exact 4) by (change (Z.of_nat 4 * 8) with 32; lia).
    rewrite Nat2Z.id.
    rewrite ReadBytes_exact by apply length_resize.
    cbn [m_good negb]. apply IH; [exact Hfit | lia].
  - (* the file ends inside the first entry *)
    rewrite take_app_le by (rewrite length_entry_bytes; cbn [fst snd]; lia).
    destruct (decide (16 ≤ n)%nat) as [Hhead|Hhead].
    + (* after its length field: the bytes of the binary are missing *)
      unfold entry_bytes. cbn [fst snd].
      rewrite (take_app_ge (le_split 8 k)) by (rewrite length_le_split; lia).
      rewrite (take_app_ge (le_split 4 (format e)))
        by (rewrite !length_le_split; lia).
      rewrite (take_app_ge (le_split 4 _)) by (rewrite !length_le_split; lia).
      rewrite !length_le_split.
      rewrite (ReadInt_exact 8) by (change (Z.of_nat 8 * 8) with 64; lia).
      rewrite (ReadInt_exact 4) by (change (Z.of_nat 4 * 8) with 32; lia).
      rewrite (ReadInt_exact 4) by (change (Z.of_nat 4 * 8) with 32; lia).
      rewrite Nat2Z.id.
      match goal with
      | |- context [ReadBytes ?f ?dst ?m] =>
          destruct (ReadBytes_file f dst m) as [_ Hgood];
          destruct (ReadBytes f dst m) as [f4 b4]
      end.
      cbn [fst m_good m_file] in Hgood.
      rewrite bool_decide_eq_false_2 in Hgood
        by (rewrite length_take; lia).
      rewrite Hgood. reflexivity.
    + (* inside the key, the format tag or the length field *)
      set (p := take n (entry_bytes (k, e))).
      assert (List.length p = n) as Hp.
      { subst p. rewrite length_take, length_entry_bytes. cbn [fst snd]. lia. }
      destruct (ReadInt_file 8 {| m_file := p; m_room := room; m_good := true |}
                  hash) as [F1 G1].
      destruct (ReadInt 8 _ hash) as [f1 h1]. cbn [fst m_file m_good] in F1, G1.
      destruct (ReadInt_file 4 f1 fmt) as [F2 G2].
      destruct (ReadInt 4 f1 fmt) as [f2 fm2]. cbn [fst] in F2, G2.
      destruct (ReadInt_file 4 f2 len) as [F3 G3].
      destruct (ReadInt 4 f2 len) as [f3 l3]. cbn [fst] in F3, G3.
      match goal with
      | |- context [ReadBytes ?f ?dst ?m] =>
          destruct (ReadBytes_file f dst m) as [_ G4];
          destruct (ReadBytes f dst m) as [f4 b4]
      end.
      cbn [fst] in G4.
      assert (m_good f3 = false) as Hbad.
      { rewrite G3, G2, G1, F2, F1, !length_drop, Hp.
        repeat case_bool_decide; try reflexivity; lia. }
      rewrite G4, Hbad. reflexivity.
Qed.

(** X1.  A cache file that starts with a well-formed store is decoded
    entry by entry, whatever bytes follow the last entry, and the file is
    kept.  Entries already in the table win over entries of the file, and
    of two entries of the file with one key the first wins. *)
Theorem load_decodes_store u bc d entries junk :
  Forall (λ p, entity_fits p.1 p.2) entries →
  Z.of_nat (List.length entries) < 2 ^ 31 →
  cache_file d = Some (store_bytes entries ++ junk) →
  LoadProgramCache u bc d = (bc ∪ list_to_map entries, d)
  ∧ (∀ k e, bc !! k = Some e → (LoadProgramCache u bc d).1 !! k = Some e)
  ∧ (∀ k e later, bc !! k = None → entries = (k, e) :: later →
       (LoadProgramCache u bc d).1 !! k = Some e).
Proof.
  intros Hfit Hcount Hfile.
  rewrite (LoadProgramCache_store_bytes u bc d entries junk Hfit Hcount Hfile).
  cbn [fst]. split_and!; [done | |].
  - intros k e Hk. by apply lookup_union_Some_l.
  - intros k e later Hk ->. rewrite lookup_union_r by done.
    rewrite list_to_map_cons. apply lookup_insert_eq.
Qed.

(** X2.  Whatever the cache file holds, loading never removes or
    replaces an entry of the table, and it leaves the file as it is or
    deletes it: it never writes one. *)
Theorem load_only_adds u bc d :
  bc ⊆ (LoadProgramCache u bc d).1
  ∧ ((LoadProgramCache u bc d).2 = d ∨ (LoadProgramCache u bc d).2 = Delete d)
  ∧ (cache_file d = None → LoadProgramCache u bc d = (bc, d)).
Proof.
  unfold LoadProgramCache. destruct (cache_file d) as [content|]; [|by auto].
  destruct (ReadInt 4 _ 0) as [f1 verion].
  destruct (negb (verion =? PROGRAM_CACHE_VERSION)).
  - cbn. split_and!; [done | by right | done].
  - destruct (ReadInt 4 f1 0) as [f2 count].
    destruct (LoadProgramCache_loop_grows (Z.to_nat (cast_s32 count)) f2
                (hash_0 u) (format_0 u) (length_0 u) [] bc d) as [Hsub Hd].
    split_and!; [exact Hsub | exact Hd | done].
Qed.

(** X3.  A cache file that is a well-formed store cut anywhere after its
    8-byte header and before its end is deleted by the loader. *)
Theorem load_deletes_cut_store u bc d entries n :
  Forall (λ p, entity_fits p.1 p.2) entries →
  Z.of_nat (List.length entries) < 2 ^ 31 →
  (8 ≤ n < List.length (store_bytes entries))%nat →
  cache_file d = Some (take n (store_bytes entries)) →
  (LoadProgramCache u bc d).2 = Delete d.
Proof.
  intros Hfit Hcount [Hn8 Hn] Hfile. unfold LoadProgramCache. rewrite Hfile.
  unfold store_bytes in *. rewrite !length_app, !length_le_split in Hn.
  rewrite (take_app_ge (le_split 4 _)) by (rewrite length_le_split; lia).
  rewrite (take_app_ge (le_split 4 _)) by (rewrite !length_le_split; lia).
  rewrite !length_le_split.
  rewrite (ReadInt_exact 4) by (vm_compute; split; congruence).
  change (negb (PROGRAM_CACHE_VERSION =? PROGRAM_CACHE_VERSION)) with false.
  cbn match.
  rewrite (ReadInt_exact 4) by (change (Z.of_nat 4 * 8) with 32; lia).
  rewrite cast_s32_small, Nat2Z.id by lia.
  apply LoadProgramCache_loop_cut; [exact Hfit | lia].
Qed.

(** X4.  An entry count that is zero or negative as a signed 32-bit
    number (bit 31 set) makes the loader read no entry: the table is
    unchanged and the file is kept, whatever follows the count. *)
Theorem load_ignores_nonpositive_count u bc d count rest :
  0 <= count < 2 ^ 32 →
  count = 0 ∨ 2 ^ 31 <= count →
  cache_file d
  = Some (le_split 4 PROGRAM_CACHE_VERSION ++ le_split 4 count ++ rest) →
  LoadProgramCache u bc d = (bc, d).
Proof.
  intros Hrange Hsign Hfile. unfold LoadProgramCache. rewrite Hfile.
  rewrite (ReadInt_exact 4) by (vm_compute; split; congruence).
  change (negb (PROGRAM_CACHE_VERSION =? PROGRAM_CACHE_VERSION)) with false.
  cbn match.
  rewrite (ReadInt_exact 4) by (change (Z.of_nat 4 * 8) with 32; lia).
  assert (cast_s32 count <= 0) as Hneg.
  { unfold cast_s32. rewrite Z.mod_small by lia.
    destruct (Z.ltb_spec count (2 ^ 31)); lia. }
  by rewrite Z2Nat.nonpos.
Qed.

(** X6.  Saving an empty table never deletes the file: what fits of the
    8-byte header (version tag 2, count 0) is written and left in place,
    also when the device has room for less than the header. *)
Theorem save_empty_table_keeps_file order d :
  writable d = true →
  order ∅ = [] →
  SaveProgramCache order ∅ d
  = store d (take (free_space d) (store_bytes [])).
Proof.
  intros Hw Hord. unfold SaveProgramCache. rewrite Hw, Hord. cbn [negb].
  rewrite map_size_empty. cbn [SaveProgramCache_loop].
  set (f0 := {| m_file := []; m_room := free_space d; m_good := true |}).
  destruct (WriteInt_file 4 f0 PROGRAM_CACHE_VERSION) as (R1 & _ & F1).
  destruct (WriteInt_file 4 (WriteInt 4 f0 PROGRAM_CACHE_VERSION)
              (cast_s32 (Z.of_nat 0))) as (_ & _ & F2).
  rewrite F2, F1, R1. cbn [m_file m_room f0 app]. f_equal.
  unfold store_bytes. cbn [List.length map concat]. rewrite app_nil_r.
  rewrite take_app. by rewrite length_le_split.
Qed.

End MorePersistence.

(** * The name of the cache file *)

Lemma hex_value_digit n : 0 <= n < 16 → hex_value (hex_digit n) = n.
Proof.
  intros Hn.
  assert (n = 0 ∨ n = 1 ∨ n = 2 ∨ n = 3 ∨ n = 4 ∨ n = 5 ∨ n = 6 ∨ n = 7
          ∨ n = 8 ∨ n = 9 ∨ n = 10 ∨ n = 11 ∨ n = 12 ∨ n = 13 ∨ n = 14
          ∨ n = 15) as Hcases by lia.
  repeat destruct Hcases as [->|Hcases]; try reflexivity.
  subst. reflexivity.
Qed.

Lemma unhex_snoc s : ∀ acc c,
  unhex acc (s +:+ String c "") = 16 * unhex acc s + hex_value c.
Proof.
  induction s as [|c' s IH]; intros acc c; cbn; [reflexivity | apply IH].
Qed.

Lemma unhex_hex_fixed width : ∀ z,
  unhex 0 (hex_fixed width z) = z mod 16 ^ Z.of_nat width.
Proof.
  induction width as [|width IH]; intros z.
  - cbn. by rewrite Z.mod_1_r.
  - cbn [hex_fixed]. rewrite unhex_snoc, IH.
    rewrite hex_value_digit by (apply Z.mod_pos_bound; lia).
    rewrite Nat2Z.inj_succ, Z.pow_succ_r by lia.
    rewrite Z.rem_mul_r by lia. lia.
Qed.

Lemma length_string_app (s1 s2 : string) :
  String.length (s1 +:+ s2) = (String.length s1 + String.length s2)%nat.
Proof.
  induction s1 as [|c s1 IH]; [done|].
  change (S (String.length (s1 +:+ s2))
          = S (String.length s1 + String.length s2)).
  by rewrite IH.
Qed.

Lemma length_hex_fixed width : ∀ z, String.length (hex_fixed width z) = width.
Proof.
  induction width as [|width IH]; intros z; [done|].
  cbn [hex_fixed]. rewrite length_string_app, IH. cbn. lia.
Qed.

Lemma string_app_inv (x : string) : ∀ y s t,
  String.length x = String.length y → x +:+ s = y +:+ t → x = y.
Proof.
  induction x as [|c x IH]; intros [|c' y] s t Hlen Heq; try discriminate.
  - reflexivity.
  - cbn in *. injection Heq as -> Heq. f_equal. eapply IH; [lia | exact Heq].
Qed.

Lemma string_app_inv_head (x : string) : ∀ s t, x +:+ s = x +:+ t → s = t.
Proof.
  induction x as [|c x IH]; intros s t Heq; [exact Heq|].
  cbn in Heq. injection Heq as Heq. by apply IH.
Qed.

(** X8.  The name of the cache file is the directory followed by 22
    characters, and within one directory two program ids have the same
    cache file only if they are equal. *)
Theorem cache_file_of_program_id dir a b :
  0 <= a < 2 ^ 64 → 0 <= b < 2 ^ 64 →
  String.length (GetCacheFile dir a) = (String.length dir + 22)%nat
  ∧ (GetCacheFile dir a = GetCacheFile dir b → a = b).
Proof.
  intros Ha Hb. unfold GetCacheFile. split.
  - rewrite !length_string_app, length_hex_fixed. reflexivity.
  - intros Heq. apply string_app_inv_head in Heq.
    apply string_app_inv in Heq; [|by rewrite !length_hex_fixed].
    apply (f_equal (unhex 0)) in Heq. rewrite !unhex_hex_fixed in Heq.
    change (16 ^ Z.of_nat 16) with (2 ^ 64) in Heq.
    by rewrite !Z.mod_small in Heq.
Qed.

Lemma cache_file_of_program_id_witness :
  String.length (GetCacheFile "cache/" 0x0004000000030800) = 28%nat
  ∧ (GetCacheFile "cache/" 0x0004000000030800
     = GetCacheFile "cache/" 0x0004000000030800 →
     0x0004000000030800 = 0x0004000000030800).
Proof.
  apply (cache_file_of_program_id "cache/" 0x0004000000030800
           0x0004000000030800); lia.
Defined.

Example GetCacheFile_sample :
  GetCacheFile "cache/" 0x0004000000030800 = "cache/0004000000030800.cache"%string.
Proof. reflexivity. Qed.

(** * Further properties of the manager *)

Section MoreManagerFacts.
Context {PICA : Pica} {DRIVER : Driver}.

Implicit Types (m : Impl) (t : list PicaCall) (p : StagePtr).

(** ** How a computation can stop *)

Lemma stops_ret {A} P (a : A) : stops_with P (ret a).
Proof. intros t f [=]. Qed.

Lemma stops_ask {A} P (q : list PicaCall → A) : stops_with P (ask q).
Proof. intros t f [=]. Qed.

Lemma stops_call P c : stops_with P (call c).
Proof. intros t f [=]. Qed.

Lemma stops_halt {A} (P : Fault → Prop) f : P f → stops_with P (halt f : GLM A).
Proof. intros Hf t f' [= <-]. exact Hf. Qed.

Lemma stops_bind {A B} P (c : GLM A) (k : A → GLM B) :
  stops_with P c → (∀ a, stops_with P (k a)) → stops_with P (bind c k).
Proof.
  intros Hc Hk t f. unfold bind. destruct (c t) as [a t1|f1] eqn:Ha.
  - apply Hk.
  - intros [= <-]. by eapply Hc.
Qed.

Lemma stops_when P b (c : GLM unit) : stops_with P c → stops_with P (when b c).
Proof. destruct b; [auto | intros _; apply stops_ret]. Qed.

Lemma stops_returns {A} P (c : GLM A) : returns c → stops_with P c.
Proof. intros Hc t f Hf. destruct (Hc t) as (a & t' & Ha). congruence. Qed.

Lemma stops_SetShaderUniformBlockBindings shader :
  stops_with is_assertion (SetShaderUniformBlockBindings shader).
Proof.
  assert (∀ name binding size,
            stops_with is_assertion
              (SetShaderUniformBlockBinding shader name binding size)) as Hone.
  { intros name binding size. unfold SetShaderUniformBlockBinding.
    apply stops_bind; [apply stops_ask|]. intros ub_index.
    destruct (_ =? _); [apply stops_ret|].
    apply stops_bind; [apply stops_ask|]. intros ub_size.
    destruct (_ =? _); [apply stops_call | by apply stops_halt]. }
  unfold SetShaderUniformBlockBindings. apply stops_bind; [apply Hone|].
  intros _. apply Hone.
Qed.

Lemma OGLShaderStage_Create_mode sep code type h t o t' :
  OGLShaderStage_Create (OGLShaderStage_new sep) code type h t = Ok o t' →
  matches_mode sep o.
Proof.
  unfold OGLShaderStage_Create, OGLShaderStage_new, matches_mode.
  destruct sep; cbn [shader_or_program].
  - intros (sh & t1 & _ & H1)%bind_Ok.
    apply bind_Ok in H1 as (pr & t2 & _ & H2).
    apply bind_Ok in H2 as ([] & t3 & _ & H3).
    apply bind_Ok in H3 as ([] & t4 & _ & [= <- <-]). done.
  - intros (sh & t1 & _ & [= <- <-])%bind_Ok. done.
Qed.

(** ** The invariant under the changes the operations make *)

Lemma live_insert m key o p :
  live m p → live (set_shaders (<[key := o]> (shaders m)) m) p.
Proof.
  destruct p as [| | | |k]; cbn; try done. intros [o' Ho'].
  destruct (decide (key = k)) as [->|Hne].
  - rewrite lookup_insert_eq. by eexists.
  - rewrite lookup_insert_ne by done. by eexists.
Qed.

Lemma well_formed_set_shaders m key o :
  well_formed m → shaders m !! key = None →
  hash o = key → matches_mode (separable m) o →
  well_formed (set_shaders (<[key := o]> (shaders m)) m).
Proof.
  intros (Hobj & Hrec & Hv & Hg & Hf & Htv & Htm) Hfree Hhash Hmode.
  unfold well_formed. split_and!; try (by apply live_insert); try done.
  - intros k o'. cbn. destruct (decide (key = k)) as [->|Hne].
    + rewrite lookup_insert_eq. by intros [= <-].
    + rewrite lookup_insert_ne by done. apply Hobj.
  - intros h p Hp. destruct (Hrec h p Hp) as [Hshape Hlive].
    split; [done | by apply live_insert].
Qed.

Lemma well_formed_set_shaders_ref m key_hash p :
  well_formed m → p = nullptr ∨ (∃ key, p = cached key) → live m p →
  well_formed (set_shaders_ref (<[key_hash := p]> (shaders_ref m)) m).
Proof.
  intros (Hobj & Hrec & Hv & Hg & Hf & Htv & Htm) Hshape Hlive.
  unfold well_formed. split_and!; try done.
  intros h q. cbn. destruct (decide (key_hash = h)) as [->|Hne].
  - rewrite lookup_insert_eq. by intros [= <-].
  - rewrite lookup_insert_ne by done. apply Hrec.
Qed.

Lemma well_formed_set_vs m p : well_formed m → live m p → well_formed (set_vs p m).
Proof. intros (?&?&?&?&?&?&?) Hp. unfold well_formed. by split_and!. Qed.

Lemma well_formed_set_gs m p : well_formed m → live m p → well_formed (set_gs p m).
Proof. intros (?&?&?&?&?&?&?) Hp. unfold well_formed. by split_and!. Qed.

Lemma well_formed_set_fs m p : well_formed m → live m p → well_formed (set_fs p m).
Proof. intros (?&?&?&?&?&?&?) Hp. unfold well_formed. by split_and!. Qed.

(** ** What one stage selection does *)

Lemma index_generations_app (cs1 cs2 : list PicaCall) :
  index_generations (cs1 ++ cs2)
  = (index_generations cs1 + index_generations cs2)%nat.
Proof. unfold index_generations. by rewrite List.filter_app, length_app. Qed.

Lemma index_generations_quiet (cs : list PicaCall) :
  Forall quiet cs → index_generations cs = 0%nat.
Proof.
  unfold index_generations. induction 1 as [|c cs [_ Hc] _ IH]; [done|].
  cbn [List.filter]. destruct c; try discriminate; exact IH.
Qed.

Lemma accounted_refl m t : accounted m t m t.
Proof. exists []. by rewrite app_nil_r. Qed.

Lemma accounted_same m t m' :
  shaders m' = shaders m → shaders_ref m' = shaders_ref m →
  accounted m t m' t.
Proof. intros Es Er. exists []. by rewrite app_nil_r, Es, Er. Qed.

Lemma accounted_trans m1 t1 m2 t2 m3 t3 :
  accounted m1 t1 m2 t2 → accounted m2 t2 m3 t3 → accounted m1 t1 m3 t3.
Proof.
  intros (cs1 & -> & S1 & R1) (cs2 & -> & S2 & R2). exists (cs1 ++ cs2).
  rewrite app_assoc, compiles_app, index_generations_app. split_and!; [done|lia|lia].
Qed.

(** The calls of a resolution that compiles: the generator call, the
    compile call, and calls that are neither. *)
Lemma accounted_compile m t m' (g : PicaCall) code type handle cs key key_hash o :
  is_compile g = false → is_index_generate g = true → Forall quiet cs →
  shaders m !! key = None → shaders_ref m !! key_hash = None →
  shaders m' = <[key := o]> (shaders m) →
  shaders_ref m' = <[key_hash := cached key]> (shaders_ref m) →
  accounted m t m' ((t ++ [g]) ++ CallShaderCreate code type handle :: cs).
Proof.
  intros Hg1 Hg2 Hq Hs Hr Es Er.
  exists (g :: CallShaderCreate code type handle :: cs).
  split; [by rewrite <- app_assoc|].
  rewrite Es, Er, !map_size_insert_None by done.
  unfold compiles, index_generations. cbn [List.filter]. rewrite Hg1, Hg2.
  cbn [is_compile is_index_generate List.length].
  fold (compiles cs). fold (index_generations cs).
  by rewrite compiles_quiet, index_generations_quiet.
Qed.

Lemma UseProgrammableVertexShader_effect regs setup m t r t' :
  UseProgrammableVertexShader regs setup m t = Ok r t' →
  (well_formed m → well_formed r.2)
  ∧ accounted m t r.2 t'
  ∧ program_cache r.2 = program_cache m ∧ binary_cache r.2 = binary_cache m
  ∧ gs (current_shaders r.2) = gs (current_shaders m)
  ∧ fs (current_shaders r.2) = fs (current_shaders m).
Proof.
  intros Hrun.
  destruct (shaders_ref m !! ComputeHash64_vs (PicaVSConfig_new regs setup))
    as [p|] eqn:Hp.
  { rewrite (UseProgrammableVertexShader_hit _ _ _ _ _ Hp) in Hrun.
    injection Hrun as <- <-. cbn [snd].
    split_and!; [|by apply accounted_same|done|done|done|done].
    intros Hwf. apply well_formed_set_vs; [done|].
    destruct Hwf as (_ & Hrec & _). by destruct (Hrec _ _ Hp). }
  destruct (decide (GenerateVertexShader setup (PicaVSConfig_new regs setup)
                      (separable m) = "")) as [Hs|Hs].
  { rewrite (UseProgrammableVertexShader_empty _ _ _ _ Hp Hs) in Hrun.
    injection Hrun as <- <-. cbn [snd].
    split_and!; [| |done|done|done|done].
    - intros Hwf. apply well_formed_set_vs; [|done].
      apply well_formed_set_shaders_ref; [done | by left | done].
    - eexists [_]. split; [done|]. cbn.
      by rewrite map_size_insert_None. }
  destruct (shaders m !! ComputeHash64_code
              (GenerateVertexShader setup (PicaVSConfig_new regs setup)
                 (separable m))) as [o|] eqn:Ho.
  { rewrite (UseProgrammableVertexShader_fetch _ _ _ _ _ Hp Hs Ho) in Hrun.
    injection Hrun as <- <-. cbn [snd].
    split_and!; [| |done|done|done|done].
    - intros Hwf. apply well_formed_set_vs; [|cbn; by eexists].
      apply well_formed_set_shaders_ref; [done | right; by eexists |].
      cbn. by eexists.
    - eexists [_]. split; [done|]. cbn.
      by rewrite map_size_insert_None. }
  rewrite (UseProgrammableVertexShader_compile _ _ _ _ Hp Hs Ho) in Hrun.
  destruct (OGLShaderStage_Create _ _ _ _ _) as [o t1|] eqn:Hc; [|discriminate].
  injection Hrun as <- <-. cbn [snd].
  pose proof (OGLShaderStage_Create_mode _ _ _ _ _ _ _ Hc) as Hmode.
  apply OGLShaderStage_Create_Ok in Hc as (Hhash & cs & -> & Hq).
  split_and!; [| |done|done|done|done].
  - intros Hwf. apply well_formed_set_vs; [|cbn; rewrite lookup_insert_eq; by eexists].
    apply (well_formed_set_shaders_ref (set_shaders _ m));
      [by apply well_formed_set_shaders | right; by eexists |].
    cbn. rewrite lookup_insert_eq. by eexists.
  - by eapply accounted_compile.
Qed.

Lemma UseFragmentShader_effect regs m t m' t' :
  UseFragmentShader regs m t = Ok m' t' →
  (well_formed m → well_formed m')
  ∧ accounted m t m' t'
  ∧ program_cache m' = program_cache m ∧ binary_cache m' = binary_cache m
  ∧ vs (current_shaders m') = vs (current_shaders m)
  ∧ gs (current_shaders m') = gs (current_shaders m).
Proof.
  intros Hrun.
  destruct (shaders_ref m !! ComputeHash64_fs (PicaFSConfig_BuildFromRegs regs))
    as [p|] eqn:Hp.
  { rewrite (UseFragmentShader_hit _ _ _ _ Hp) in Hrun.
    injection Hrun as <- <-.
    split_and!; [|by apply accounted_same|done|done|done|done].
    intros Hwf. apply well_formed_set_fs; [done|].
    destruct Hwf as (_ & Hrec & _). by destruct (Hrec _ _ Hp). }
  destruct (shaders m !! ComputeHash64_code
              (GenerateFragmentShader (PicaFSConfig_BuildFromRegs regs)
                 (separable m))) as [o|] eqn:Ho.
  { rewrite (UseFragmentShader_fetch _ _ _ _ Hp Ho) in Hrun.
    injection Hrun as <- <-.
    split_and!; [| |done|done|done|done].
    - intros Hwf. apply well_formed_set_fs; [|cbn; by eexists].
      apply well_formed_set_shaders_ref; [done | right; by eexists |].
      cbn. by eexists.
    - eexists [_]. split; [done|]. cbn.
      by rewrite map_size_insert_None. }
  rewrite (UseFragmentShader_compile _ _ _ Hp Ho) in Hrun.
  destruct (OGLShaderStage_Create _ _ _ _ _) as [o t1|] eqn:Hc; [|discriminate].
  injection Hrun as <- <-.
  pose proof (OGLShaderStage_Create_mode _ _ _ _ _ _ _ Hc) as Hmode.
  apply OGLShaderStage_Create_Ok in Hc as (Hhash & cs & -> & Hq).
  split_and!; [| |done|done|done|done].
  - intros Hwf. apply well_formed_set_fs; [|cbn; rewrite lookup_insert_eq; by eexists].
    apply (well_formed_set_shaders_ref (set_shaders _ m));
      [by apply well_formed_set_shaders | right; by eexists |].
    cbn. rewrite lookup_insert_eq. by eexists.
  - by eapply accounted_compile.
Qed.

Lemma UseFixedGeometryShader_effect regs m t m' t' :
  UseFixedGeometryShader regs m t = Ok m' t' →
  (well_formed m → well_formed m')
  ∧ accounted m t m' t'
  ∧ program_cache m' = program_cache m ∧ binary_cache m' = binary_cache m
  ∧ vs (current_shaders m') = vs (current_shaders m)
  ∧ fs (current_shaders m') = fs (current_shaders m).
Proof.
  intros Hrun.
  destruct (shaders m !! ComputeHash64_gs (PicaFixedGSConfig_new regs))
    as [o|] eqn:Ho.
  { rewrite (UseFixedGeometryShader_hit _ _ _ _ Ho) in Hrun.
    injection Hrun as <- <-.
    split_and!; [|by apply accounted_same|done|done|done|done].
    intros Hwf. apply well_formed_set_gs; [done | cbn; by eexists]. }
  rewrite (UseFixedGeometryShader_compile _ _ _ Ho) in Hrun.
  destruct (OGLShaderStage_Create _ _ _ _ _) as [o t1|] eqn:Hc; [|discriminate].
  injection Hrun as <- <-.
  pose proof (OGLShaderStage_Create_mode _ _ _ _ _ _ _ Hc) as Hmode.
  apply OGLShaderStage_Create_Ok in Hc as (Hhash & cs & -> & Hq).
  split_and!; [| |done|done|done|done].
  - intros Hwf. apply well_formed_set_gs; [by apply well_formed_set_shaders|].
    cbn. rewrite lookup_insert_eq. by eexists.
  - eexists (_ :: _ :: cs). split; [by rewrite <- app_assoc|]. cbn [shaders shaders_ref set_gs set_current_shaders set_shaders].
    rewrite map_size_insert_None by done.
    unfold compiles, index_generations. cbn [List.filter is_compile is_index_generate List.length].
    fold (compiles cs). fold (index_generations cs).
    by rewrite compiles_quiet, index_generations_quiet.
Qed.

(** ** What [ApplyTo] does to the manager *)

Lemma CreateProgram_effect pr0 h vs gs fs bc t pr bc' t' :
  handle pr0 = 0 →
  CreateProgram pr0 h vs gs fs bc t = Ok (pr, bc') t' →
  (∃ cs, t' = t ++ cs ∧ Forall quiet cs)
  ∧ ∀ key e, bc' !! key = Some e →
             bc !! key = Some e ∨ (key = h ∧ binary e ≠ []).
Proof.
  intros Hz. destruct (bc !! h) as [e0|] eqn:Hb.
  - destruct (decide (LoadProgramBinary t (format e0) (binary e0) = 0))
      as [Hrej|Hacc].
    + rewrite (CreateProgram_rejected _ _ _ _ _ _ _ _ Hb Hrej). cbv zeta.
      destruct (QueryProgramBinary _ _) as [fmt bin]. cbn [fst snd].
      intros [= <- <- <-]. split.
      * rewrite <- app_assoc. eexists. split; [reflexivity|].
        by repeat constructor.
      * intros key e. destruct bin as [|x l].
        -- by rewrite lookup_empty.
        -- intros [<- <-]%lookup_singleton_Some. by right.
    + rewrite (CreateProgram_installed _ _ _ _ _ _ _ _ Hb Hacc).
      intros [= <- <- <-]. split; [|by left].
      eexists. split; [reflexivity|]. by repeat constructor.
  - rewrite (CreateProgram_link_only _ _ _ _ _ _ _ Hz Hb).
    destruct (QueryProgramBinary _ _) as [fmt bin]. cbn [fst snd].
    intros [= <- <- <-]. split.
    + eexists. split; [reflexivity|]. by repeat constructor.
    + intros key e. destruct bin as [|x l].
      * by left.
      * destruct (decide (key = h)) as [->|Hne].
        -- rewrite lookup_insert_eq. intros [= <-]. by right.
        -- rewrite lookup_insert_ne by done. by left.
Qed.

Lemma ApplyTo_effect state m t r t' :
  ApplyTo state m t = Ok r t' →
  shaders r.2 = shaders m
  ∧ shaders_ref r.2 = shaders_ref m
  ∧ current_shaders r.2 = current_shaders m
  ∧ separable r.2 = separable m
  ∧ trivial_vertex_shader r.2 = trivial_vertex_shader m
  ∧ (∃ cs, t' = t ++ cs ∧ Forall quiet cs)
  ∧ (∀ key, is_Some (program_cache m !! key) →
            is_Some (program_cache r.2 !! key))
  ∧ ∀ key e, binary_cache r.2 !! key = Some e →
             binary_cache m !! key = Some e
             ∨ (binary e ≠ [] ∧ is_Some (program_cache r.2 !! key)).
Proof.
  intros Hrun.
  destruct (ApplyTo_Ok_deref _ _ _ _ _ Hrun) as (vo & go & fo & Hv & Hg & Hf).
  destruct (separable m) eqn:Hsep.
  { rewrite (ApplyTo_separable _ _ _ _ _ _ Hv Hg Hf Hsep) in Hrun.
    injection Hrun as <- <-. cbn [snd].
    split_and!; try done; [|by left].
    eexists. split; [reflexivity|].
    destruct (is_amd m); by repeat constructor. }
  set (h := ComputeHash64_stages (GetHash vo) (GetHash go) (GetHash fo)).
  destruct (decide (handle (default OGLProgram_new (program_cache m !! h)) = 0))
    as [Hz|Hz].
  - rewrite (ApplyTo_create _ _ _ _ _ _ Hv Hg Hf Hsep Hz) in Hrun. fold h in Hrun.
    destruct (CreateProgram _ _ _ _ _ _ _) as [[pr bc'] t1|] eqn:Hc;
      [|discriminate].
    destruct (bind _ _ t1) as [[] t2|] eqn:Hbind; [|discriminate].
    injection Hrun as <- <-. cbn [snd].
    destruct (CreateProgram_effect _ _ _ _ _ _ _ _ _ _ Hz Hc)
      as [(cs1 & -> & Hq1) Hbin].
    assert (emits quiet
              (SetShaderUniformBlockBindings (handle pr);;
               SetShaderSamplerBindings (handle pr))) as Hem.
    { apply (emits_weaken is_binding); [apply is_binding_quiet|].
      apply emits_bind; [apply emits_SetShaderUniformBlockBindings|].
      intros _. apply emits_SetShaderSamplerBindings. }
    apply Hem in Hbind as (cs2 & -> & Hq2).
    split_and!; try done.
    + exists (cs1 ++ cs2). split; [by rewrite app_assoc | by apply Forall_app].
    + intros key Hkey. cbn. destruct (decide (h = key)) as [->|Hne].
      * rewrite lookup_insert_eq. by eexists.
      * by rewrite lookup_insert_ne.
    + intros key e Hkey. cbn in Hkey. destruct (Hbin _ _ Hkey) as [?|[-> Hne]].
      * by left.
      * right. split; [done|]. cbn. rewrite lookup_insert_eq. by eexists.
  - destruct (program_cache m !! h) as [pr|] eqn:Hpr; [|done].
    rewrite (ApplyTo_cached _ _ _ _ _ _ Hv Hg Hf _ Hsep Hpr Hz) in Hrun.
    injection Hrun as <- <-. cbn [snd].
    split_and!; try done; [|by left]. exists []. by rewrite app_nil_r.
Qed.

(** ** How [ApplyTo] can stop *)

Lemma deref_Halt_inv m p t f :
  deref m p t = Halt f →
  (f = NullDereference ∧ p = nullptr)
  ∨ (f = WildDereference ∧ (p = indeterminate ∨ ¬ live m p)).
Proof.
  unfold deref, halt, ret. destruct p as [| | | |key]; try discriminate.
  - intros [= <-]. by left.
  - intros [= <-]. right. split; [done | by left].
  - cbn [live]. destruct (shaders m !! key); [discriminate|]. intros [= <-].
    right. split; [done|]. right. by intros [? ?].
Qed.

Lemma ApplyTo_Halt state m t f :
  ApplyTo state m t = Halt f →
  (∃ k, deref m (active k m) t = Halt f)
  ∨ (is_assertion f ∧ separable m = false).
Proof.
  unfold ApplyTo. unfold bind at 1.
  destruct (deref m (vs (current_shaders m)) t) as [vo t1|f1] eqn:Hv;
    [|intros [= <-]; left; by exists Vertex].
  destruct (deref_Ok _ _ _ _ _ Hv) as [-> _]. unfold bind at 1.
  destruct (deref m (gs (current_shaders m)) t) as [go t1|f1] eqn:Hg;
    [|intros [= <-]; left; by exists Geometry].
  destruct (deref_Ok _ _ _ _ _ Hg) as [-> _]. unfold bind at 1.
  destruct (deref m (fs (current_shaders m)) t) as [fo t1|f1] eqn:Hf;
    [|intros [= <-]; left; by exists Fragment].
  destruct (deref_Ok _ _ _ _ _ Hf) as [-> _].
  destruct (separable m).
  { unfold when, bind, call, ret. by destruct (is_amd m). }
  intros Hstop. right. split; [|done]. revert Hstop.
  match goal with |- ?c t = Halt f → _ =>
    assert (stops_with is_assertion c) as Hc; [|apply Hc] end.
  apply stops_bind; [|intros [? ?]; apply stops_ret].
  destruct (handle _ =? 0) eqn:Hz; [|apply stops_ret].
  apply Z.eqb_eq in Hz.
  apply stops_bind.
  { apply stops_returns. intros t0.
    destruct (CreateProgram_returns _
                (ComputeHash64_stages (GetHash vo) (GetHash go) (GetHash fo))
                (GetHandle vo) (GetHandle go) (GetHandle fo) (binary_cache m)
                t0 Hz) as (pr & bc' & t' & Hcp).
    by exists (pr, bc'), t'. }
  intros [pr bc'].
  apply stops_bind; [apply stops_SetShaderUniformBlockBindings|]. intros _.
  apply stops_bind; [|intros _; apply stops_ret].
  apply stops_returns, returns_SetShaderSamplerBindings.
Qed.

(** ** One operation, and sequences of operations *)

Lemma well_formed_same m m' :
  shaders m' = shaders m → shaders_ref m' = shaders_ref m →
  current_shaders m' = current_shaders m → separable m' = separable m →
  trivial_vertex_shader m' = trivial_vertex_shader m →
  well_formed m → well_formed m'.
Proof. destruct m, m'. cbn. by intros -> -> -> -> ->. Qed.

Lemma step_effect op w t w' t' :
  step op w t = Ok w' t' →
  (well_formed w.2 → well_formed w'.2)
  ∧ accounted w.2 t w'.2 t'
  ∧ (∀ key, is_Some (program_cache w.2 !! key) →
            is_Some (program_cache w'.2 !! key))
  ∧ (∀ key e, binary_cache w'.2 !! key = Some e →
              binary_cache w.2 !! key = Some e
              ∨ (binary e ≠ [] ∧ is_Some (program_cache w'.2 !! key)))
  ∧ ∀ k, selects op ≠ Some k → active k w'.2 = active k w.2.
Proof.
  destruct w as [s m]. destruct op; cbn [step snd selects].
  - intros (r & t1 & Hr & [= <- <-])%bind_Ok. cbn [snd].
    destruct (UseProgrammableVertexShader_effect _ _ _ _ _ _ Hr)
      as (W & A & P & B & G & F).
    split_and!; [done | done | by rewrite P | intros ??; rewrite B; by left |].
    intros [] Hk; cbn [active snd]; done.
  - intros [= <- <-]. cbn [snd]. unfold UseTrivialVertexShader.
    split_and!; [intros; by apply well_formed_set_vs | by apply accounted_same
                | done | intros ??; by left |].
    intros [] Hk; cbn [active snd]; done.
  - intros (r & t1 & Hr & [= <- <-])%bind_Ok. cbn [snd].
    destruct (UseFixedGeometryShader_effect _ _ _ _ _ Hr)
      as (W & A & P & B & V & F).
    split_and!; [done | done | by rewrite P | intros ??; rewrite B; by left |].
    intros [] Hk; cbn [active snd]; done.
  - intros [= <- <-]. cbn [snd]. unfold UseTrivialGeometryShader.
    split_and!; [intros; by apply well_formed_set_gs | by apply accounted_same
                | done | intros ??; by left |].
    intros [] Hk; cbn [active snd]; done.
  - intros (r & t1 & Hr & [= <- <-])%bind_Ok. cbn [snd].
    destruct (UseFragmentShader_effect _ _ _ _ _ Hr)
      as (W & A & P & B & V & G).
    split_and!; [done | done | by rewrite P | intros ??; rewrite B; by left |].
    intros [] Hk; cbn [active snd]; done.
  - intros Hrun.
    destruct (ApplyTo_effect _ _ _ _ _ Hrun)
      as (E1 & E2 & E3 & E4 & E5 & (cs & -> & Hq) & P & B).
    split_and!; [by apply well_formed_same | | done | done |].
    + exists cs. rewrite E1, E2, compiles_quiet, index_generations_quiet by done.
      done.
    + intros k _. unfold active. by rewrite E3.
Qed.

Lemma step_selected op w t w' t' k :
  step op w t = Ok w' t' → selects op = Some k → well_formed w'.2 →
  active k w'.2 ≠ indeterminate.
Proof.
  destruct w as [s m]. destruct op; cbn [step selects]; intros Hrun [= <-] Hwf;
    cbn [active].
  - apply bind_Ok in Hrun as (r & t1 & Hr & [= <- <-]). cbn [snd] in *.
    destruct (UseProgrammableVertexShader_records _ _ _ _ _ _ Hr) as [Hrec _].
    destruct Hwf as (_ & Hshape & _).
    destruct (Hshape _ _ Hrec) as [[->|[key ->]] _]; done.
  - injection Hrun as <- <-. done.
  - apply bind_Ok in Hrun as (r & t1 & Hr & [= <- <-]). cbn [snd] in *.
    destruct (UseFixedGeometryShader_records _ _ _ _ _ Hr) as [-> _]. done.
  - injection Hrun as <- <-. done.
  - apply bind_Ok in Hrun as (r & t1 & Hr & [= <- <-]). cbn [snd] in *.
    pose proof (UseFragmentShader_records _ _ _ _ _ Hr) as Hrec.
    destruct Hwf as (_ & Hshape & _).
    destruct (Hshape _ _ Hrec) as [[->|[key ->]] _]; done.
Qed.

Lemma run_effect ops : ∀ w t w' t',
  run ops w t = Ok w' t' →
  (well_formed w.2 → well_formed w'.2)
  ∧ accounted w.2 t w'.2 t'
  ∧ (∀ key, is_Some (program_cache w.2 !! key) →
            is_Some (program_cache w'.2 !! key))
  ∧ (∀ key e, binary_cache w'.2 !! key = Some e →
              binary_cache w.2 !! key = Some e
              ∨ (binary e ≠ [] ∧ is_Some (program_cache w'.2 !! key))).
Proof.
  induction ops as [|op ops IH]; intros w t w' t'; cbn [run].
  - intros [= <- <-]. split_and!; [done | apply accounted_refl | done |].
    intros ??; by left.
  - intros (w1 & t1 & Hstep & Hrun)%bind_Ok.
    destruct (step_effect _ _ _ _ _ Hstep) as (W1 & A1 & P1 & B1 & _).
    destruct (IH _ _ _ _ Hrun) as (W2 & A2 & P2 & B2).
    split_and!; [auto | by eapply accounted_trans | auto |].
    intros key e Hkey. destruct (B2 _ _ Hkey) as [Hk|?]; [|by right].
    destruct (B1 _ _ Hk) as [?|[? ?]]; [by left|]. right. auto.
Qed.

(** A stage whose active pointer is still indeterminate was not selected
    by any of the operations. *)
Lemma run_unselected ops : ∀ w t w' t' k,
  run ops w t = Ok w' t' → well_formed w.2 →
  (active k w'.2 = indeterminate →
   active k w.2 = indeterminate ∧ Forall (λ op, selects op ≠ Some k) ops)
  ∧ (Forall (λ op, selects op ≠ Some k) ops → active k w'.2 = active k w.2).
Proof.
  induction ops as [|op ops IH]; intros w t w' t' k; cbn [run].
  - intros [= <- <-] _. auto.
  - intros (w1 & t1 & Hstep & Hrun)%bind_Ok Hwf.
    destruct (step_effect _ _ _ _ _ Hstep) as (W1 & _ & _ & _ & K1).
    destruct (IH _ _ _ _ k Hrun (W1 Hwf)) as [IH1 IH2]. split.
    + intros Hk. destruct (IH1 Hk) as [Hk1 Hall].
      destruct (decide (selects op = Some k)) as [Hsel|Hsel].
      * by destruct (step_selected _ _ _ _ _ _ Hstep Hsel (W1 Hwf)).
      * rewrite <- (K1 _ Hsel). split; [done | by constructor].
    + intros [Hop Hall]%Forall_cons. rewrite (IH2 Hall). by apply K1.
Qed.

(** ** Construction *)

Lemma Impl_new_inv sep amd usc u d t0 m0 d0 t1 :
  Impl_new sep amd usc u d t0 = Ok (m0, d0) t1 →
  well_formed m0
  ∧ separable m0 = sep
  ∧ shaders m0 = ∅ ∧ shaders_ref m0 = ∅ ∧ program_cache m0 = ∅
  ∧ (∀ k, active k m0 = indeterminate)
  ∧ (∃ cs, t1 = t0 ++ cs ∧ compiles cs = 1%nat
           ∧ index_generations cs = 0%nat)
  ∧ binary_cache m0
    = (if negb sep && usc then (LoadProgramCache u ∅ d).1 else ∅)
  ∧ d0 = (if negb sep && usc then (LoadProgramCache u ∅ d).2 else d).
Proof.
  unfold Impl_new. intros (x & t2 & Hpre & Hrest)%bind_Ok.
  destruct x as [[pl bc] d'].
  apply bind_Ok in Hrest as ([] & t3 & [= <-] & Hrest).
  apply bind_Ok in Hrest as (tv & t4 & Hc & [= <- <- <-]).
  pose proof (OGLShaderStage_Create_mode _ _ _ _ _ _ _ Hc) as Hmode.
  apply OGLShaderStage_Create_Ok in Hc as (Hhash & cs & -> & Hq).
  assert (∃ pre, t2 = t0 ++ pre ∧ Forall quiet pre
                 ∧ bc = (if negb sep && usc
                         then (LoadProgramCache u ∅ d).1 else ∅)
                 ∧ d' = (if negb sep && usc
                         then (LoadProgramCache u ∅ d).2 else d))
    as (pre & -> & Hpq & -> & ->).
  { destruct sep; [|destruct usc]; cbn [negb andb].
    - apply bind_Ok in Hpre as (pl' & t' & [= <-] & [= <- <- <- <-]).
      eexists [_]. split_and!; try done. by repeat constructor.
    - destruct (LoadProgramCache u ∅ d) as [bc1 d1].
      injection Hpre as <- <- <- <-. exists []. by rewrite app_nil_r.
    - injection Hpre as <- <- <- <-. exists []. by rewrite app_nil_r. }
  cbn. split_and!; try done.
  - unfold well_formed. cbn. split_and!; try done; intros ??; by rewrite lookup_empty.
  - by intros [].
  - eexists (pre ++ [_] ++ _ :: cs). split; [by rewrite <- !app_assoc|].
    rewrite !compiles_app, !index_generations_app.
    rewrite (compiles_quiet pre), (index_generations_quiet pre) by done.
    unfold compiles, index_generations. cbn [List.filter is_compile is_index_generate List.length app].
    fold (compiles cs). fold (index_generations cs).
    by rewrite compiles_quiet, index_generations_quiet.
Qed.

Lemma well_formed_active m k : well_formed m → live m (active k m).
Proof. intros (_ & _ & V & G & F & _). by destruct k. Qed.

(** ** The manager from construction on *)

(** X9.  In every state the manager reaches from its construction, each
    cached stage object carries the key it is stored under as its hash and
    holds the alternative of the variant that fits the mode, each recorded
    resolution is null or points to a stage object that is in the cache,
    and no active stage pointer dangles. *)
Theorem reachable_states_are_well_formed
    sep amd usc u d t0 m0 d0 t1 ops s0 w t :
  Impl_new sep amd usc u d t0 = Ok (m0, d0) t1 →
  run ops (s0, m0) t1 = Ok w t →
  well_formed w.2.
Proof.
  intros Hnew Hrun. destruct (Impl_new_inv _ _ _ _ _ _ _ _ _ Hnew) as (Hwf & _).
  destruct (run_effect _ _ _ _ _ Hrun) as (W & _). by apply W.
Qed.

(** X10.  Why [ApplyTo] stops, in a state reached from construction by
    the operations [ops]: on a null dereference only if an active stage
    pointer is null; on the dereference of an invalid pointer only if one
    of the three stages was selected by none of the operations; on a
    failed assertion only in monolithic mode. *)
Theorem apply_stops_for_a_reason
    sep amd usc u d t0 m0 d0 t1 ops s0 w t state f :
  Impl_new sep amd usc u d t0 = Ok (m0, d0) t1 →
  run ops (s0, m0) t1 = Ok w t →
  ApplyTo state w.2 t = Halt f →
  match f with
  | NullDereference => ∃ k, active k w.2 = nullptr
  | WildDereference =>
      ∃ k, active k w.2 = indeterminate
           ∧ Forall (λ op, selects op ≠ Some k) ops
  | AssertionFailure _ => sep = false
  end.
Proof.
  intros Hnew Hrun Hstop.
  destruct (Impl_new_inv _ _ _ _ _ _ _ _ _ Hnew) as (Hwf & Hsep & _).
  destruct (run_effect _ _ _ _ _ Hrun) as (W & _). specialize (W Hwf).
  destruct (ApplyTo_Halt _ _ _ _ Hstop) as [[k Hk]|[Ha Hmode]].
  - destruct (deref_Halt_inv _ _ _ _ Hk) as [[-> Hp]|[-> [Hp|Hp]]].
    + by exists k.
    + exists k. split; [done|].
      by destruct (proj1 (run_unselected _ _ _ _ _ k Hrun Hwf) Hp).
    + destruct Hp. by apply well_formed_active.
  - destruct f; try done.
    apply frame_run in Hrun as (S & _). cbn [snd] in S. congruence.
Qed.

(** X11.  The members of [current_shaders] have no initialiser, and the
    only assignments to them are those of the five selecting operations:
    after construction and any operations, the active pointer of a stage
    is the never-assigned one exactly when none of the operations selected
    that stage.  Lines 219 to 221 of [ApplyTo] then read through it. *)
Theorem stage_unassigned_until_selected
    sep amd usc u d t0 m0 d0 t1 ops s0 w t k :
  Impl_new sep amd usc u d t0 = Ok (m0, d0) t1 →
  run ops (s0, m0) t1 = Ok w t →
  active k w.2 = indeterminate ↔ Forall (λ op, selects op ≠ Some k) ops.
Proof.
  intros Hnew Hrun.
  destruct (Impl_new_inv _ _ _ _ _ _ _ _ _ Hnew) as (Hwf & _ & _ & _ & _ & Hk & _).
  destruct (run_unselected _ _ _ _ _ k Hrun Hwf) as [Hfwd Hback]. split.
  - intros Hu. by destruct (Hfwd Hu).
  - intros Hnone. rewrite (Hback Hnone). apply Hk.
Qed.

(** X13.  Among the calls made since the start of the construction there
    is exactly one compile call per stage object in the cache plus one for
    the trivial vertex shader, and exactly one call of the vertex or the
    fragment generator per recorded resolution: nothing is compiled or
    generated twice, and nothing compiled is dropped. *)
Theorem every_stage_compiled_once sep amd usc u d t0 m0 d0 t1 ops s0 w t :
  Impl_new sep amd usc u d t0 = Ok (m0, d0) t1 →
  run ops (s0, m0) t1 = Ok w t →
  ∃ cs, t = t0 ++ cs
        ∧ compiles cs = S (size (shaders w.2))
        ∧ index_generations cs = size (shaders_ref w.2).
Proof.
  intros Hnew Hrun.
  destruct (Impl_new_inv _ _ _ _ _ _ _ _ _ Hnew)
    as (_ & _ & Hs & Hr & _ & _ & (cs1 & -> & Hc1 & Hg1) & _).
  destruct (run_effect _ _ _ _ _ Hrun) as (_ & (cs2 & -> & Hc2 & Hg2) & _).
  cbn [snd] in *. rewrite Hs, map_size_empty in Hc2.
  rewrite Hr, map_size_empty in Hg2.
  exists (cs1 ++ cs2). rewrite compiles_app, index_generations_app.
  split_and!; [by rewrite app_assoc | lia | lia].
Qed.

(** X14.  The table of binaries of a manager holds nothing but what the
    constructor loaded from the cache file (nothing at all in separable
    mode or with the shader cache disabled) and non-empty binaries stored
    under the key of a program of the linked-program cache. *)
Theorem stored_binaries_have_programs
    sep amd usc u d t0 m0 d0 t1 ops s0 w t :
  Impl_new sep amd usc u d t0 = Ok (m0, d0) t1 →
  run ops (s0, m0) t1 = Ok w t →
  binary_cache m0
  = (if negb sep && usc then (LoadProgramCache u ∅ d).1 else ∅)
  ∧ binaries_from (binary_cache m0) w.2.
Proof.
  intros Hnew Hrun.
  destruct (Impl_new_inv _ _ _ _ _ _ _ _ _ Hnew)
    as (_ & _ & _ & _ & _ & _ & _ & Hb & _).
  split; [done|]. destruct (run_effect _ _ _ _ _ Hrun) as (_ & _ & _ & B).
  exact B.
Qed.

(** X7.  A monolithic manager with the shader cache enabled hands its
    table of binaries to the next one: when the table fits the file
    format and the device has room, the destructor leaves the store of
    the table as the cache file, and a manager whose constructor returns
    on that disk starts with the same table and keeps the file. *)
Theorem binaries_survive_restart order m d amd u t0 m1 d1 t1 :
  separable m = false →
  order (binary_cache m) ≡ₚ map_to_list (binary_cache m) →
  map_Forall entity_fits (binary_cache m) →
  Z.of_nat (size (binary_cache m)) < 2 ^ 31 →
  writable d = true →
  (List.length (store_bytes (order (binary_cache m))) <= free_space d)%nat →
  Impl_new false amd true u (Impl_delete true order m d) t0
  = Ok (m1, d1) t1 →
  binary_cache m1 = binary_cache m
  ∧ d1 = Impl_delete true order m d
  ∧ cache_file d1 = Some (store_bytes (order (binary_cache m))).
Proof.
  intros Hsep Hperm Hfit Hsize Hw Hroom Hnew.
  assert (Hlen : List.length (order (binary_cache m)) = size (binary_cache m)).
  { rewrite <- length_map_to_list. apply Permutation_length, Hperm. }
  assert (Hfits : Forall (λ x, entity_fits x.1 x.2) (order (binary_cache m))).
  { rewrite Hperm. apply Forall_forall. intros [k e] Hin.
    apply elem_of_map_to_list in Hin. exact (Hfit k e Hin). }
  assert (Impl_delete true order m d
          = store d (store_bytes (order (binary_cache m)))) as Hd.
  { unfold Impl_delete. rewrite Hsep. cbn [negb andb].
    by apply SaveProgramCache_fits. }
  assert (LoadProgramCache u ∅ (Impl_delete true order m d)
          = (binary_cache m, Impl_delete true order m d)) as Hload.
  { rewrite (LoadProgramCache_store_bytes u ∅ _ (order (binary_cache m)) []);
      [| exact Hfits | lia | by rewrite Hd, app_nil_r].
    rewrite (left_id_L ∅ (∪)). f_equal. symmetry.
    apply list_to_map_flip. symmetry. exact Hperm. }
  destruct (Impl_new_inv _ _ _ _ _ _ _ _ _ Hnew)
    as (_ & _ & _ & _ & _ & _ & _ & Hb & Hd1).
  cbn [negb andb] in Hb, Hd1. rewrite Hload in Hb, Hd1. cbn [fst snd] in Hb, Hd1.
  split_and!; [exact Hb | exact Hd1 |]. by rewrite Hd1, Hd.
Qed.

(** ** The sampler bindings *)

Lemma sets_uniforms_SetShaderSamplerBinding shader name binding :
  sets_uniforms 1 (SetShaderSamplerBinding shader name binding).
Proof.
  intros t. unfold SetShaderSamplerBinding, bind, ask, when, call, ret.
  destruct (negb _).
  - eexists [_]. split_and!; [reflexivity | by repeat constructor | cbn; lia].
  - exists []. rewrite app_nil_r. split_and!; [done | done | cbn; lia].
Qed.

Lemma sets_uniforms_SetShaderImageBinding shader name binding :
  sets_uniforms 1 (SetShaderImageBinding shader name binding).
Proof.
  intros t. unfold SetShaderImageBinding, bind, ask, when, call, ret.
  destruct (negb _).
  - eexists [_]. split_and!; [reflexivity | by repeat constructor | cbn; lia].
  - exists []. rewrite app_nil_r. split_and!; [done | done | cbn; lia].
Qed.

(** One more binding in front of a computation that ends in [last] after
    at most [n] bindings. *)
Lemma uniform_before {A} (last : GLM A) n (c : GLM unit) (k : GLM A) :
  sets_uniforms 1 c →
  (∀ t, ∃ l, k t = last (t ++ l) ∧ Forall is_uniform l
             ∧ (List.length l ≤ n)%nat) →
  ∀ t, ∃ l, (c ;; k) t = last (t ++ l) ∧ Forall is_uniform l
            ∧ (List.length l ≤ S n)%nat.
Proof.
  intros Hc Hk t. destruct (Hc t) as (l1 & Hl1 & Hu1 & Hn1).
  destruct (Hk (t ++ l1)) as (l2 & Hl2 & Hu2 & Hn2).
  exists (l1 ++ l2). unfold bind. rewrite Hl1, Hl2, app_assoc.
  split_and!; [done | by apply Forall_app |]. rewrite length_app. lia.
Qed.

(** X15.  [SetShaderSamplerBindings] always returns.  Its first call
    binds the given program, its last call binds again the program that
    was bound before, and the calls in between are at most fourteen
    [glUniform1i] calls. *)
Theorem sampler_bindings_restore_program shader t :
  let old := CurrentShaderProgram t in
  let t1 := t ++ [CallBindShaderProgram shader old] in
  ∃ l, SetShaderSamplerBindings shader t
       = Ok tt ((t1 ++ l)
                ++ [CallBindShaderProgram old (CurrentShaderProgram (t1 ++ l))])
       ∧ Forall is_uniform l ∧ (List.length l ≤ 14)%nat.
Proof.
  intros old t1. unfold SetShaderSamplerBindings.
  unfold bind at 1. unfold OpenGLState_BindShaderProgram at 1.
  unfold bind at 1. unfold bind at 1. cbn [ask call ret].
  fold old. fold t1.
  match goal with |- ∃ l, ?c t1 = _ ∧ _ ∧ _ =>
    assert (∀ t, ∃ l, c t
                      = (let* _ := OpenGLState_BindShaderProgram old in ret tt)
                          (t ++ l)
                      ∧ Forall is_uniform l ∧ (List.length l ≤ 14)%nat) as Hall
  end.
  { do 7 (apply uniform_before;
            [apply sets_uniforms_SetShaderSamplerBinding|]).
    do 7 (apply uniform_before;
            [apply sets_uniforms_SetShaderImageBinding|]).
    intros t'. exists []. by rewrite app_nil_r. }
  destruct (Hall t1) as (l & Hl & Hu & Hn). exists l.
  split_and!; [|done|done]. rewrite Hl. reflexivity.
Qed.

(** ** The binding calls, written out *)

Lemma SetShaderUniformBlockBinding_calls shader name binding size t t' :
  SetShaderUniformBlockBinding shader name binding size t = Ok tt t' →
  t' = t ++ block_call shader name binding t.
Proof.
  unfold SetShaderUniformBlockBinding, block_call, bind, ask, call, halt, ret.
  destruct (_ =? GL_INVALID_INDEX).
  - intros [= <-]. by rewrite app_nil_r.
  - destruct (_ =? size); [by intros [= <-] | discriminate].
Qed.

Lemma SetShaderUniformBlockBindings_calls shader t t' :
  SetShaderUniformBlockBindings shader t = Ok tt t' →
  t' = t ++ block_binding_calls shader t.
Proof.
  unfold SetShaderUniformBlockBindings, block_binding_calls.
  intros ([] & t1 & H1 & H2)%bind_Ok.
  apply SetShaderUniformBlockBinding_calls in H1 as ->.
  apply SetShaderUniformBlockBinding_calls in H2 as ->.
  by rewrite app_assoc.
Qed.

Lemma uniform_then {A} shader name binding (k : GLM A) t :
  (SetShaderSamplerBinding shader name binding ;; k) t
  = k (t ++ uniform_call shader name binding t).
Proof.
  unfold SetShaderSamplerBinding, uniform_call, bind, ask, when, call, ret.
  destruct (_ =? -1); cbn [negb]; [by rewrite app_nil_r | done].
Qed.

Lemma uniforms_then {A} shader (k : GLM A) units : ∀ t,
  fold_right (λ u acc, SetShaderSamplerBinding shader u.1 u.2 ;; acc) k units t
  = k (t ++ uniform_calls units shader t).
Proof.
  induction units as [|[name binding] units IH]; intros t;
    cbn [fold_right uniform_calls fst snd].
  - by rewrite app_nil_r.
  - rewrite uniform_then, IH. by rewrite app_assoc.
Qed.

Lemma SetShaderSamplerBindings_calls shader t :
  SetShaderSamplerBindings shader t
  = Ok tt (t ++ sampler_binding_calls shader t).
Proof.
  change (SetShaderSamplerBindings shader) with
    (let* old_program := OpenGLState_BindShaderProgram shader in
     fold_right (λ u acc, SetShaderSamplerBinding shader u.1 u.2 ;; acc)
       (let* _ := OpenGLState_BindShaderProgram old_program in ret tt)
       sampler_units).
  unfold bind at 1. unfold OpenGLState_BindShaderProgram at 1.
  unfold bind at 1. unfold bind at 1. cbn [ask call ret].
  rewrite uniforms_then. unfold sampler_binding_calls.
  unfold OpenGLState_BindShaderProgram, bind, ask, call, ret.
  by rewrite <- !app_assoc.
Qed.

Lemma bindings_calls shader t t' :
  (SetShaderUniformBlockBindings shader;; SetShaderSamplerBindings shader) t
  = Ok tt t' →
  t' = t ++ binding_calls shader t.
Proof.
  intros ([] & t1 & H1 & H2)%bind_Ok.
  apply SetShaderUniformBlockBindings_calls in H1 as ->.
  rewrite SetShaderSamplerBindings_calls in H2. injection H2 as <-.
  unfold binding_calls. by rewrite app_assoc.
Qed.

(** In monolithic mode every stage object an active pointer can refer to
    holds a shader object. *)
Lemma monolithic_stage_is_shader m p t o :
  well_formed m → separable m = false →
  trivial_geometry_shader m = OGLShaderStage_new false →
  deref m p t = Ok o t →
  ∃ shader, shader_or_program o = which_0 shader.
Proof.
  intros (Hobj & _ & _ & _ & _ & _ & Htv) Hsep Htg.
  assert (∀ o', matches_mode (separable m) o' →
                ∃ shader, shader_or_program o' = which_0 shader) as Hmode.
  { intros o'. unfold matches_mode. rewrite Hsep.
    destruct (shader_or_program o'); [by eexists | discriminate]. }
  unfold deref. destruct p as [| | | |key]; try discriminate.
  - intros [= <-]. by apply Hmode.
  - intros [= <-]. rewrite Htg. by eexists.
  - destruct (shaders m !! key) as [o'|] eqn:Ho; [|discriminate].
    intros [= <-]. apply Hmode. by destruct (Hobj _ _ Ho).
Qed.


End MoreManagerFacts.

(** * The further properties on the demo platform *)

Lemma load_decodes_store_witness :
  let d := disk_with (store_bytes (map_to_list demo_table) ++ [Byte.xff]) in
  LoadProgramCache demo_garbage ∅ d
  = (∅ ∪ list_to_map (map_to_list demo_table), d).
Proof.
  intros d.
  destruct (load_decodes_store demo_garbage ∅ d (map_to_list demo_table)
              [Byte.xff]) as (Hload & _); [| | | exact Hload].
  - refine (bool_decide_unpack _ _). vm_compute. reflexivity.
  - vm_compute. reflexivity.
  - reflexivity.
Defined.

Lemma load_only_adds_witness :
  LoadProgramCache demo_garbage demo_table demo_disk = (demo_table, demo_disk).
Proof.
  destruct (load_only_adds demo_garbage demo_table demo_disk) as (_ & _ & Hnone).
  apply Hnone. reflexivity.
Defined.

Lemma load_deletes_cut_store_witness :
  let d := disk_with (take 10 (store_bytes (map_to_list demo_table))) in
  (LoadProgramCache demo_garbage ∅ d).2 = Delete d.
Proof.
  intros d.
  apply (load_deletes_cut_store demo_garbage ∅ d (map_to_list demo_table) 10).
  - refine (bool_decide_unpack _ _). vm_compute. reflexivity.
  - vm_compute. reflexivity.
  - vm_compute. lia.
  - reflexivity.
Defined.

Lemma load_ignores_nonpositive_count_witness :
  let d := disk_with (le_split 4 PROGRAM_CACHE_VERSION
                      ++ le_split 4 (2 ^ 31) ++ [Byte.x01]) in
  LoadProgramCache demo_garbage demo_table d = (demo_table, d).
Proof.
  intros d.
  apply (load_ignores_nonpositive_count demo_garbage demo_table d (2 ^ 31)
           [Byte.x01]).
  - lia.
  - right. lia.
  - reflexivity.
Defined.

Lemma save_empty_table_keeps_file_witness :
  SaveProgramCache map_to_list ∅ (small_disk 5)
  = store (small_disk 5) (take (free_space (small_disk 5)) (store_bytes [])).
Proof.
  apply (save_empty_table_keeps_file map_to_list (small_disk 5)); reflexivity.
Defined.

Lemma binaries_survive_restart_witness :
  let m := (demo_run false (demo_selected ++ [OpApplyTo])).1.2 in
  binary_cache demo_restart.1.1 = binary_cache m
  ∧ demo_restart.1.2 = Impl_delete true map_to_list m demo_disk
  ∧ cache_file demo_restart.1.2
    = Some (store_bytes (map_to_list (binary_cache m))).
Proof.
  intros m.
  apply (binaries_survive_restart map_to_list m demo_disk false demo_garbage
           [] demo_restart.1.1 demo_restart.1.2 demo_restart.2).
  - by_computation.
  - reflexivity.
  - refine (bool_decide_unpack _ _). vm_compute. reflexivity.
  - vm_compute. reflexivity.
  - reflexivity.
  - vm_compute. lia.
  - by_computation.
Defined.

Lemma reachable_states_are_well_formed_witness :
  well_formed (demo_run false demo_ops).1.2.
Proof.
  apply (reachable_states_are_well_formed false false false demo_garbage
           demo_disk [] (demo_boot false).1 demo_disk (demo_boot false).2
           demo_ops demo_state (demo_run false demo_ops).1
           (demo_run false demo_ops).2); by_computation.
Defined.

Lemma apply_stops_for_a_reason_witness :
  let st := demo_run false demo_two_stages in
  ∃ k, active k st.1.2 = indeterminate
       ∧ Forall (λ op, selects op ≠ Some k) demo_two_stages.
Proof.
  intros st.
  apply (apply_stops_for_a_reason false false false demo_garbage demo_disk
           [] (demo_boot false).1 demo_disk (demo_boot false).2
           demo_two_stages demo_state st.1 st.2 demo_state WildDereference);
    by_computation.
Defined.

Lemma stage_unassigned_until_selected_witness :
  let st := demo_run false demo_two_stages in
  active Geometry st.1.2 = indeterminate
  ↔ Forall (λ op, selects op ≠ Some Geometry) demo_two_stages.
Proof.
  intros st.
  apply (stage_unassigned_until_selected false false false demo_garbage
           demo_disk [] (demo_boot false).1 demo_disk (demo_boot false).2
           demo_two_stages demo_state st.1 st.2 Geometry); by_computation.
Defined.

Lemma every_stage_compiled_once_witness :
  let st := demo_run false demo_ops in
  ∃ cs, st.2 = [] ++ cs
        ∧ compiles cs = S (size (shaders st.1.2))
        ∧ index_generations cs = size (shaders_ref st.1.2).
Proof.
  intros st.
  apply (every_stage_compiled_once false false false demo_garbage demo_disk
           [] (demo_boot false).1 demo_disk (demo_boot false).2
           demo_ops demo_state st.1 st.2); by_computation.
Defined.

Lemma stored_binaries_have_programs_witness :
  let st := demo_run false demo_ops in
  binary_cache (demo_boot false).1
  = (if negb false && false
     then (LoadProgramCache demo_garbage ∅ demo_disk).1 else ∅)
  ∧ binaries_from (binary_cache (demo_boot false).1) st.1.2.
Proof.
  intros st.
  apply (stored_binaries_have_programs false false false demo_garbage
           demo_disk [] (demo_boot false).1 demo_disk (demo_boot false).2
           demo_ops demo_state st.1 st.2); by_computation.
Defined.

(** * The linked-program cache on the demo platform *)


